(** * advanced-vector: RawMemory<T> and Vector<T> (vector.h)

    A shallow embedding of the two class templates of [vector.h] and the
    proofs of their specification.

    - The element type [T] is abstract.  Its special member functions are the
      fields of the class [Element]; each may throw and may read and change an
      ambient world [W] (counters, flags, whatever the element type keeps
      outside its objects).
    - Raw storage is a heap of blocks.  A block is a list of slots, a slot is
      [None] (uninitialised memory) or [Some x] (a live object in state [x]).
      Blocks are numbered in allocation order and a number is never reused,
      so that a freed block stays visible as freed.
    - [Vector] objects live in an object store indexed by their address, so
      that [this != &other] is a comparison of addresses.
    - A member function is a computation in the monad [M]: it transforms the
      state and either returns, throws, or runs into undefined behaviour.
      The state is kept on every outcome, which is what makes the exception
      guarantees statable.
    - [size_t] values are [nat]: a size or a capacity is bounded by the
      memory that was really allocated.  Where the source subtracts, the
      model says what happens on underflow.  The count that a caller hands
      to [Vector(n)], [Reserve] or [Resize] is bounded by nothing, and
      [Allocate] multiplies it by [sizeof(T)]: that product is computed in
      [size_t], with its wrap-around, and the block that [operator new]
      gives has room for as many objects as the bytes asked for hold.
      The doubling [size_ * 2] of a growth is exact: where it would wrap,
      the byte count wraps as well, and the new block has no room for the
      element that the growth is for (lemma [room_grown]). *)

From stdpp Require Import base option list gmap.

(** ** The element type *)

Inductive exception := bad_alloc | element_error.

(** [T]'s operations.  A result [None] is a thrown exception.  A move returns
    the new state of the target and the state the source is left in.  An
    operation that throws leaves its operands as they were.  The last
    three fields are what [RawMemory::Allocate] takes from the platform:
    the size of an object, the width of [size_t], and [operator new]. *)
Class Element (T W : Type) := {
  (** [T()] *)
  value_construct : W → W * option T;
  (** [T(const T&)] *)
  copy_construct : T → W → W * option T;
  (** [T(T&&)]: the new object, and the moved-from source *)
  move_construct : T → W → W * option (T * T);
  (** [dst = src] with [const T& src]: the new state of [dst] *)
  copy_assign : T → T → W → W * option T;
  (** [dst = std::move(src)]: the new states of [dst] and of [src] *)
  move_assign : T → T → W → W * option (T * T);
  (** [std::is_nothrow_move_constructible_v<T>] *)
  is_nothrow_move_constructible : bool;
  (** [std::is_copy_constructible_v<T>] *)
  is_copy_constructible : bool;
  (** [sizeof(T)] *)
  sizeof_T : positive;
  (** the width of [size_t] in bits: [x] as a [size_t] is [x mod 2 ^ bits].
      [None] is the machine whose [size_t] holds every number, the one on
      which memory does not run out. *)
  size_t_bits : option N;
  (** whether [operator new(bytes)] gives a block *)
  new_succeeds : N → W → bool;
}.

(** ** Byte counts *)

Section size_t.
Context {T W : Type} {Element : Element T W}.

(** The value of a number as a [size_t]. *)
Definition to_size_t (x : N) : N :=
  match size_t_bits with
  | Some bits => (x mod 2 ^ bits)%N
  | None => x
  end.

(** [n * sizeof(T)] as [RawMemory::Allocate] computes it, in [size_t]. *)
Definition bytes_of (n : nat) : N := to_size_t (N.of_nat n * Npos sizeof_T).

(** The number of objects of type [T] that [bytes] bytes have room for. *)
Definition slots_in (bytes : N) : nat := N.to_nat (bytes / Npos sizeof_T).

(** The number of slots of the block that [Allocate(n)] gets. *)
Definition room (n : nat) : nat := slots_in (bytes_of n).

(** The byte count of [n] elements is a [size_t]: the product
    [n * sizeof(T)] does not wrap. *)
Definition fits (n : nat) : Prop :=
  bytes_of n = (N.of_nat n * Npos sizeof_T)%N.

(** Whether [operator new] serves the request that [Allocate(n)] makes. *)
Definition can_allocate (n : nat) (w : W) : bool :=
  new_succeeds (bytes_of n) w.

End size_t.

(** ** Pointers and objects *)

(** A [T*]: null, or slot [offset] of block [block]. *)
Inductive ptr := nullptr | Ptr (block offset : nat).

Global Instance ptr_eq_dec : EqDecision ptr.
Proof. solve_decision. Defined.

Record RawMemory := mkRawMemory { buffer_ : ptr; capacity_ : nat }.

Record Vector := mkVector { data_ : RawMemory; size_ : nat }.

Definition ptr_add (p : ptr) (k : nat) : ptr :=
  match p with
  | nullptr => nullptr
  | Ptr b i => Ptr b (i + k)
  end.

(** [p - k]; every use in [vector.h] comes after a check or a dereference
    that already fails when [k] exceeds the offset. *)
Definition ptr_sub (p : ptr) (k : nat) : ptr :=
  match p with
  | nullptr => nullptr
  | Ptr b i => Ptr b (i - k)
  end.

(** ** State and monad *)

Section model.
Context {T W : Type} {E : Element T W}.

Record state := mkState {
  heap : list (option (list (option T)));
  objs : gmap nat Vector;
  world : W;
  destroyed : list T;
}.

Inductive outcome (A : Type) :=
  | Ok (a : A)
  | Throw (e : exception)
  | Undefined.
Global Arguments Ok {A} a.
Global Arguments Throw {A} e.
Global Arguments Undefined {A}.

Definition M (A : Type) : Type := state → outcome A * state.

Definition ret {A} (a : A) : M A := λ σ, (Ok a, σ).

Definition bind {A B} (m : M A) (k : A → M B) : M B := λ σ,
  match m σ with
  | (Ok a, σ') => k a σ'
  | (Throw e, σ') => (Throw e, σ')
  | (Undefined, σ') => (Undefined, σ')
  end.

Definition throw {A} (e : exception) : M A := λ σ, (Throw e, σ).

Definition undefined {A} : M A := λ σ, (Undefined, σ).

(** [try { m } catch (...) { h; }] where [h] ends in [throw;] or returns. *)
Definition try_catch {A} (m : M A) (h : exception → M A) : M A := λ σ,
  match m σ with
  | (Throw e, σ') => h e σ'
  | r => r
  end.

Definition set_heap (h : list (option (list (option T)))) (σ : state) : state :=
  mkState h (objs σ) (world σ) (destroyed σ).

Definition set_objs (o : gmap nat Vector) (σ : state) : state :=
  mkState (heap σ) o (world σ) (destroyed σ).

Definition set_world (w : W) (σ : state) : state :=
  mkState (heap σ) (objs σ) w (destroyed σ).

Definition log_destroyed (x : T) (σ : state) : state :=
  mkState (heap σ) (objs σ) (world σ) (destroyed σ ++ [x]).

End model.

Global Arguments state : clear implicits.
Global Arguments M : clear implicits.

Declare Scope vec_scope.
Delimit Scope vec_scope with vec.
Notation "x ← y ; z" := (bind y (λ x : _, z))
  (at level 20, y at level 100, z at level 200, only parsing) : vec_scope.
Notation "x ;; z" := (bind x (λ _, z))
  (at level 100, z at level 200, only parsing, right associativity) : vec_scope.
Local Open Scope vec_scope.

(** ** Raw memory, placement construction and the standard algorithms *)

Section memory.
Context {T W : Type} {E : Element T W}.
Local Abbreviation M := (M T W).

(** [operator new(bytes)]: a new block of [bytes] bytes, which is
    uninitialised memory for the objects that fit into it, or
    [std::bad_alloc].  A request for no bytes gets a block without room
    for any object. *)
Definition operator_new (bytes : N) : M ptr := λ σ,
  if new_succeeds bytes (world σ)
  then (Ok (Ptr (length (heap σ)) 0),
        set_heap (heap σ ++ [Some (replicate (slots_in bytes) None)]) σ)
  else (Throw bad_alloc, σ).

(** [operator delete(p)]: [p] must be null or the start of a block that was
    allocated and not freed yet; anything else is undefined behaviour. *)
Definition operator_delete (p : ptr) : M unit := λ σ,
  match p with
  | nullptr => (Ok tt, σ)
  | Ptr b 0 =>
      match heap σ !! b with
      | Some (Some _) => (Ok tt, set_heap (<[b := None]> (heap σ)) σ)
      | _ => (Undefined, σ)
      end
  | Ptr _ (S _) => (Undefined, σ)
  end.

(** Reading through [p] needs a live object in the slot. *)
Definition load (p : ptr) : M T := λ σ,
  match p with
  | nullptr => (Undefined, σ)
  | Ptr b i =>
      match heap σ !! b with
      | Some (Some cs) =>
          match cs !! i with
          | Some (Some x) => (Ok x, σ)
          | _ => (Undefined, σ)
          end
      | _ => (Undefined, σ)
      end
  end.

(** Writing a slot needs the slot to exist. *)
Definition store (p : ptr) (s : option T) : M unit := λ σ,
  match p with
  | nullptr => (Undefined, σ)
  | Ptr b i =>
      match heap σ !! b with
      | Some (Some cs) =>
          if decide (i < length cs)
          then (Ok tt, set_heap (<[b := Some (<[i := s]> cs)]> (heap σ)) σ)
          else (Undefined, σ)
      | _ => (Undefined, σ)
      end
  end.

(** One call of an operation of [T]. *)
Definition run_elem {A} (op : W → W * option A) : M A := λ σ,
  match op (world σ) with
  | (w, Some a) => (Ok a, set_world w σ)
  | (w, None) => (Throw element_error, set_world w σ)
  end.

(** [m], and on an exception [cleanup] before the exception goes on. *)
Definition on_unwind {A} (m : M A) (cleanup : M unit) : M A :=
  try_catch m (λ e, cleanup;; throw e).

(** [new (p) T(...)] where [ctor] is the constructor call. *)
Definition construct_at (p : ptr) (ctor : W → W * option T) : M unit :=
  x ← run_elem ctor; store p (Some x).

(** [new (p) T(x)] for the object [x] at [src] *)
Definition copy_construct_at (p src : ptr) : M unit :=
  x ← load src; construct_at p (copy_construct x).

(** [new (p) T(std::move(x))] for the object [x] at [src] *)
Definition move_construct_at (p src : ptr) : M unit :=
  x ← load src;
  yr ← run_elem (move_construct x);
  store src (Some yr.2);;
  store p (Some yr.1).

(** copy assignment of the object at [src] to the object at [dst] *)
Definition copy_assign_at (dst src : ptr) : M unit :=
  s ← load src;
  d ← load dst;
  d' ← run_elem (copy_assign d s);
  store dst (Some d').

(** move assignment of the object at [src] to the object at [dst] *)
Definition move_assign_at (dst src : ptr) : M unit :=
  s ← load src;
  d ← load dst;
  ds ← run_elem (move_assign d s);
  store src (Some ds.2);;
  store dst (Some ds.1).

(** move assignment of a local object [x] to the object at [dst]; returns what is left
    of [x]. *)
Definition move_assign_from (dst : ptr) (x : T) : M T :=
  d ← load dst;
  ds ← run_elem (move_assign d x);
  store dst (Some ds.1);;
  ret ds.2.

(** [std::destroy_at(p)] *)
Definition destroy_at (p : ptr) : M unit :=
  x ← load p;
  (λ σ, (Ok tt, log_destroyed x σ));;
  store p None.

(** A local [T] whose scope is [body]; [body] returns the state the local
    is in at the end.  The destructor runs when the scope is left, also by
    an exception. *)
Definition with_local (x : T) (body : M T) : M unit := λ σ,
  match body σ with
  | (Ok x', σ') => (Ok tt, log_destroyed x' σ')
  | (Throw e, σ') => (Throw e, log_destroyed x σ')
  | (Undefined, σ') => (Undefined, σ')
  end.

(** [a - b] for pointers into one array, where the code needs [b <= a]. *)
Definition ptr_diff (a b : ptr) : M nat :=
  match a, b with
  | nullptr, nullptr => ret 0
  | Ptr ba i, Ptr bb j =>
      if decide (ba = bb ∧ j ≤ i) then ret (i - j) else undefined
  | _, _ => undefined
  end.

(** [a - b] on [size_t] where the result is used as a count or an index:
    a wrapped result would address memory outside every block. *)
Definition size_sub (a b : nat) : M nat :=
  if decide (b ≤ a) then ret (a - b) else undefined.

(** [for (i = start; n > 0; ++i, --n) body(i);]: the loop of the standard
    algorithms, with the step counted from [start]. *)
Fixpoint for_loop (body : nat → M unit) (start n : nat) : M unit :=
  match n with
  | 0 => ret tt
  | S k => body start;; for_loop body (S start) k
  end.

(** [std::destroy_n(first, n)] *)
Definition destroy_n (first : ptr) (n : nat) : M unit :=
  for_loop (λ i, destroy_at (ptr_add first i)) 0 n.

(** [std::uninitialized_value_construct_n(first, n)]: on an exception the
    objects constructed so far are destroyed. *)
Definition uninitialized_value_construct_n (first : ptr) (n : nat) : M unit :=
  for_loop (λ i, on_unwind (construct_at (ptr_add first i) value_construct)
                           (destroy_n first i)) 0 n.

(** [std::uninitialized_copy_n(first, n, d_first)] *)
Definition uninitialized_copy_n (first : ptr) (n : nat) (d_first : ptr)
    : M unit :=
  for_loop (λ i, on_unwind (copy_construct_at (ptr_add d_first i)
                                              (ptr_add first i))
                           (destroy_n d_first i)) 0 n.

(** [std::uninitialized_move_n(first, n, d_first)] *)
Definition uninitialized_move_n (first : ptr) (n : nat) (d_first : ptr)
    : M unit :=
  for_loop (λ i, on_unwind (move_construct_at (ptr_add d_first i)
                                              (ptr_add first i))
                           (destroy_n d_first i)) 0 n.

(** [std::copy(first, last, d_first)] *)
Definition std_copy (first last d_first : ptr) : M unit :=
  n ← ptr_diff last first;
  for_loop (λ i, copy_assign_at (ptr_add d_first i) (ptr_add first i)) 0 n.

(** [std::move(first, last, d_first)] *)
Definition std_move (first last d_first : ptr) : M unit :=
  n ← ptr_diff last first;
  for_loop (λ i, move_assign_at (ptr_add d_first i) (ptr_add first i)) 0 n.

(** [std::move_backward(first, last, d_last)]: each step takes [last] and
    [d_last] one back and move-assigns the object at [last] to the object
    at [d_last], until [last] meets [first]. *)
Definition std_move_backward (first last d_last : ptr) : M unit :=
  n ← ptr_diff last first;
  for_loop (λ j, move_assign_at (ptr_sub d_last (S j)) (ptr_sub last (S j)))
           0 n.

End memory.

(** ** RawMemory<T> *)

Section RawMemory_methods.
Context {T W : Type} {E : Element T W}.
Local Abbreviation M := (M T W).

(** [RawMemory::Allocate]: the argument of [operator new] is the product
    [n * sizeof(T)] in [size_t]. *)
Definition Allocate (n : nat) : M ptr :=
  if decide (n ≠ 0) then operator_new (bytes_of n) else ret nullptr.

(** [RawMemory::Deallocate] *)
Definition Deallocate (buf : ptr) : M unit := operator_delete buf.

(** [RawMemory() = default] *)
Definition RawMemory_default : RawMemory := mkRawMemory nullptr 0.

(** [explicit RawMemory(size_t capacity)] *)
Definition RawMemory_ctor (capacity : nat) : M RawMemory :=
  buf ← Allocate capacity; ret (mkRawMemory buf capacity).

(** [RawMemory(RawMemory&& other)]: the new object and what is left of
    [other]. *)
Definition RawMemory_move (other : RawMemory) : RawMemory * RawMemory :=
  (mkRawMemory (buffer_ other) (capacity_ other), mkRawMemory nullptr 0).

(** [~RawMemory()] *)
Definition RawMemory_dtor (r : RawMemory) : M unit := Deallocate (buffer_ r).

(** [RawMemory::Swap]: the new states of the object and of [other]. *)
Definition RawMemory_Swap (r other : RawMemory) : RawMemory * RawMemory :=
  (mkRawMemory (buffer_ other) (capacity_ other),
   mkRawMemory (buffer_ r) (capacity_ r)).

(** [RawMemory::GetAddress] *)
Definition GetAddress (r : RawMemory) : ptr := buffer_ r.

(** [RawMemory::Capacity] *)
Definition RawMemory_Capacity (r : RawMemory) : nat := capacity_ r.

(** [RawMemory::operator+] and the address taken by [RawMemory::operator[]];
    their assertions are compiled out of a release build. *)
Definition RawMemory_plus (r : RawMemory) (offset : nat) : ptr :=
  ptr_add (buffer_ r) offset.

(** A local [RawMemory<T> new_data(capacity)] whose scope is [body]; [body]
    returns the state the local is in at the end.  The local is changed by
    the final [Swap] only, which does not throw, so an exception from [body]
    finds it as it was constructed. *)
Definition with_new_data (capacity : nat) (body : RawMemory → M RawMemory)
    : M unit :=
  new_data ← RawMemory_ctor capacity;
  new_data' ← on_unwind (body new_data) (RawMemory_dtor new_data);
  RawMemory_dtor new_data'.

End RawMemory_methods.

(** ** Vector<T> *)

Section Vector_methods.
Context {T W : Type} {E : Element T W}.
Local Abbreviation M := (M T W).

(** The object at address [this]; there must be one. *)
Definition get_obj (this : nat) : M Vector := λ σ,
  match objs σ !! this with
  | Some v => (Ok v, σ)
  | None => (Undefined, σ)
  end.

Definition put_obj (this : nat) (v : Vector) : M unit := λ σ,
  (Ok tt, set_objs (<[this := v]> (objs σ)) σ).

Definition del_obj (this : nat) : M unit := λ σ,
  (Ok tt, set_objs (delete this (objs σ)) σ).

Definition set_size (this : nat) (n : nat) : M unit :=
  v ← get_obj this; put_obj this (mkVector (data_ v) n).

(** [data_.Swap(new_data)]: returns the new state of [new_data]. *)
Definition swap_data (this : nat) (new_data : RawMemory) : M RawMemory :=
  v ← get_obj this;
  put_obj this (mkVector (RawMemory_Swap (data_ v) new_data).1 (size_ v));;
  ret (RawMemory_Swap (data_ v) new_data).2.

(** [begin()], [end()] (and their const versions) *)
Definition begin_ (v : Vector) : ptr := GetAddress (data_ v).
Definition end_ (v : Vector) : ptr := ptr_add (GetAddress (data_ v)) (size_ v).

(** [Vector() = default] *)
Definition Vector_default (this : nat) : M unit :=
  put_obj this (mkVector RawMemory_default 0).

(** [explicit Vector(size_t size)]: when the body throws, the member
    [data_] is destroyed and no object comes into being. *)
Definition Vector_ctor_size (this : nat) (size : nat) : M unit :=
  data ← RawMemory_ctor size;
  on_unwind (uninitialized_value_construct_n (GetAddress data) size)
            (RawMemory_dtor data);;
  put_obj this (mkVector data size).

(** [Vector(const Vector& other)] *)
Definition Vector_copy_ctor (this other : nat) : M unit :=
  o ← get_obj other;
  data ← RawMemory_ctor (size_ o);
  on_unwind (uninitialized_copy_n (GetAddress (data_ o)) (size_ o)
                                  (GetAddress data))
            (RawMemory_dtor data);;
  put_obj this (mkVector data (size_ o)).

(** [Vector(Vector&& other)] *)
Definition Vector_move_ctor (this other : nat) : M unit :=
  o ← get_obj other;
  put_obj other (mkVector (RawMemory_move (data_ o)).2 0);;
  put_obj this (mkVector (RawMemory_move (data_ o)).1 (size_ o)).

(** [~Vector()] *)
Definition Vector_dtor (this : nat) : M unit :=
  v ← get_obj this;
  destroy_n (GetAddress (data_ v)) (size_ v);;
  RawMemory_dtor (data_ v);;
  del_obj this.

(** A local [Vector] constructed by [ctor] whose scope is [body]. *)
Definition with_local_Vector {A} (ctor : nat → M unit) (body : nat → M A)
    : M A := λ σ,
  let loc := fresh (dom (objs σ)) in
  (ctor loc;;
   a ← on_unwind (body loc) (Vector_dtor loc);
   Vector_dtor loc;;
   ret a) σ.

(** [Vector::Size], [Vector::Capacity] *)
Definition Size (this : nat) : M nat := v ← get_obj this; ret (size_ v).
Definition Capacity (this : nat) : M nat :=
  v ← get_obj this; ret (RawMemory_Capacity (data_ v)).

(** [Vector::Swap] *)
Definition Swap (this other : nat) : M unit :=
  if decide (this ≠ other) then
    v ← get_obj this;
    o ← get_obj other;
    put_obj this (mkVector (RawMemory_Swap (data_ v) (data_ o)).1 (size_ o));;
    put_obj other (mkVector (RawMemory_Swap (data_ v) (data_ o)).2 (size_ v))
  else ret tt.

(** [Vector::CopyVector] *)
Definition CopyVector (this other : nat) : M unit :=
  v ← get_obj this;
  o ← get_obj other;
  std_copy (GetAddress (data_ o))
           (ptr_add (GetAddress (data_ o)) (size_ v `min` size_ o))
           (GetAddress (data_ v));;
  (if decide (size_ v ≤ size_ o) then
     uninitialized_copy_n (ptr_add (GetAddress (data_ o)) (size_ v))
                          (size_ o - size_ v)
                          (ptr_add (GetAddress (data_ v)) (size_ v))
   else
     destroy_n (ptr_add (GetAddress (data_ v)) (size_ o))
               (size_ v - size_ o));;
  set_size this (size_ o).

(** [Vector& operator=(const Vector& other)] *)
Definition copy_assignment (this other : nat) : M unit :=
  if decide (this ≠ other) then
    v ← get_obj this;
    o ← get_obj other;
    if decide (size_ o ≤ RawMemory_Capacity (data_ v)) then
      CopyVector this other
    else
      with_local_Vector (λ other_copy, Vector_copy_ctor other_copy other)
                        (λ other_copy, Swap this other_copy)
  else ret tt.

(** [Vector& operator=(Vector&& other)] *)
Definition move_assignment (this other : nat) : M unit :=
  if decide (this ≠ other) then Swap this other else ret tt.

(** The relocation of [n] objects that [Reserve], [PushBack] and [Emplace]
    choose by [if constexpr]. *)
Definition relocate_n (first : ptr) (n : nat) (d_first : ptr) : M unit :=
  if is_nothrow_move_constructible || negb is_copy_constructible
  then uninitialized_move_n first n d_first
  else uninitialized_copy_n first n d_first.

(** [Vector::Reserve] *)
Definition Reserve (this : nat) (new_capacity : nat) : M unit :=
  v ← get_obj this;
  if decide (new_capacity ≤ RawMemory_Capacity (data_ v)) then ret tt
  else
    with_new_data new_capacity (λ new_data,
      relocate_n (GetAddress (data_ v)) (size_ v) (GetAddress new_data);;
      destroy_n (GetAddress (data_ v)) (size_ v);;
      swap_data this new_data).

(** [Vector::Resize] *)
Definition Resize (this : nat) (new_size : nat) : M unit :=
  Reserve this new_size;;
  v ← get_obj this;
  (if decide (size_ v < new_size) then
     uninitialized_value_construct_n
       (ptr_add (GetAddress (data_ v)) (size_ v)) (new_size - size_ v)
   else
     destroy_n (ptr_add (GetAddress (data_ v)) new_size) (size_ v - new_size));;
  set_size this new_size.

(** [Vector::PushBack]; [ctor] is the call [T(std::forward<Obj>(obj))]. *)
Definition PushBack (this : nat) (ctor : W → W * option T) : M unit :=
  v ← get_obj this;
  (if decide (RawMemory_Capacity (data_ v) ≤ size_ v) then
     with_new_data (if decide (size_ v = 0) then 1 else size_ v * 2)
       (λ new_data,
         construct_at (ptr_add (GetAddress new_data) (size_ v)) ctor;;
         relocate_n (GetAddress (data_ v)) (size_ v) (GetAddress new_data);;
         destroy_n (GetAddress (data_ v)) (size_ v);;
         swap_data this new_data)
   else
     construct_at (ptr_add (GetAddress (data_ v)) (size_ v)) ctor);;
  set_size this (S (size_ v)).

(** [Vector::PopBack] *)
Definition PopBack (this : nat) : M unit :=
  v ← get_obj this;
  if decide (0 < size_ v) then
    destroy_at (ptr_sub (ptr_add (GetAddress (data_ v)) (size_ v)) 1);;
    set_size this (size_ v - 1)
  else ret tt.

(** [Vector::Emplace]; [ctor] is the call [T(std::forward<Args>(args)...)].
    The result is the iterator [begin() + position]. *)
Definition Emplace (this : nat) (pos : ptr) (ctor : W → W * option T)
    : M ptr :=
  v ← get_obj this;
  position ← ptr_diff pos (begin_ v);
  (if decide (size_ v < RawMemory_Capacity (data_ v)) then
     try_catch
       (if decide (pos = end_ v) then
          construct_at (end_ v) ctor
        else
          new_item ← run_elem ctor;
          with_local new_item (
            last ← size_sub (size_ v) 1;
            move_construct_at (end_ v) (RawMemory_plus (data_ v) last);;
            std_move_backward (ptr_add (begin_ v) position)
                              (ptr_sub (end_ v) 1) (end_ v);;
            move_assign_from (ptr_add (begin_ v) position) new_item))
       (λ e, operator_delete (end_ v);; throw e)
   else
     with_new_data (if decide (size_ v = 0) then 1 else size_ v * 2)
       (λ new_data,
         construct_at (ptr_add (GetAddress new_data) position) ctor;;
         relocate_n (begin_ v) position (GetAddress new_data);;
         rest ← size_sub (size_ v) position;
         relocate_n (ptr_add (begin_ v) position) rest
                    (ptr_add (ptr_add (GetAddress new_data) position) 1);;
         destroy_n (GetAddress (data_ v)) (size_ v);;
         swap_data this new_data));;
  set_size this (S (size_ v));;
  v' ← get_obj this;
  ret (ptr_add (begin_ v') position).

(** [Vector::EmplaceBack]: the address of the new element. *)
Definition EmplaceBack (this : nat) (ctor : W → W * option T) : M ptr :=
  v ← get_obj this; Emplace this (end_ v) ctor.

(** [Vector::Insert(const_iterator, const T&)] *)
Definition Insert (this : nat) (pos : ptr) (value : T) : M ptr :=
  Emplace this pos (copy_construct value).

(** [Vector::Insert(const_iterator, T&&)]; what is left of [value] stays
    with the caller. *)
Definition Insert_move (this : nat) (pos : ptr) (value : T) : M ptr :=
  Emplace this pos (λ w, ((move_construct value w).1,
                          fst <$> (move_construct value w).2)).

(** [Vector::Erase] *)
Definition Erase (this : nat) (pos : ptr) : M ptr :=
  v ← get_obj this;
  position ← ptr_diff pos (begin_ v);
  std_move (ptr_add (ptr_add (begin_ v) position) 1) (end_ v)
           (ptr_add (begin_ v) position);;
  destroy_at (ptr_sub (end_ v) 1);;
  set_size this (size_ v - 1);;
  v' ← get_obj this;
  ret (ptr_add (begin_ v') position).

(** [Vector::operator[]]: the address of element [index]; the assertion
    [index < size_] is compiled out of a release build. *)
Definition at_ (this : nat) (index : nat) : M ptr :=
  v ← get_obj this; ret (RawMemory_plus (data_ v) index).

End Vector_methods.

(** ** An element type to run the model on

    Objects are numbers, a moved-from object is [0], and the world is the
    number of operations that still succeed: every operation that can throw
    uses one up and throws when none is left.  With [nothrow] the move
    constructor never throws and the type is nothrow-move-constructible.
    An object takes 4 bytes, [size_t] has 64 bits, and [operator new] gives
    up to 256 bytes, the room of 64 objects, at a time. *)

Definition tick {A} (a : A) (w : nat) : nat * option A :=
  match w with
  | 0 => (0, None)
  | S k => (k, Some a)
  end.

Definition Obj (nothrow : bool) : Element nat nat := {|
  value_construct := tick 0;
  copy_construct x := tick x;
  move_construct x := if nothrow then (λ w, (w, Some (x, 0))) else tick (x, 0);
  copy_assign d s := tick s;
  move_assign d s := tick (s, 0);
  is_nothrow_move_constructible := nothrow;
  is_copy_constructible := true;
  sizeof_T := 4;
  size_t_bits := Some 64%N;
  new_succeeds bytes w := bool_decide (bytes ≤ 256)%N;
|}.

(** The same objects with operations that never throw and leave the
    world alone, on the machine whose memory does not run out. *)
Definition Plain : Element nat nat := {|
  value_construct w := (w, Some 0);
  copy_construct x w := (w, Some x);
  move_construct x w := (w, Some (x, 0));
  copy_assign d s w := (w, Some s);
  move_assign d s w := (w, Some (s, 0));
  is_nothrow_move_constructible := true;
  is_copy_constructible := true;
  sizeof_T := 4;
  size_t_bits := None;
  new_succeeds bytes w := true;
|}.

(** The empty state with [w] operations left. *)
Definition init (w : nat) : state nat nat := mkState [] ∅ w [].

(** One vector, at address 7: its storage is block 0 with the slots
    [cells], of which the first [size] are its elements; [w] operations
    are left. *)
Definition one_vector (cells : list (option nat)) (size w : nat)
    : state nat nat :=
  mkState [Some cells]
          {[7 := mkVector (mkRawMemory (Ptr 0 0) (length cells)) size]}
          w [].

(** Two vectors, at addresses 7 and 8, with the blocks 0 and 1. *)
Definition two_vectors (cells7 : list (option nat)) (size7 : nat)
    (cells8 : list (option nat)) (size8 w : nat) : state nat nat :=
  mkState [Some cells7; Some cells8]
          (<[7 := mkVector (mkRawMemory (Ptr 0 0) (length cells7)) size7]>
             {[8 := mkVector (mkRawMemory (Ptr 1 0) (length cells8)) size8]})
          w [].

(** ** What a vector holds *)

Section representation.
Context {T W : Type} {E : Element T W}.
Local Abbreviation M := (M T W).
Implicit Types (σ : state T W) (v o : Vector) (l : list T) (p : ptr).

(** A block of [cap] slots whose first [length l] slots hold the objects
    [l] and whose other slots are uninitialised. *)
Definition cells_of (l : list T) (cap : nat) : list (option T) :=
  (Some <$> l) ++ replicate (cap - length l) None.

(** The object [v] holds the elements [l]: [size_] is their number, it does
    not exceed the capacity, and the storage of [v] is a block of
    [capacity_] slots, of which exactly the slots [[0, size_)] are live and
    hold [l].  A vector of capacity 0 may have no block at all. *)
Definition owns (σ : state T W) (v : Vector) (l : list T) : Prop :=
  size_ v = length l ∧
  length l ≤ capacity_ (data_ v) ∧
  match buffer_ (data_ v) with
  | nullptr => capacity_ (data_ v) = 0
  | Ptr b i =>
      i = 0 ∧ heap σ !! b = Some (Some (cells_of l (capacity_ (data_ v))))
  end.

(** The invariant of the vector at address [this]. *)
Definition Vector_invariant (σ : state T W) (this : nat) : Prop :=
  ∃ v l, objs σ !! this = Some v ∧ owns σ v l.

(** Two objects do not share a block. *)
Definition separate (v o : Vector) : Prop :=
  ∀ b i b' i', buffer_ (data_ v) = Ptr b i → buffer_ (data_ o) = Ptr b' i' →
               b ≠ b'.

(** [frame B σ σ'] says that from [σ] to [σ'] no object of the store has
    changed, no block has disappeared from the heap, and every block that
    is not in [B] is as it was. *)
Definition frame (B : nat → Prop) σ σ' : Prop :=
  objs σ' = objs σ ∧
  length (heap σ) ≤ length (heap σ') ∧
  ∀ b, ¬ B b → b < length (heap σ) → heap σ' !! b = heap σ !! b.

(** Every run of [m], whatever its outcome, is framed by [B]. *)
Definition mem_only {A} (B : nat → Prop) (m : M A) : Prop :=
  ∀ σ r σ', m σ = (r, σ') → frame B σ σ'.

(** The block [p] points into is in [B]. *)
Definition in_blocks (B : nat → Prop) p : Prop :=
  match p with
  | nullptr => True
  | Ptr b _ => B b
  end.

(** The objects a value-initialisation can give. *)
Definition value_initialized (x : T) : Prop :=
  ∃ w w', value_construct w = (w', Some x).

(** The list with [x] inserted at index [k]. *)
Definition inserted (k : nat) (x : T) l : list T := take k l ++ x :: drop k l.

(** The objects a constructor call can give. *)
Definition constructed_by (ctor : W → W * option T) (x : T) : Prop :=
  ∃ w w', ctor w = (w', Some x).

(** The objects [xs] are live at [first] and onwards, in a block other
    than [bd]; a null [first] has no objects. *)
Definition source_of σ (first : ptr) (xs : list T) (bd : nat) : Prop :=
  match first with
  | nullptr => xs = []
  | Ptr bs so =>
      bs ≠ bd ∧ ∃ cs, heap σ !! bs = Some (Some cs) ∧
        ∀ i x, xs !! i = Some x → cs !! (so + i) = Some (Some x)
  end.

(** What a successful relocation step from [Ptr bs (so + i)] to
    [Ptr bd (dof + i)] does, be it a copy or a move. *)
Definition relocation_step bs so bd dof (step : nat → M unit) : Prop :=
  ∀ i σ σ' cd cs,
    heap σ !! bd = Some (Some cd) →
    heap σ !! bs = Some (Some cs) →
    step i σ = (Ok tt, σ') →
    ∃ x cs', cs !! (so + i) = Some (Some x) ∧ dof + i < length cd ∧
      heap σ' !! bd = Some (Some (<[dof + i := Some x]> cd)) ∧
      heap σ' !! bs = Some (Some cs') ∧ length cs' = length cs ∧
      (∀ k, k ≠ so + i → cs' !! k = cs !! k) ∧
      objs σ' = objs σ ∧ destroyed σ' = destroyed σ ∧
      length (heap σ') = length (heap σ).

(** Slot [k] of a block holds a live object. *)
Definition live (cs : list (option T)) (k : nat) : Prop :=
  ∃ x, cs !! k = Some (Some x).

(** [p] points to a slot of an allocated block. *)
Definition has_slot σ p : Prop :=
  match p with
  | nullptr => False
  | Ptr b i => ∃ cs, heap σ !! b = Some (Some cs) ∧ i < length cs
  end.

(** [p] points to a live object. *)
Definition is_live σ p : Prop :=
  match p with
  | nullptr => False
  | Ptr b i => ∃ cs, heap σ !! b = Some (Some cs) ∧ live cs i
  end.

(** From [σ] to [σ'] the objects of the store are the same and every
    block is still there with its slots. *)
Definition keeps_blocks σ σ' : Prop :=
  objs σ' = objs σ ∧
  ∀ b cs, heap σ !! b = Some (Some cs) →
    ∃ cs', heap σ' !! b = Some (Some cs') ∧ length cs' = length cs.

(** As [keeps_blocks], and every live slot is still live. *)
Definition keeps_live σ σ' : Prop :=
  objs σ' = objs σ ∧
  ∀ b cs, heap σ !! b = Some (Some cs) →
    ∃ cs', heap σ' !! b = Some (Some cs') ∧ length cs' = length cs ∧
           ∀ k, live cs k → live cs' k.

(** A computation returns from [σ]: it neither throws nor runs into
    undefined behaviour. *)
Definition returns {A} (m : M A) σ : Prop := ∃ a σ', m σ = (Ok a, σ').

(** A constructor call that succeeds whenever it is made. *)
Definition never_throws (ctor : W → W * option T) : Prop :=
  ∀ w, is_Some (ctor w).2.

(** A computation that does not throw, whatever the state. *)
Definition no_throw {A} (m : M A) : Prop := ∀ σ e σ', m σ ≠ (Throw e, σ').

(** [within B σ σ'] says that from [σ] to [σ'] no object of the store has
    changed, the heap has the same number of blocks, every block that is
    not in [B] is as it was, and every allocated block is still
    allocated. *)
Definition within (B : nat → Prop) (σ σ' : state T W) : Prop :=
  objs σ' = objs σ ∧
  length (heap σ') = length (heap σ) ∧
  (∀ b, ¬ B b → heap σ' !! b = heap σ !! b) ∧
  (∀ b cs, heap σ !! b = Some (Some cs) → ∃ cs', heap σ' !! b = Some (Some cs')).

(** Every run of [m], whatever its outcome, stays within [B]. *)
Definition stays_within {A} (B : nat → Prop) (m : M A) : Prop :=
  ∀ σ r σ', m σ = (r, σ') → within B σ σ'.

(** Every run of [m] that throws stays within [B]. *)
Definition throws_within {A} (B : nat → Prop) (m : M A) : Prop :=
  ∀ σ e σ', m σ = (Throw e, σ') → within B σ σ'.

(** The relocation that [Reserve], [PushBack] and [Emplace] choose is by
    copy, or by a move constructor that does not throw. *)
Definition relocation_safe : Prop :=
  is_nothrow_move_constructible || negb is_copy_constructible = true →
  ∀ x w, is_Some (move_construct x w).2.

(** The growth policy of [PushBack] and [Emplace]. *)
Definition grown (size : nat) : nat := if decide (size = 0) then 1 else size * 2.

End representation.

(** The element type keeps values: a copy or a move, when it succeeds,
    gives the target the state the source had. *)
Class Lawful (T W : Type) {E : Element T W} : Prop := {
  copy_construct_value x w w' y :
    copy_construct x w = (w', Some y) → y = x;
  move_construct_value x w w' y r :
    move_construct x w = (w', Some (y, r)) → y = x;
  copy_assign_value d s w w' d' :
    copy_assign d s w = (w', Some d') → d' = s;
  move_assign_value d s w w' d' s' :
    move_assign d s w = (w', Some (d', s')) → d' = s;
}.

(** An element type none of whose operations throws, with memory that
    does not run out: every request is served, and [size_t] holds the byte
    count of every number of elements. *)
Class Nothrow (T W : Type) {E : Element T W} : Prop := {
  value_construct_returns w : is_Some (value_construct w).2;
  copy_construct_returns x w : is_Some (copy_construct x w).2;
  move_construct_returns x w : is_Some (move_construct x w).2;
  copy_assign_returns d s w : is_Some (copy_assign d s w).2;
  move_assign_returns d s w : is_Some (move_assign d s w).2;
  can_allocate_always n w : can_allocate n w = true;
  size_t_unbounded : size_t_bits = None;
}.

(** [owns] of a given vector in a given state. *)
Ltac solve_owns := unfold owns; simpl; split_and!; (reflexivity || lia).

(** * Proofs *)

Section proofs.
Context {T W : Type} {E : Element T W}.
Local Abbreviation M := (M T W).
Local Abbreviation mem_only := (mem_only (T:=T) (W:=W)).
Local Abbreviation relocation_step := (relocation_step (T:=T) (W:=W)).
Implicit Types (σ : state T W) (v o : Vector) (l : list T) (p : ptr).

Lemma ptr_add_0 p : ptr_add p 0 = p.
Proof. destruct p; simpl; [done|]. by rewrite Nat.add_0_r. Qed.

Lemma ptr_add_add p a b : ptr_add (ptr_add p a) b = ptr_add p (a + b).
Proof. destruct p; simpl; [done|]. by rewrite Nat.add_assoc. Qed.

(** *** Inversion of the monad *)

Lemma bind_Ok {A B} (m : M A) (k : A → M B) σ b σ' :
  bind m k σ = (Ok b, σ') →
  ∃ a σ1, m σ = (Ok a, σ1) ∧ k a σ1 = (Ok b, σ').
Proof.
  unfold bind. destruct (m σ) as [[a|e|] σ1]; intros Hk; try done.
  by exists a, σ1.
Qed.

Lemma on_unwind_Ok {A} (m : M A) c σ a σ' :
  on_unwind m c σ = (Ok a, σ') → m σ = (Ok a, σ').
Proof.
  unfold on_unwind, try_catch, bind, throw.
  destruct (m σ) as [[a1|e|] σ1]; try done.
  by destruct (c σ1) as [[[]|e1|] σ2].
Qed.

Lemma run_elem_Ok {A} (op : W → W * option A) σ a σ' :
  run_elem op σ = (Ok a, σ') →
  ∃ w', op (world σ) = (w', Some a) ∧ σ' = set_world w' σ.
Proof.
  unfold run_elem. destruct (op (world σ)) as [w' [a'|]]; intros [= <- <-].
  by exists w'.
Qed.

Lemma load_Ok p σ x σ' :
  load p σ = (Ok x, σ') →
  σ' = σ ∧ ∃ b i cs, p = Ptr b i ∧ heap σ !! b = Some (Some cs) ∧
                     cs !! i = Some (Some x).
Proof.
  unfold load. destruct p as [|b i]; [done|].
  destruct (heap σ !! b) as [[cs|]|] eqn:Hb; try done.
  destruct (cs !! i) as [[y|]|] eqn:Hi; try done.
  intros [= <- <-]. split; [done|]. by exists b, i, cs.
Qed.

Lemma store_Ok p s σ σ' :
  store p s σ = (Ok tt, σ') →
  ∃ b i cs, p = Ptr b i ∧ heap σ !! b = Some (Some cs) ∧ i < length cs ∧
            σ' = set_heap (<[b := Some (<[i := s]> cs)]> (heap σ)) σ.
Proof.
  unfold store. destruct p as [|b i]; [done|].
  destruct (heap σ !! b) as [[cs|]|] eqn:Hb; try done.
  case_decide; [|done]. intros [= <-]. by exists b, i, cs.
Qed.

Lemma ptr_diff_add p k :
  (p = nullptr → k = 0) → (ptr_diff (ptr_add p k) p : M nat) = ret k.
Proof.
  destruct p as [|b i]; simpl; intros Hp.
  - by rewrite Hp.
  - rewrite decide_True by (split; [done|lia]). f_equal. lia.
Qed.

(** *** Loops *)

(** A successful loop establishes what each successful step preserves. *)
Lemma for_loop_Ok (I : nat → state T W → Prop) (body : nat → M unit) n :
  ∀ start σ σ',
  (∀ i s s', start ≤ i < start + n → I i s → body i s = (Ok tt, s') →
             I (S i) s') →
  I start σ →
  for_loop body start n σ = (Ok tt, σ') →
  I (start + n) σ'.
Proof.
  induction n as [|n IH]; intros start σ σ' Hstep HI Hrun; simpl in Hrun.
  - injection Hrun as <-. by rewrite Nat.add_0_r.
  - apply bind_Ok in Hrun as ([] & σ1 & H1 & H2).
    replace (start + S n) with (S start + n) by lia.
    eapply IH; [| |exact H2].
    + intros i s s' Hi. apply Hstep. lia.
    + eapply Hstep; [|exact HI|exact H1]. lia.
Qed.

(** Whatever the outcome, a loop preserves what every step preserves
    whatever its outcome. *)
Lemma for_loop_any (P : state T W → Prop) (body : nat → M unit) n :
  ∀ start σ r σ',
  (∀ i s r' s', P s → body i s = (r', s') → P s') →
  P σ →
  for_loop body start n σ = (r, σ') →
  P σ'.
Proof.
  induction n as [|n IH]; intros start σ r σ' Hstep HP Hrun; simpl in Hrun.
  - by injection Hrun as <- <-.
  - unfold bind in Hrun.
    destruct (body start σ) as [[[]|e|] σ1] eqn:H1.
    + eapply IH; [exact Hstep| |exact Hrun]. eapply Hstep; [exact HP|exact H1].
    + injection Hrun as <- <-. eapply Hstep; [exact HP|exact H1].
    + injection Hrun as <- <-. eapply Hstep; [exact HP|exact H1].
Qed.

(** *** Frame: which blocks a computation can change *)

Lemma frame_refl B σ : frame B σ σ.
Proof. by repeat split. Qed.

Lemma frame_trans B σ1 σ2 σ3 : frame B σ1 σ2 → frame B σ2 σ3 → frame B σ1 σ3.
Proof.
  intros (Ho1 & Hl1 & Hb1) (Ho2 & Hl2 & Hb2). repeat split.
  - congruence.
  - lia.
  - intros b HB Hlt. rewrite Hb2 by (done || lia). by apply Hb1.
Qed.

Lemma frame_mono (B B' : nat → Prop) σ σ' :
  (∀ b, B b → B' b) → frame B σ σ' → frame B' σ σ'.
Proof.
  intros HBB (Ho & Hl & Hb). repeat split; [done..|].
  intros b HB. apply Hb. naive_solver.
Qed.

Lemma mem_only_mono {A} (B B' : nat → Prop) (m : M A) :
  (∀ b, B b → B' b) → mem_only B m → mem_only B' m.
Proof. intros HBB Hm σ r σ' Hrun. eapply frame_mono; [done|]. by eapply Hm. Qed.

Lemma mem_only_ret {A} B (a : A) : mem_only B (ret a : M A).
Proof. intros σ r σ' [= <- <-]. apply frame_refl. Qed.

Lemma mem_only_throw {A} B e : mem_only B (throw e : M A).
Proof. intros σ r σ' [= <- <-]. apply frame_refl. Qed.

Lemma mem_only_undefined {A} B : mem_only B (undefined : M A).
Proof. intros σ r σ' [= <- <-]. apply frame_refl. Qed.

Lemma mem_only_bind {A C} B (m : M A) (k : A → M C) :
  mem_only B m → (∀ a, mem_only B (k a)) → mem_only B (bind m k).
Proof.
  intros Hm Hk σ r σ'. unfold bind.
  destruct (m σ) as [[a|e|] σ1] eqn:H1; intros Hrun.
  - eapply frame_trans; [by eapply Hm|by eapply Hk].
  - injection Hrun as <- <-. by eapply Hm.
  - injection Hrun as <- <-. by eapply Hm.
Qed.

Lemma mem_only_try_catch {A} B (m : M A) h :
  mem_only B m → (∀ e, mem_only B (h e)) → mem_only B (try_catch m h).
Proof.
  intros Hm Hh σ r σ'. unfold try_catch.
  destruct (m σ) as [[a|e|] σ1] eqn:H1; intros Hrun.
  - injection Hrun as <- <-. by eapply Hm.
  - eapply frame_trans; [by eapply Hm|by eapply Hh].
  - injection Hrun as <- <-. by eapply Hm.
Qed.

Lemma mem_only_on_unwind {A} B (m : M A) c :
  mem_only B m → mem_only B c → mem_only B (on_unwind m c).
Proof.
  intros Hm Hc. apply mem_only_try_catch; [done|].
  intros e. apply mem_only_bind; [done|]. intros _. apply mem_only_throw.
Qed.

Lemma mem_only_load B p : mem_only B (load p).
Proof.
  intros σ r σ'. unfold load. intros Hrun.
  assert (σ' = σ) as ->; [|apply frame_refl].
  repeat case_match; by simplify_eq.
Qed.

Lemma frame_set_block (B : nat → Prop) σ b c :
  B b → frame B σ (set_heap (<[b := c]> (heap σ)) σ).
Proof.
  intros HB. repeat split; simpl.
  - by rewrite length_insert.
  - intros b' HB' _. apply list_lookup_insert_ne. by intros ->.
Qed.

Lemma mem_only_store B p s : in_blocks B p → mem_only B (store p s).
Proof.
  intros HB σ r σ'. unfold store. intros Hrun.
  repeat case_match; simplify_eq; try apply frame_refl.
  by apply frame_set_block.
Qed.

Lemma mem_only_run_elem {A} B (op : W → W * option A) : mem_only B (run_elem op).
Proof.
  intros σ r σ'. unfold run_elem. intros Hrun.
  repeat case_match; simplify_eq; by repeat split.
Qed.

Lemma mem_only_operator_new B n : mem_only B (operator_new n).
Proof.
  intros σ r σ'. unfold operator_new. intros Hrun.
  case_match; simplify_eq; [|apply frame_refl].
  repeat split; simpl.
  - rewrite length_app. lia.
  - intros b _ Hb. by apply lookup_app_l.
Qed.

Lemma mem_only_operator_delete B p :
  in_blocks B p → mem_only B (operator_delete p).
Proof.
  intros HB σ r σ'. unfold operator_delete. intros Hrun.
  repeat case_match; simplify_eq; try apply frame_refl.
  by apply frame_set_block.
Qed.

Lemma mem_only_for_loop B (body : nat → M unit) n start :
  (∀ i, mem_only B (body i)) → mem_only B (for_loop body start n).
Proof.
  intros Hbody. revert start.
  induction n as [|n IH]; intros start; simpl.
  - apply mem_only_ret.
  - apply mem_only_bind; [done|]. intros _. apply IH.
Qed.

Lemma in_blocks_add B p k : in_blocks B p → in_blocks B (ptr_add p k).
Proof. by destruct p. Qed.

Lemma in_blocks_sub B p k : in_blocks B p → in_blocks B (ptr_sub p k).
Proof. by destruct p. Qed.

Lemma mem_only_destroy_at B p : in_blocks B p → mem_only B (destroy_at p).
Proof.
  intros HB. apply mem_only_bind; [apply mem_only_load|]. intros x.
  apply mem_only_bind; [|intros _; by apply mem_only_store].
  intros σ r σ' [= <- <-]. by repeat split.
Qed.

Lemma mem_only_destroy_n B p n : in_blocks B p → mem_only B (destroy_n p n).
Proof.
  intros HB. apply mem_only_for_loop. intros i.
  by apply mem_only_destroy_at, in_blocks_add.
Qed.

Lemma mem_only_construct_at B p ctor :
  in_blocks B p → mem_only B (construct_at p ctor).
Proof.
  intros HB. apply mem_only_bind; [apply mem_only_run_elem|].
  intros x. by apply mem_only_store.
Qed.

Lemma mem_only_copy_construct_at B p src :
  in_blocks B p → mem_only B (copy_construct_at p src).
Proof.
  intros HB. apply mem_only_bind; [apply mem_only_load|].
  intros x. by apply mem_only_construct_at.
Qed.

Lemma mem_only_move_construct_at B p src :
  in_blocks B p → in_blocks B src → mem_only B (move_construct_at p src).
Proof.
  intros HB HB'. apply mem_only_bind; [apply mem_only_load|]. intros x.
  apply mem_only_bind; [apply mem_only_run_elem|]. intros yr.
  apply mem_only_bind; [by apply mem_only_store|]. intros _.
  by apply mem_only_store.
Qed.

Lemma mem_only_uninitialized_copy_n B first n d_first :
  in_blocks B d_first → mem_only B (uninitialized_copy_n first n d_first).
Proof.
  intros HB. apply mem_only_for_loop. intros i. apply mem_only_on_unwind.
  - by apply mem_only_copy_construct_at, in_blocks_add.
  - by apply mem_only_destroy_n.
Qed.

Lemma mem_only_uninitialized_value_construct_n B first n :
  in_blocks B first → mem_only B (uninitialized_value_construct_n first n).
Proof.
  intros HB. apply mem_only_for_loop. intros i. apply mem_only_on_unwind.
  - by apply mem_only_construct_at, in_blocks_add.
  - by apply mem_only_destroy_n.
Qed.

(** *** Lists of slots *)

Lemma insert_fill {A} (pre xs suf : list A) y x k :
  k = length pre + length xs →
  <[k := x]> (pre ++ xs ++ y :: suf) = pre ++ (xs ++ [x]) ++ suf.
Proof.
  intros ->. rewrite insert_app_r. f_equal.
  rewrite insert_app_r_alt by lia. rewrite Nat.sub_diag. simpl.
  by rewrite <-app_assoc.
Qed.

Lemma cells_of_length l cap : length l ≤ cap → length (cells_of l cap) = cap.
Proof.
  intros Hl. unfold cells_of.
  rewrite length_app, length_fmap, length_replicate. lia.
Qed.

Lemma cells_of_lookup_lt l cap k x :
  l !! k = Some x → cells_of l cap !! k = Some (Some x).
Proof.
  intros Hk. unfold cells_of.
  rewrite lookup_app_l by (rewrite length_fmap; by eapply lookup_lt_Some).
  by rewrite list_lookup_fmap, Hk.
Qed.

Lemma cells_of_lookup_ge l cap k :
  length l ≤ k → k < cap → cells_of l cap !! k = Some None.
Proof.
  intros Hk Hc. unfold cells_of.
  rewrite lookup_app_r by (by rewrite length_fmap).
  rewrite length_fmap. apply lookup_replicate_2. lia.
Qed.

(** A block is [cells_of l cap] when it has [cap] slots, holds [l] in its
    first slots, and nothing after them. *)
Lemma cells_of_eq (cs : list (option T)) l cap :
  length cs = cap →
  length l ≤ cap →
  (∀ k x, l !! k = Some x → cs !! k = Some (Some x)) →
  (∀ k, length l ≤ k → k < cap → cs !! k = Some None) →
  cs = cells_of l cap.
Proof.
  intros Hlen Hl Hlive Hraw. apply list_eq. intros k.
  destruct (l !! k) as [x|] eqn:Hk.
  - rewrite (Hlive _ _ Hk). symmetry. by apply cells_of_lookup_lt.
  - apply lookup_ge_None in Hk. destruct (decide (k < cap)).
    + rewrite Hraw by done. symmetry. by apply cells_of_lookup_ge.
    + rewrite !(proj2 (lookup_ge_None _ _)); [done|..].
      * rewrite cells_of_length by done. lia.
      * lia.
Qed.

(** *** Heap steps *)

Lemma heap_insert_lookup (h : list (option (list (option T)))) b c c' :
  h !! b = Some c → <[b := c']> h !! b = Some c'.
Proof. intros Hb. apply list_lookup_insert_eq. by eapply lookup_lt_Some. Qed.

Lemma construct_at_Ok b i ctor σ σ' cs :
  heap σ !! b = Some (Some cs) →
  construct_at (Ptr b i) ctor σ = (Ok tt, σ') →
  ∃ x w', ctor (world σ) = (w', Some x) ∧ i < length cs ∧
    σ' = set_heap (<[b := Some (<[i := Some x]> cs)]> (heap σ))
                  (set_world w' σ).
Proof.
  intros Hb Hrun. unfold construct_at in Hrun.
  apply bind_Ok in Hrun as (x & σ1 & H1 & H2).
  apply run_elem_Ok in H1 as (w' & Hw & ->).
  apply store_Ok in H2 as (b' & i' & cs' & [= <- <-] & Hb' & Hi & ->).
  simpl in Hb'. rewrite Hb in Hb'. injection Hb' as <-.
  by exists x, w'.
Qed.

Lemma uninitialized_value_construct_n_Ok b off n σ σ' cs :
  heap σ !! b = Some (Some cs) →
  uninitialized_value_construct_n (Ptr b off) n σ = (Ok tt, σ') →
  ∃ xs, length xs = n ∧ Forall value_initialized xs ∧
    (n = 0 ∨ off + n ≤ length cs) ∧
    heap σ' !! b = Some (Some (take off cs ++ (Some <$> xs)
                                           ++ drop (off + n) cs)) ∧
    destroyed σ' = destroyed σ.
Proof.
  intros Hb Hrun. unfold uninitialized_value_construct_n in Hrun.
  apply (for_loop_Ok (λ i s, ∃ xs, length xs = i ∧
      Forall value_initialized xs ∧ (i = 0 ∨ off + i ≤ length cs) ∧
      heap s !! b = Some (Some (take off cs ++ (Some <$> xs)
                                            ++ drop (off + i) cs)) ∧
      destroyed s = destroyed σ)) in Hrun.
  - destruct Hrun as (xs & Hlen & Hvi & Hle & Hb' & Hd).
    by exists xs.
  - intros i s s' _ (xs & Hlen & Hvi & Hle & Hbs & Hd) Hstep.
    apply on_unwind_Ok in Hstep. simpl in Hstep.
    eapply construct_at_Ok in Hstep as (x & w' & Hx & Hi & ->); [|done].
    assert (off + i < length cs) as Hlt.
    { rewrite !length_app, length_fmap, length_take, length_drop in Hi. lia. }
    destruct (lookup_lt_is_Some_2 cs (off + i) Hlt) as [y Hy].
    exists (xs ++ [x]). simpl. rewrite length_app. simpl.
    repeat split; [lia| |right; lia| |done].
    + apply Forall_app. split; [done|]. apply Forall_singleton.
      by exists (world s), w'.
    + rewrite (heap_insert_lookup _ _ _ _ Hbs). do 2 f_equal.
      rewrite (drop_S _ _ _ Hy), fmap_app.
      replace (off + S i) with (S (off + i)) by lia.
      apply insert_fill. rewrite length_take, length_fmap. lia.
  - exists []. simpl. rewrite Nat.add_0_r, take_drop.
    repeat split; try done. by left.
Qed.

(** *** Calls that do nothing *)

(** C6.  [Reserve(k)] with [k <= Capacity()] returns at once and the
    whole state is what it was: the size, the capacity, every slot of every
    block, and the number of blocks allocated so far (no reallocation). *)
Theorem Reserve_noop σ this v k :
  objs σ !! this = Some v →
  k ≤ capacity_ (data_ v) →
  Reserve this k σ = (Ok tt, σ).
Proof.
  intros Hv Hk. unfold Reserve, bind, get_obj. rewrite Hv.
  unfold RawMemory_Capacity. by rewrite decide_True.
Qed.

(** C10.  [PopBack] on a vector of size 0 returns and the whole state is
    what it was: the size stays 0, no slot is touched, and the log of
    destroyed objects has no new entry. *)
Theorem PopBack_empty σ this v :
  objs σ !! this = Some v →
  size_ v = 0 →
  PopBack this σ = (Ok tt, σ).
Proof.
  intros Hv Hs. unfold PopBack, bind, get_obj. rewrite Hv, Hs.
  by rewrite decide_False by lia.
Qed.

(** *** Byte counts *)

Lemma to_size_t_le x : (to_size_t x ≤ x)%N.
Proof.
  unfold to_size_t. destruct size_t_bits; [apply N.Div0.mod_le|lia].
Qed.

(** A block never has more slots than were asked for. *)
Lemma room_le n : room n ≤ n.
Proof.
  unfold room, slots_in, bytes_of.
  assert (to_size_t (N.of_nat n * N.pos sizeof_T) / N.pos sizeof_T
          ≤ N.of_nat n)%N; [|lia].
  rewrite <- (N.div_mul (N.of_nat n) (N.pos sizeof_T)) at 2 by done.
  apply N.Div0.div_le_mono, to_size_t_le.
Qed.

(** It has as many when the byte count did not wrap. *)
Lemma fits_room n : fits n → room n = n.
Proof.
  unfold fits, room, slots_in. intros ->.
  rewrite N.div_mul by done. lia.
Qed.

Lemma room_fits n : room n = n → fits n.
Proof.
  unfold fits, room, slots_in. intros Hr.
  pose proof (to_size_t_le (N.of_nat n * N.pos sizeof_T)) as Hle.
  fold (bytes_of n) in Hle.
  pose proof (N.Div0.mul_div_le (bytes_of n) (N.pos sizeof_T)) as Hd.
  assert (bytes_of n / N.pos sizeof_T = N.of_nat n)%N as Hq by lia.
  rewrite Hq in Hd. lia.
Qed.

Lemma room_full n : n ≤ room n → room n = n.
Proof. pose proof (room_le n). lia. Qed.

(** A wrapped byte count of twice [size] objects has no room for more than
    [size] of them: a growth that has room for the element it adds did not
    wrap. *)
Lemma room_grown size :
  size < room (grown size) → room (grown size) = grown size.
Proof.
  intros Hlt. pose proof (room_le (grown size)) as Hle.
  unfold grown in *. case_decide as Hz; [lia|].
  apply fits_room. unfold fits, bytes_of, to_size_t.
  unfold room, slots_in, bytes_of, to_size_t in Hlt.
  destruct size_t_bits as [bits|]; [|done].
  set (s := N.pos sizeof_T) in *. set (m := (2 ^ bits)%N) in *.
  set (x := (N.of_nat (size * 2) * s)%N) in *.
  assert (0 < m)%N as Hm by (apply N.neq_0_lt_0, N.pow_nonzero; lia).
  pose proof (N.Div0.mul_div_le (x mod m) s) as Hd.
  assert ((N.of_nat size + 1) * s ≤ x mod m)%N as Hroom by nia.
  destruct (decide (x < m)%N) as [Hx|Hx]; [by apply N.mod_small|].
  pose proof (N.mod_upper_bound x m ltac:(lia)) as Hub.
  pose proof (N.Div0.div_mod x m) as Hdm.
  assert (1 ≤ x / m)%N as Hq by (apply N.div_le_lower_bound; lia).
  assert (x = 2 * (N.of_nat size * s))%N as Hx2 by (unfold x; lia).
  nia.
Qed.

(** *** Allocation *)

Lemma RawMemory_ctor_Ok n σ r σ' :
  RawMemory_ctor n σ = (Ok r, σ') →
  (n = 0 ∧ r = mkRawMemory nullptr 0 ∧ σ' = σ) ∨
  (n ≠ 0 ∧ can_allocate n (world σ) = true ∧
   r = mkRawMemory (Ptr (length (heap σ)) 0) n ∧
   σ' = set_heap (heap σ ++ [Some (replicate (room n) None)]) σ).
Proof.
  unfold RawMemory_ctor, Allocate, bind, ret. case_decide as Hn.
  - unfold operator_new. fold (can_allocate n (world σ)). fold (room n).
    destruct (can_allocate n (world σ)) eqn:Hc; [|done].
    intros [= <- <-]. by right.
  - intros [= <- <-]. left. split; [lia|]. split; [|done]. f_equal. lia.
Qed.

Lemma lookup_new_block (h : list (option (list (option T)))) c :
  (h ++ [c]) !! length h = Some c.
Proof. by rewrite lookup_app_r, Nat.sub_diag by lia. Qed.

(** What a successful [Vector(n)] has made. *)
Lemma Vector_ctor_size_spec σ this n σ' :
  Vector_ctor_size this n σ = (Ok tt, σ') →
  ∃ v xs, objs σ' !! this = Some v ∧
    size_ v = n ∧ capacity_ (data_ v) = n ∧
    length xs = n ∧ Forall value_initialized xs ∧
    owns σ' v xs.
Proof.
  intros Hrun. unfold Vector_ctor_size in Hrun.
  apply bind_Ok in Hrun as (data & σ1 & Hdata & Hrun).
  apply bind_Ok in Hrun as ([] & σ2 & Hfill & Hput).
  apply on_unwind_Ok in Hfill. injection Hput as <-.
  apply RawMemory_ctor_Ok in Hdata
    as [(-> & -> & ->)|(Hn & Hc & -> & ->)]; simpl in Hfill.
  - injection Hfill as <-.
    exists (mkVector (mkRawMemory nullptr 0) 0), []. simpl.
    rewrite lookup_insert_eq. by repeat split.
  - eapply uninitialized_value_construct_n_Ok in Hfill
      as (xs & Hlen & Hvi & Hroom & Hb & _); [|apply lookup_new_block].
    rewrite length_replicate in Hroom.
    rewrite (room_full n) in Hb by lia.
    exists (mkVector (mkRawMemory (Ptr (length (heap σ)) 0) n) n), xs.
    unfold owns. simpl.
    rewrite lookup_insert_eq. repeat split; try done; [lia|].
    rewrite Hb. do 2 f_equal. unfold cells_of. simpl.
    by rewrite drop_replicate, Hlen, Nat.sub_diag.
Qed.

Lemma insert_new_block (h : list (option (list (option T)))) c c' :
  <[length h := c']> (h ++ [c]) = h ++ [c'].
Proof. by rewrite insert_app_r_alt, Nat.sub_diag by lia. Qed.

Lemma owns_begin_add σ v l k :
  owns σ v l → k ≤ size_ v →
  (ptr_diff (ptr_add (begin_ v) k) (begin_ v) : M nat) = ret k.
Proof.
  intros (Hs & Hl & Hbuf) Hk. apply ptr_diff_add.
  unfold begin_, GetAddress. intros Hnull. rewrite Hnull in Hbuf. lia.
Qed.

Lemma owns_frame (B : nat → Prop) σ σ' v l :
  frame B σ σ' → ¬ in_blocks B (buffer_ (data_ v)) ∨ buffer_ (data_ v) = nullptr →
  owns σ v l → owns σ' v l.
Proof.
  intros (_ & _ & Hfr) HB (Hs & Hl & Hbuf). repeat split; [done..|].
  destruct (buffer_ (data_ v)) as [|b i]; [done|].
  destruct Hbuf as [-> Hb]. split; [done|].
  destruct HB as [HB|?]; [|done].
  rewrite Hfr; [done|done|]. by eapply lookup_lt_Some.
Qed.

(** A growing append whose element constructor throws: the temporary
    block is allocated and released again, and nothing else happens. *)
Lemma grow_ctor_throws σ v ctor w' k (rest : RawMemory → M RawMemory) :
  can_allocate (grown (size_ v)) (world σ) = true →
  ctor (world σ) = (w', None) →
  with_new_data (if decide (size_ v = 0) then 1 else size_ v * 2)
    (λ new_data,
      construct_at (ptr_add (GetAddress new_data) k) ctor;; rest new_data) σ
  = (Throw element_error,
     mkState (heap σ ++ [None]) (objs σ) w' (destroyed σ)).
Proof.
  intros Hc Hctor. unfold grown, can_allocate in Hc.
  unfold with_new_data, RawMemory_ctor, Allocate, bind, on_unwind, try_catch,
    construct_at, bind, run_elem, operator_new, ret, throw.
  rewrite decide_True by (case_decide; lia). rewrite Hc. simpl.
  rewrite Hctor. unfold RawMemory_dtor, Deallocate, operator_delete. simpl.
  rewrite lookup_new_block. unfold set_heap, set_world. simpl.
  by rewrite insert_new_block.
Qed.

(** C2.  A vector without spare capacity, and an element constructor that
    throws: [PushBack], [EmplaceBack] and [Emplace] at any position throw
    the element's exception, and afterwards the vector object (size,
    capacity, storage) and the block with its elements are what they were.
    All that happened is that the temporary block was allocated and
    released again, as the state after the call shows. *)
Theorem growing_append_ctor_throws σ this v l ctor w' :
  objs σ !! this = Some v →
  owns σ v l →
  size_ v = capacity_ (data_ v) →
  can_allocate (grown (size_ v)) (world σ) = true →
  ctor (world σ) = (w', None) →
  let σ' := mkState (heap σ ++ [None]) (objs σ) w' (destroyed σ) in
  PushBack this ctor σ = (Throw element_error, σ') ∧
  EmplaceBack this ctor σ = (Throw element_error, σ') ∧
  (∀ k, k ≤ size_ v →
     Emplace this (ptr_add (begin_ v) k) ctor σ = (Throw element_error, σ')) ∧
  objs σ' !! this = Some v ∧
  owns σ' v l.
Proof.
  intros Hv Hown Hfull Hc Hctor σ'.
  assert (∀ k, k ≤ size_ v →
     Emplace this (ptr_add (begin_ v) k) ctor σ = (Throw element_error, σ'))
    as HE.
  { intros k Hk. unfold Emplace, get_obj.
    unfold bind at 1. rewrite Hv. unfold bind at 1.
    rewrite (owns_begin_add _ _ _ _ Hown Hk). unfold ret at 1.
    unfold bind at 1. unfold RawMemory_Capacity.
    rewrite decide_False by lia.
    by rewrite (grow_ctor_throws _ _ _ w'). }
  split; [|split; [|split; [done|split; [done|]]]].
  - unfold PushBack, get_obj. unfold bind at 1. rewrite Hv.
    unfold bind at 1. unfold RawMemory_Capacity.
    rewrite decide_True by lia.
    by rewrite (grow_ctor_throws _ _ _ w').
  - unfold EmplaceBack, get_obj. unfold bind at 1. rewrite Hv.
    unfold end_. by apply HE.
  - destruct Hown as (Hs & Hl & Hbuf). repeat split; [done..|].
    destruct (buffer_ (data_ v)) as [|b i]; [done|].
    destruct Hbuf as [-> Hb]. split; [done|]. subst σ'. simpl.
    rewrite lookup_app_l; [done|]. by eapply lookup_lt_Some.
Qed.

(** *** Moves inside one block *)

Section lawful.
Context {L : Lawful T W}.

Lemma move_assign_at_Ok b i j σ σ' cs :
  heap σ !! b = Some (Some cs) →
  move_assign_at (Ptr b i) (Ptr b j) σ = (Ok tt, σ') →
  ∃ s d r, cs !! j = Some (Some s) ∧ cs !! i = Some (Some d) ∧
    heap σ' !! b = Some (Some (<[i := Some s]> (<[j := Some r]> cs))) ∧
    objs σ' = objs σ ∧ destroyed σ' = destroyed σ.
Proof.
  intros Hb Hrun. unfold move_assign_at in Hrun.
  apply bind_Ok in Hrun as (s & σ1 & H1 & Hrun).
  apply load_Ok in H1 as (-> & b1 & j1 & cs1 & [= <- <-] & Hb1 & Hj).
  rewrite Hb in Hb1. injection Hb1 as <-.
  apply bind_Ok in Hrun as (d & σ1 & H1 & Hrun).
  apply load_Ok in H1 as (-> & b1 & i1 & cs1 & [= <- <-] & Hb1 & Hi).
  rewrite Hb in Hb1. injection Hb1 as <-.
  apply bind_Ok in Hrun as ([d' r] & σ1 & H1 & Hrun).
  apply run_elem_Ok in H1 as (w' & Hw & ->).
  apply move_assign_value in Hw as ->.
  apply bind_Ok in Hrun as ([] & σ1 & H1 & H2).
  apply store_Ok in H1 as (b1 & j1 & cs1 & [= <- <-] & Hb1 & Hlt & ->).
  simpl in Hb1. rewrite Hb in Hb1. injection Hb1 as <-.
  apply store_Ok in H2 as (b1 & i1 & cs1 & [= <- <-] & Hb1 & Hlt' & ->).
  simpl in Hb1. rewrite (heap_insert_lookup _ _ _ _ Hb) in Hb1.
  injection Hb1 as <-. simpl.
  exists s, d, r. repeat split; try done.
  rewrite list_insert_insert_eq. by apply (heap_insert_lookup _ _ _ _ Hb).
Qed.

(** [std::move] to the left by one slot: after [m] steps the [m] objects
    after slot [q] sit one slot lower, slot [q + m] is live in a moved-from
    state, and all other slots are as before. *)
Lemma move_left_Ok b q q' m σ σ' cs0 :
  q' = S q →
  heap σ !! b = Some (Some cs0) →
  (∃ r, cs0 !! q = Some (Some r)) →
  for_loop (λ i, move_assign_at (Ptr b (q + i)) (Ptr b (q' + i))) 0 m σ
    = (Ok tt, σ') →
  ∃ cs, heap σ' !! b = Some (Some cs) ∧ length cs = length cs0 ∧
    (∀ k, k < q → cs !! k = cs0 !! k) ∧
    (∀ k, q ≤ k < q + m → cs !! k = cs0 !! (S k)) ∧
    (∃ r, cs !! (q + m) = Some (Some r)) ∧
    (∀ k, q + m < k → cs !! k = cs0 !! k) ∧
    objs σ' = objs σ ∧ destroyed σ' = destroyed σ.
Proof.
  intros -> Hb Hq Hrun.
  apply (for_loop_Ok (λ i s, ∃ cs,
    heap s !! b = Some (Some cs) ∧ length cs = length cs0 ∧
    (∀ k, k < q → cs !! k = cs0 !! k) ∧
    (∀ k, q ≤ k < q + i → cs !! k = cs0 !! (S k)) ∧
    (∃ r, cs !! (q + i) = Some (Some r)) ∧
    (∀ k, q + i < k → cs !! k = cs0 !! k) ∧
    objs s = objs σ ∧ destroyed s = destroyed σ)) in Hrun; [done|..].
  - intros i s s' _ (cs & Hbs & Hlen & Hlo & Hmid & Hr & Hhi & Ho & Hd) Hstep.
    simpl in Hstep.
    eapply move_assign_at_Ok in Hstep
      as (x & d & r & Hx & Hd' & Hbs' & Ho' & Hd''); [|done].
    eexists. split; [exact Hbs'|].
    assert (S (q + i) < length cs) by (by eapply lookup_lt_Some).
    rewrite !length_insert. repeat split; [done| | | | |congruence..].
    + intros k Hk. rewrite !list_lookup_insert_ne by lia. by apply Hlo.
    + intros k Hk. destruct (decide (k = q + i)) as [->|].
      * rewrite list_lookup_insert_eq by (rewrite length_insert; lia).
        rewrite <-Hx. apply Hhi. lia.
      * rewrite !list_lookup_insert_ne by lia. apply Hmid. lia.
    + exists r. rewrite list_lookup_insert_ne by lia.
      replace (q + S i) with (S (q + i)) by lia.
      by rewrite list_lookup_insert_eq by lia.
    + intros k Hk. rewrite !list_lookup_insert_ne by lia. apply Hhi. lia.
  - exists cs0. rewrite Nat.add_0_r. repeat split; try done. intros k. lia.
Qed.

Lemma destroy_at_Ok b i σ σ' cs :
  heap σ !! b = Some (Some cs) →
  destroy_at (Ptr b i) σ = (Ok tt, σ') →
  ∃ x, cs !! i = Some (Some x) ∧
    σ' = set_heap (<[b := Some (<[i := None]> cs)]> (heap σ))
                  (log_destroyed x σ).
Proof.
  intros Hb Hrun. unfold destroy_at in Hrun.
  apply bind_Ok in Hrun as (x & σ1 & H1 & Hrun).
  apply load_Ok in H1 as (-> & b1 & j1 & cs1 & [= <- <-] & Hb1 & Hj).
  rewrite Hb in Hb1. injection Hb1 as <-.
  apply bind_Ok in Hrun as ([] & σ1 & [= <-] & H2).
  apply store_Ok in H2 as (b1 & i1 & cs1 & [= <- <-] & Hb1 & Hlt' & ->).
  simpl in Hb1. rewrite Hb in Hb1. injection Hb1 as <-.
  by exists x.
Qed.

Lemma get_obj_Ok this σ v σ' :
  get_obj this σ = (Ok v, σ') → objs σ !! this = Some v ∧ σ' = σ.
Proof.
  unfold get_obj. destruct (objs σ !! this) as [v'|]; [|done].
  by intros [= <- <-].
Qed.

Lemma set_size_Ok this n σ σ' v :
  objs σ !! this = Some v →
  set_size this n σ = (Ok tt, σ') →
  σ' = set_objs (<[this := mkVector (data_ v) n]> (objs σ)) σ.
Proof.
  intros Hv. unfold set_size, bind, get_obj, put_obj. rewrite Hv.
  by intros [= <-].
Qed.

Lemma owns_block σ v l :
  owns σ v l → 0 < capacity_ (data_ v) →
  ∃ b, buffer_ (data_ v) = Ptr b 0 ∧
       heap σ !! b = Some (Some (cells_of l (capacity_ (data_ v)))).
Proof.
  intros (Hs & Hl & Hbuf) Hcap.
  destruct (buffer_ (data_ v)) as [|b i]; [lia|].
  destruct Hbuf as [-> Hb]. by exists b.
Qed.

(** What a successful [Erase] does. *)
Lemma Erase_spec σ this v l k σ' it :
  objs σ !! this = Some v →
  owns σ v l →
  k < length l →
  Erase this (ptr_add (begin_ v) k) σ = (Ok it, σ') →
  ∃ v', objs σ' !! this = Some v' ∧
    owns σ' v' (delete k l) ∧
    data_ v' = data_ v ∧
    size_ v' = length l - 1 ∧
    it = ptr_add (begin_ v') k ∧
    (S k = length l → it = end_ v') ∧
    (∃ r, destroyed σ' = destroyed σ ++ [r]).
Proof.
  intros Hv Hown Hk Hrun.
  pose proof Hown as (Hs & Hl & _).
  destruct (owns_block _ _ _ Hown) as (b & Hbuf & Hb); [lia|].
  unfold Erase in Hrun.
  apply bind_Ok in Hrun as (v0 & σ0 & H0 & Hrun).
  apply get_obj_Ok in H0 as [Hv0 ->].
  rewrite Hv in Hv0. injection Hv0 as <-.
  apply bind_Ok in Hrun as (position & σ0 & H0 & Hrun).
  rewrite (owns_begin_add _ _ _ _ Hown) in H0 by lia.
  injection H0 as <- <-.
  apply bind_Ok in Hrun as ([] & σ1 & Hmove & Hrun).
  unfold std_move, begin_, end_, GetAddress in Hmove.
  rewrite Hbuf in Hmove. simpl in Hmove.
  apply bind_Ok in Hmove as (m & σ0 & H0 & Hmove).
  rewrite decide_True in H0 by (split; [done|lia]).
  injection H0 as <- <-.
  eapply (move_left_Ok b k (k + 1)) in Hmove
    as (cs & Hb1 & Hlen & Hlo & Hmid & [r Hr] & Hhi & Ho1 & Hd1);
    [|lia|exact Hb|].
  2:{ destruct (lookup_lt_is_Some_2 l k Hk) as [x Hx].
      exists x. by apply cells_of_lookup_lt. }
  assert (k + (size_ v - (k + 1)) = size_ v - 1) as Hend by lia.
  rewrite Hend in *.
  apply bind_Ok in Hrun as ([] & σ2 & Hdel & Hrun).
  unfold end_, GetAddress in Hdel. rewrite Hbuf in Hdel. simpl in Hdel.
  apply (destroy_at_Ok _ _ _ _ _ Hb1) in Hdel as (x & Hx & ->).
  apply bind_Ok in Hrun as ([] & σ3 & Hsize & Hrun).
  apply (set_size_Ok _ _ _ _ v) in Hsize as ->; [|simpl; by rewrite Ho1].
  apply bind_Ok in Hrun as (v' & σ4 & H0 & Hrun).
  apply get_obj_Ok in H0 as [Hv' ->]. simpl in Hv'.
  rewrite lookup_insert_eq in Hv'. injection Hv' as <-.
  injection Hrun as <- <-.
  rewrite cells_of_length in Hlen by done.
  exists (mkVector (data_ v) (size_ v - 1)). simpl.
  rewrite lookup_insert_eq. split_and!; [done| |done|lia|done| |].
  - unfold owns. simpl.
    rewrite length_delete by (by apply lookup_lt_is_Some_2).
    split; [lia|]. split; [lia|]. rewrite Hbuf. split; [done|].
    rewrite (heap_insert_lookup _ _ _ _ Hb1). do 2 f_equal.
    apply cells_of_eq.
    + by rewrite length_insert.
    + rewrite length_delete by (by apply lookup_lt_is_Some_2). lia.
    + intros j y Hj.
      assert (j < length l - 1).
      { apply lookup_lt_Some in Hj.
        by rewrite length_delete in Hj by (by apply lookup_lt_is_Some_2). }
      rewrite list_lookup_insert_ne by lia.
      destruct (decide (j < k)).
      * rewrite list_lookup_delete_lt in Hj by done.
        rewrite Hlo by done. by apply cells_of_lookup_lt.
      * rewrite list_lookup_delete_ge in Hj by lia.
        rewrite Hmid by lia. by apply cells_of_lookup_lt.
    + intros j Hj Hcap.
      rewrite length_delete in Hj by (by apply lookup_lt_is_Some_2).
      destruct (decide (j = size_ v - 1)) as [->|].
      * apply list_lookup_insert_eq. lia.
      * rewrite list_lookup_insert_ne by done.
        rewrite Hhi by lia. apply cells_of_lookup_ge; lia.
  - intros Hlast. unfold begin_, end_, GetAddress. simpl. do 2 f_equal. lia.
  - exists x. simpl. by rewrite Hd1.
Qed.

(** *** Insertion in place *)

Lemma inserted_length k x l : length (inserted k x l) = S (length l).
Proof.
  unfold inserted. rewrite length_app. simpl.
  rewrite length_take, length_drop. lia.
Qed.

Lemma inserted_lookup_lt k x l j : j < k → k ≤ length l →
  inserted k x l !! j = l !! j.
Proof.
  intros Hj Hk. unfold inserted.
  rewrite lookup_app_l by (rewrite length_take; lia).
  by rewrite lookup_take_lt.
Qed.

Lemma inserted_lookup_eq k x l : k ≤ length l → inserted k x l !! k = Some x.
Proof.
  intros Hk. unfold inserted.
  rewrite lookup_app_r by (rewrite length_take; lia).
  rewrite length_take. by replace (k - k `min` length l) with 0 by lia.
Qed.

Lemma inserted_lookup_gt k x l j : k < j → k ≤ length l →
  inserted k x l !! j = l !! (j - 1).
Proof.
  intros Hj Hk. unfold inserted.
  rewrite lookup_app_r by (rewrite length_take; lia).
  rewrite length_take. replace (j - k `min` length l) with (S (j - k - 1)) by lia.
  simpl. rewrite lookup_drop. f_equal. lia.
Qed.

(** A block holds [inserted k x l] when it holds [l] below [k], [x] at
    [k], [l] shifted by one above [k], and nothing after that. *)
Lemma cells_of_inserted (cs : list (option T)) l cap k x :
  k ≤ length l → S (length l) ≤ cap →
  length cs = cap →
  (∀ j, j < k → cs !! j = Some <$> l !! j) →
  cs !! k = Some (Some x) →
  (∀ j, k < j → j ≤ length l → cs !! j = Some <$> l !! (j - 1)) →
  (∀ j, length l < j → j < cap → cs !! j = Some None) →
  cs = cells_of (inserted k x l) cap.
Proof.
  intros Hk Hcap Hlen Hlo Heq Hhi Hraw. apply cells_of_eq; [done|..].
  - rewrite inserted_length. lia.
  - intros j y Hj.
    assert (j < S (length l)).
    { apply lookup_lt_Some in Hj. by rewrite inserted_length in Hj. }
    destruct (decide (j < k)); [|destruct (decide (j = k)) as [->|]].
    + rewrite inserted_lookup_lt in Hj by done. by rewrite Hlo, Hj.
    + rewrite inserted_lookup_eq in Hj by done. by injection Hj as <-.
    + rewrite inserted_lookup_gt in Hj by lia. rewrite Hhi by lia. by rewrite Hj.
  - intros j Hj Hc. rewrite inserted_length in Hj. apply Hraw; lia.
Qed.

Lemma cells_of_lookup l cap j :
  j < length l → cells_of l cap !! j = Some <$> l !! j.
Proof.
  intros Hj. destruct (lookup_lt_is_Some_2 l j Hj) as [x Hx].
  rewrite Hx. by apply cells_of_lookup_lt.
Qed.

Lemma move_construct_at_same_Ok b i j σ σ' cs :
  heap σ !! b = Some (Some cs) →
  move_construct_at (Ptr b i) (Ptr b j) σ = (Ok tt, σ') →
  ∃ s r, cs !! j = Some (Some s) ∧ i < length cs ∧
    heap σ' !! b = Some (Some (<[i := Some s]> (<[j := Some r]> cs))) ∧
    objs σ' = objs σ ∧ destroyed σ' = destroyed σ.
Proof.
  intros Hb Hrun. unfold move_construct_at in Hrun.
  apply bind_Ok in Hrun as (s & σ1 & H1 & Hrun).
  apply load_Ok in H1 as (-> & b1 & j1 & cs1 & [= <- <-] & Hb1 & Hj).
  rewrite Hb in Hb1. injection Hb1 as <-.
  apply bind_Ok in Hrun as ([y r] & σ1 & H1 & Hrun).
  apply run_elem_Ok in H1 as (w' & Hw & ->).
  apply move_construct_value in Hw as ->.
  apply bind_Ok in Hrun as ([] & σ1 & H1 & H2).
  apply store_Ok in H1 as (b1 & j1 & cs1 & [= <- <-] & Hb1 & Hlt & ->).
  simpl in Hb1. rewrite Hb in Hb1. injection Hb1 as <-.
  apply store_Ok in H2 as (b1 & i1 & cs1 & [= <- <-] & Hb1 & Hlt' & ->).
  simpl in Hb1. rewrite (heap_insert_lookup _ _ _ _ Hb) in Hb1.
  injection Hb1 as <-. simpl.
  exists s, r. rewrite length_insert in Hlt'. repeat split; try done.
  rewrite list_insert_insert_eq. by apply (heap_insert_lookup _ _ _ _ Hb).
Qed.

(** [std::move_backward] by one slot, from the top slot [t] downwards:
    after [m] steps the [m] objects below slot [t] sit one slot higher,
    slot [t - m] is live in a moved-from state, and all other slots are as
    before. *)
Lemma move_right_Ok b t e m σ σ' cs1 :
  e = S t → m ≤ t →
  heap σ !! b = Some (Some cs1) →
  (∃ r, cs1 !! t = Some (Some r)) →
  for_loop (λ j, move_assign_at (Ptr b (e - S j)) (Ptr b (t - S j))) 0 m σ
    = (Ok tt, σ') →
  ∃ cs, heap σ' !! b = Some (Some cs) ∧ length cs = length cs1 ∧
    (∀ k, k < t - m → cs !! k = cs1 !! k) ∧
    (∃ r, cs !! (t - m) = Some (Some r)) ∧
    (∀ k, t - m < k → k ≤ t → cs !! k = cs1 !! (k - 1)) ∧
    (∀ k, t < k → cs !! k = cs1 !! k) ∧
    objs σ' = objs σ ∧ destroyed σ' = destroyed σ.
Proof.
  intros -> Hm Hb Ht Hrun.
  apply (for_loop_Ok (λ j s, j ≤ m → ∃ cs,
    heap s !! b = Some (Some cs) ∧ length cs = length cs1 ∧
    (∀ k, k < t - j → cs !! k = cs1 !! k) ∧
    (∃ r, cs !! (t - j) = Some (Some r)) ∧
    (∀ k, t - j < k → k ≤ t → cs !! k = cs1 !! (k - 1)) ∧
    (∀ k, t < k → cs !! k = cs1 !! k) ∧
    objs s = objs σ ∧ destroyed s = destroyed σ)) in Hrun;
    [done| | |simpl; lia].
  - intros j s s' Hj HI Hstep Hj'.
    destruct HI as (cs & Hbs & Hlen & Hlo & Hr & Hmid & Hhi & Ho & Hd); [lia|].
    apply (move_assign_at_Ok _ _ _ _ _ _ Hbs) in Hstep
      as (x & d & r & Hx & Hd' & Hbs' & Ho' & Hd'').
    eexists. split; [exact Hbs'|].
    assert (t - j < length cs) by (destruct Hr as [? Hr]; by eapply lookup_lt_Some).
    rewrite !length_insert. simpl in *.
    replace (t - j) with (S (t - S j)) in * by lia.
    repeat split; [done| | | | |congruence..].
    + intros k Hk. rewrite !list_lookup_insert_ne by lia. apply Hlo. lia.
    + exists r. rewrite list_lookup_insert_ne by lia.
      by rewrite list_lookup_insert_eq by lia.
    + intros k Hk Hk'. destruct (decide (k = S (t - S j))) as [->|].
      * rewrite list_lookup_insert_eq by (rewrite length_insert; lia).
        simpl. rewrite Nat.sub_0_r. rewrite <-Hx. apply Hlo. lia.
      * rewrite !list_lookup_insert_ne by lia. apply Hmid; lia.
    + intros k Hk. rewrite !list_lookup_insert_ne by lia. by apply Hhi.
  - intros _. exists cs1. rewrite Nat.sub_0_r. repeat split; try done.
    intros k. lia.
Qed.

Lemma with_local_Ok x (body : M T) σ σ' :
  with_local x body σ = (Ok tt, σ') →
  ∃ x' σ1, body σ = (Ok x', σ1) ∧ σ' = log_destroyed x' σ1.
Proof.
  unfold with_local. destruct (body σ) as [[x'|e|] σ1]; intros [= <-].
  by exists x', σ1.
Qed.

Lemma size_sub_Ok a c σ n σ' :
  size_sub a c σ = (Ok n, σ') → c ≤ a ∧ n = a - c ∧ σ' = σ.
Proof. unfold size_sub. case_decide; [|done]. by intros [= <- <-]. Qed.

Lemma move_assign_from_Ok b i x σ r σ' cs :
  heap σ !! b = Some (Some cs) →
  move_assign_from (Ptr b i) x σ = (Ok r, σ') →
  ∃ d, cs !! i = Some (Some d) ∧
    heap σ' !! b = Some (Some (<[i := Some x]> cs)) ∧
    objs σ' = objs σ ∧ destroyed σ' = destroyed σ.
Proof.
  intros Hb Hrun. unfold move_assign_from in Hrun.
  apply bind_Ok in Hrun as (d & σ1 & H1 & Hrun).
  apply load_Ok in H1 as (-> & b1 & i1 & cs1 & [= <- <-] & Hb1 & Hi).
  rewrite Hb in Hb1. injection Hb1 as <-.
  apply bind_Ok in Hrun as ([d' r'] & σ1 & H1 & Hrun).
  apply run_elem_Ok in H1 as (w' & Hw & ->).
  apply move_assign_value in Hw as ->.
  apply bind_Ok in Hrun as ([] & σ1 & H1 & [= <- <-]).
  apply store_Ok in H1 as (b1 & i1 & cs1 & [= <- <-] & Hb1 & Hlt & ->).
  simpl in Hb1. rewrite Hb in Hb1. injection Hb1 as <-. simpl.
  exists d. repeat split; try done. by apply (heap_insert_lookup _ _ _ _ Hb).
Qed.

(** [Emplace] with spare capacity at the end: construction in place. *)
Lemma emplace_at_end_Ok b cap l ctor σ σ' :
  heap σ !! b = Some (Some (cells_of l cap)) →
  construct_at (Ptr b (length l)) ctor σ = (Ok tt, σ') →
  ∃ x, constructed_by ctor x ∧ length l < cap ∧
    heap σ' !! b = Some (Some (cells_of (inserted (length l) x l) cap)) ∧
    objs σ' = objs σ.
Proof.
  intros Hb Hrun.
  apply (construct_at_Ok _ _ _ _ _ _ Hb) in Hrun as (x & w' & Hx & Hlt & ->).
  assert (length l < cap) as Hcap.
  { unfold cells_of in Hlt.
    rewrite length_app, length_fmap, length_replicate in Hlt. lia. }
  exists x. split; [by exists (world σ), w'|]. split; [done|]. simpl.
  split; [|done].
  rewrite (heap_insert_lookup _ _ _ _ Hb). do 2 f_equal.
  apply cells_of_inserted; try done.
  - rewrite length_insert. apply cells_of_length. lia.
  - intros j Hj. rewrite list_lookup_insert_ne by lia. by apply cells_of_lookup.
  - apply list_lookup_insert_eq. rewrite cells_of_length; lia.
  - intros j. lia.
  - intros j Hj Hc. rewrite list_lookup_insert_ne by lia.
    apply cells_of_lookup_ge; lia.
Qed.

(** [Emplace] with spare capacity before the end: the last element is
    move-constructed into the free slot after it, the elements from [k] on
    are move-assigned one slot up, and the new element is move-assigned
    into slot [k]. *)
Lemma emplace_in_middle_Ok b cap l k ctor σ σ' :
  heap σ !! b = Some (Some (cells_of l cap)) →
  k < length l →
  (new_item ← run_elem ctor;
   with_local new_item (
     last ← size_sub (length l) 1;
     move_construct_at (Ptr b (length l)) (Ptr b last);;
     std_move_backward (Ptr b k) (Ptr b (length l - 1)) (Ptr b (length l));;
     move_assign_from (Ptr b k) new_item)) σ = (Ok tt, σ') →
  ∃ x, constructed_by ctor x ∧ length l < cap ∧
    heap σ' !! b = Some (Some (cells_of (inserted k x l) cap)) ∧
    objs σ' = objs σ.
Proof.
  intros Hb Hk Hrun.
  apply bind_Ok in Hrun as (x & σ1 & H1 & Hrun).
  apply run_elem_Ok in H1 as (w' & Hx & ->).
  apply with_local_Ok in Hrun as (x' & σ1 & Hrun & ->).
  apply bind_Ok in Hrun as (last & σ0 & H1 & Hrun).
  apply size_sub_Ok in H1 as (_ & -> & ->).
  apply bind_Ok in Hrun as ([] & σ2 & Htail & Hrun).
  apply (move_construct_at_same_Ok b _ _ (set_world w' σ) _ _ Hb) in Htail
    as (s & r & Hs & Hlt & Hb2 & Ho2 & _).
  assert (length l < cap) as Hcap.
  { unfold cells_of in Hlt.
    rewrite length_app, length_fmap, length_replicate in Hlt. lia. }
  apply bind_Ok in Hrun as ([] & σ3 & Hshift & Hrun).
  unfold std_move_backward in Hshift.
  apply bind_Ok in Hshift as (m & σ0 & H1 & Hshift). simpl in H1.
  rewrite decide_True in H1 by (split; [done|lia]). injection H1 as <- <-.
  simpl in Hshift.
  eapply (move_right_Ok b (length l - 1) (length l)) in Hshift
    as (cs & Hb3 & Hlen & Hlo & _ & Hmid & Hhi & Ho3 & _);
    [|lia|lia|exact Hb2|].
  2:{ exists r. rewrite list_lookup_insert_ne by lia.
      apply list_lookup_insert_eq. rewrite cells_of_length; lia. }
  apply (move_assign_from_Ok _ _ _ _ _ _ _ Hb3) in Hrun
    as (d & _ & Hb4 & Ho4 & _).
  rewrite !length_insert, cells_of_length in Hlen by lia.
  replace (length l - 1 - (length l - 1 - k)) with k in * by lia.
  exists x. split; [by exists (world σ), w'|]. split; [done|]. simpl.
  split; [|simpl in *; congruence].
  rewrite Hb4. do 2 f_equal.
  apply cells_of_inserted; try done; try lia.
  - by rewrite length_insert.
  - intros j Hj. rewrite list_lookup_insert_ne by lia. rewrite Hlo by done.
    rewrite !list_lookup_insert_ne by lia. apply cells_of_lookup. lia.
  - apply list_lookup_insert_eq. lia.
  - intros j Hj Hj'. rewrite list_lookup_insert_ne by lia.
    destruct (decide (j = length l)) as [->|].
    + rewrite Hhi by lia.
      rewrite list_lookup_insert_eq by (rewrite length_insert, cells_of_length; lia).
      rewrite <-Hs. apply cells_of_lookup. lia.
    + rewrite Hmid by lia. rewrite !list_lookup_insert_ne by lia.
      apply cells_of_lookup. lia.
  - intros j Hj Hc. rewrite list_lookup_insert_ne by lia.
    rewrite Hhi by lia. rewrite !list_lookup_insert_ne by lia.
    apply cells_of_lookup_ge; lia.
Qed.

(** *** Relocation into another block *)

Lemma copy_construct_at_Ok bd i bs j σ σ' cd cs :
  bs ≠ bd →
  heap σ !! bd = Some (Some cd) →
  heap σ !! bs = Some (Some cs) →
  copy_construct_at (Ptr bd i) (Ptr bs j) σ = (Ok tt, σ') →
  ∃ x, cs !! j = Some (Some x) ∧ i < length cd ∧
    heap σ' !! bd = Some (Some (<[i := Some x]> cd)) ∧
    heap σ' !! bs = Some (Some cs) ∧
    objs σ' = objs σ ∧ destroyed σ' = destroyed σ ∧
    length (heap σ') = length (heap σ).
Proof.
  intros Hne Hbd Hbs Hrun. unfold copy_construct_at in Hrun.
  apply bind_Ok in Hrun as (x & σ1 & H1 & Hrun).
  apply load_Ok in H1 as (-> & b1 & j1 & cs1 & [= <- <-] & Hb1 & Hj).
  rewrite Hbs in Hb1. injection Hb1 as <-.
  apply (construct_at_Ok _ _ _ _ _ _ Hbd) in Hrun as (y & w' & Hy & Hi & ->).
  apply copy_construct_value in Hy as ->. simpl.
  exists x. repeat split; try done.
  - by apply (heap_insert_lookup _ _ _ _ Hbd).
  - by rewrite list_lookup_insert_ne by done.
  - by rewrite length_insert.
Qed.

Lemma move_construct_at_Ok bd i bs j σ σ' cd cs :
  bs ≠ bd →
  heap σ !! bd = Some (Some cd) →
  heap σ !! bs = Some (Some cs) →
  move_construct_at (Ptr bd i) (Ptr bs j) σ = (Ok tt, σ') →
  ∃ x r, cs !! j = Some (Some x) ∧ i < length cd ∧
    heap σ' !! bd = Some (Some (<[i := Some x]> cd)) ∧
    heap σ' !! bs = Some (Some (<[j := Some r]> cs)) ∧
    objs σ' = objs σ ∧ destroyed σ' = destroyed σ ∧
    length (heap σ') = length (heap σ).
Proof.
  intros Hne Hbd Hbs Hrun. unfold move_construct_at in Hrun.
  apply bind_Ok in Hrun as (x & σ1 & H1 & Hrun).
  apply load_Ok in H1 as (-> & b1 & j1 & cs1 & [= <- <-] & Hb1 & Hj).
  rewrite Hbs in Hb1. injection Hb1 as <-.
  apply bind_Ok in Hrun as ([y r] & σ1 & H1 & Hrun).
  apply run_elem_Ok in H1 as (w' & Hw & ->).
  apply move_construct_value in Hw as ->.
  apply bind_Ok in Hrun as ([] & σ1 & H1 & H2).
  apply store_Ok in H1 as (b1 & j1 & cs1 & [= <- <-] & Hb1 & Hlt & ->).
  simpl in Hb1. rewrite Hbs in Hb1. injection Hb1 as <-.
  apply store_Ok in H2 as (b1 & i1 & cs1 & [= <- <-] & Hb1 & Hlt' & ->).
  simpl in Hb1. rewrite list_lookup_insert_ne in Hb1 by done.
  rewrite Hbd in Hb1. injection Hb1 as <-. simpl.
  exists x, r. repeat split; try done.
  - apply list_lookup_insert_eq. rewrite length_insert.
    by eapply lookup_lt_Some.
  - rewrite list_lookup_insert_ne by done.
    by apply (heap_insert_lookup _ _ _ _ Hbs).
  - by rewrite !length_insert.
Qed.

Lemma relocation_loop_Ok bs so bd dof step n σ σ' cd cs :
  relocation_step bs so bd dof step →
  heap σ !! bd = Some (Some cd) →
  heap σ !! bs = Some (Some cs) →
  for_loop step 0 n σ = (Ok tt, σ') →
  ∃ cd' cs', heap σ' !! bd = Some (Some cd') ∧ length cd' = length cd ∧
    heap σ' !! bs = Some (Some cs') ∧ length cs' = length cs ∧
    (∀ i, i < n → is_Some (cs !! (so + i) ≫= id) ∧
                  cd' !! (dof + i) = cs !! (so + i)) ∧
    (∀ k, k < dof ∨ dof + n ≤ k → cd' !! k = cd !! k) ∧
    (∀ k, k < so ∨ so + n ≤ k → cs' !! k = cs !! k) ∧
    objs σ' = objs σ ∧ destroyed σ' = destroyed σ ∧
    length (heap σ') = length (heap σ).
Proof.
  intros Hstep Hbd Hbs Hrun.
  apply (for_loop_Ok (λ n s, ∃ cd' cs',
    heap s !! bd = Some (Some cd') ∧ length cd' = length cd ∧
    heap s !! bs = Some (Some cs') ∧ length cs' = length cs ∧
    (∀ i, i < n → is_Some (cs !! (so + i) ≫= id) ∧
                  cd' !! (dof + i) = cs !! (so + i)) ∧
    (∀ k, k < dof ∨ dof + n ≤ k → cd' !! k = cd !! k) ∧
    (∀ k, k < so ∨ so + n ≤ k → cs' !! k = cs !! k) ∧
    objs s = objs σ ∧ destroyed s = destroyed σ ∧
    length (heap s) = length (heap σ))) in Hrun; [done|..].
  - intros i s s' _
      (cd' & cs' & Hbd' & Hld & Hbs' & Hls & Hdone & Hd & Hs & Ho & Hde & Hlh) Hi.
    apply (Hstep _ _ _ _ _ Hbd' Hbs') in Hi
      as (x & cs'' & Hx & Hlt & Hbd'' & Hbs'' & Hls' & Hs' & Ho' & Hde' & Hlh').
    exists (<[dof + i := Some x]> cd'), cs''.
    rewrite length_insert.
    repeat split; try done; try congruence.
    + destruct (decide (i0 = i)) as [->|].
      * rewrite <-Hs by lia. by rewrite Hx.
      * apply Hdone. lia.
    + destruct (decide (i0 = i)) as [->|].
      * rewrite list_lookup_insert_eq by done. rewrite <-Hs by lia. by rewrite Hx.
      * rewrite list_lookup_insert_ne by lia. apply Hdone. lia.
    + intros k Hk. rewrite list_lookup_insert_ne by lia. apply Hd. lia.
    + intros k Hk. rewrite Hs' by lia. apply Hs. lia.
  - exists cd, cs. repeat split; try done; lia.
Qed.

Lemma copy_relocation_step bs so bd dof (c : nat → M unit) :
  bs ≠ bd →
  relocation_step bs so bd dof
    (λ i, on_unwind (copy_construct_at (Ptr bd (dof + i)) (Ptr bs (so + i)))
                    (c i)).
Proof.
  intros Hne i σ σ' cd cs Hbd Hbs Hrun. apply on_unwind_Ok in Hrun.
  apply (copy_construct_at_Ok _ _ _ _ _ _ _ _ Hne Hbd Hbs) in Hrun
    as (x & Hx & Hi & Hbd' & Hbs' & Ho & Hd & Hl).
  by exists x, cs.
Qed.

Lemma move_relocation_step bs so bd dof (c : nat → M unit) :
  bs ≠ bd →
  relocation_step bs so bd dof
    (λ i, on_unwind (move_construct_at (Ptr bd (dof + i)) (Ptr bs (so + i)))
                    (c i)).
Proof.
  intros Hne i σ σ' cd cs Hbd Hbs Hrun. apply on_unwind_Ok in Hrun.
  apply (move_construct_at_Ok _ _ _ _ _ _ _ _ Hne Hbd Hbs) in Hrun
    as (x & r & Hx & Hi & Hbd' & Hbs' & Ho & Hd & Hl).
  exists x, (<[so + i := Some r]> cs). rewrite length_insert.
  repeat split; try done.
  intros k Hk. by rewrite list_lookup_insert_ne.
Qed.

(** The relocation of [Reserve], [PushBack] and [Emplace], when it
    succeeds: the target slots hold the objects [xs] of the source, the
    other slots of the target block are as before, and the objects of the
    source block after the relocated ones are still there. *)
Lemma relocate_n_Ok first xs n bd dof σ σ' cd :
  length xs = n →
  source_of σ first xs bd →
  heap σ !! bd = Some (Some cd) →
  relocate_n first n (Ptr bd dof) σ = (Ok tt, σ') →
  ∃ cd', heap σ' !! bd = Some (Some cd') ∧ length cd' = length cd ∧
    (∀ i x, xs !! i = Some x → cd' !! (dof + i) = Some (Some x)) ∧
    (∀ k, k < dof ∨ dof + n ≤ k → cd' !! k = cd !! k) ∧
    (∀ m ys, n ≤ m → source_of σ (ptr_add first m) ys bd →
             source_of σ' (ptr_add first m) ys bd) ∧
    objs σ' = objs σ ∧ length (heap σ') = length (heap σ).
Proof.
  intros Hlen Hsrc Hbd Hrun. destruct first as [|bs so].
  - simpl in Hsrc. subst xs. simpl in Hlen. subst n.
    assert (σ' = σ) as ->.
    { unfold relocate_n, uninitialized_move_n, uninitialized_copy_n in Hrun.
      simpl in Hrun. destruct (_ || _); by injection Hrun. }
    exists cd. by repeat split.
  - destruct Hsrc as (Hne & cs & Hbs & Hxs).
    assert (∃ step, relocation_step bs so bd dof step ∧
                    for_loop step 0 n σ = (Ok tt, σ')) as (step & Hstep & Hloop).
    { unfold relocate_n in Hrun. destruct (_ || _).
      - eexists. split; [|exact Hrun]. by apply move_relocation_step.
      - eexists. split; [|exact Hrun]. by apply copy_relocation_step. }
    apply (relocation_loop_Ok _ _ _ _ _ _ _ _ _ _ Hstep Hbd Hbs) in Hloop
      as (cd' & cs' & Hbd' & Hld & Hbs' & Hls & Hdone & Hd & Hs & Ho & _ & Hlh).
    exists cd'. split_and!; try done.
    + intros i x Hi. assert (i < n) as Hin.
      { rewrite <-Hlen. by eapply lookup_lt_Some. }
      destruct (Hdone i Hin) as [_ ->]. by apply Hxs.
    + intros m ys Hm (_ & cs2 & Hbs2 & Hys). simpl in *.
      rewrite Hbs in Hbs2. injection Hbs2 as <-.
      split; [done|]. exists cs'. split; [done|].
      intros i y Hy. rewrite Hs by lia. by apply Hys.
Qed.

Lemma source_of_take σ first l bd k :
  source_of σ first l bd → source_of σ first (take k l) bd.
Proof.
  destruct first as [|bs so]; simpl.
  - intros ->. by rewrite take_nil.
  - intros (Hne & cs & Hbs & Hl). split; [done|]. exists cs. split; [done|].
    intros i x Hi. apply Hl.
    apply lookup_take_Some in Hi. by destruct Hi.
Qed.

Lemma source_of_drop σ first l bd k :
  k ≤ length l →
  source_of σ first l bd → source_of σ (ptr_add first k) (drop k l) bd.
Proof.
  destruct first as [|bs so]; simpl.
  - intros _ ->. by rewrite drop_nil.
  - intros Hk (Hne & cs & Hbs & Hl). split; [done|]. exists cs. split; [done|].
    intros i x Hi. rewrite lookup_drop in Hi.
    rewrite <-Nat.add_assoc. by apply Hl.
Qed.

(** The elements of a vector are a source for a relocation into a block
    allocated later. *)
Lemma owns_source σ σ1 v l nb :
  owns σ v l →
  length (heap σ) ≤ nb →
  (∀ b, b < length (heap σ) → heap σ1 !! b = heap σ !! b) →
  source_of σ1 (begin_ v) l nb.
Proof.
  intros (Hs & Hl & Hbuf) Hnb Hsame. unfold begin_, GetAddress.
  destruct (buffer_ (data_ v)) as [|b i]; simpl.
  - destruct l; [done|simpl in *; lia].
  - destruct Hbuf as [-> Hb].
    assert (b < length (heap σ)) by (by eapply lookup_lt_Some).
    split; [lia|]. eexists. split; [by rewrite Hsame|].
    intros i x Hi. by apply cells_of_lookup_lt.
Qed.

(** *** Growth *)

Lemma with_new_data_Ok n (body : RawMemory → M RawMemory) σ σ' :
  n ≠ 0 →
  with_new_data n body σ = (Ok tt, σ') →
  can_allocate n (world σ) = true ∧
  ∃ nd' σ2,
    body (mkRawMemory (Ptr (length (heap σ)) 0) n)
         (set_heap (heap σ ++ [Some (replicate (room n) None)]) σ)
      = (Ok nd', σ2) ∧
    RawMemory_dtor nd' σ2 = (Ok tt, σ').
Proof.
  intros Hn Hrun. unfold with_new_data in Hrun.
  apply bind_Ok in Hrun as (nd & σ1 & Hnd & Hrun).
  apply RawMemory_ctor_Ok in Hnd as [(-> & _)|(_ & Hc & -> & ->)]; [done|].
  apply bind_Ok in Hrun as (nd' & σ2 & Hbody & Hrun).
  apply on_unwind_Ok in Hbody. split; [done|]. by exists nd', σ2.
Qed.

Lemma grown_ne_0 n : (if decide (n = 0) then 1 else n * 2) ≠ 0.
Proof. case_decide; lia. Qed.

(** The end of a growth: the old elements are destroyed, the new block
    becomes the storage of the vector, and the old block is released.  The
    new block is not touched by any of this. *)
Lemma grow_commit this v nb cap' cd σ nd' σ' σ'' :
  objs σ !! this = Some v →
  heap σ !! nb = Some (Some cd) →
  in_blocks (λ b, b ≠ nb) (buffer_ (data_ v)) →
  (destroy_n (GetAddress (data_ v)) (size_ v);;
   swap_data this (mkRawMemory (Ptr nb 0) cap')) σ = (Ok nd', σ') →
  RawMemory_dtor nd' σ' = (Ok tt, σ'') →
  heap σ'' !! nb = Some (Some cd) ∧
  objs σ'' = <[this := mkVector (mkRawMemory (Ptr nb 0) cap') (size_ v)]>
               (objs σ).
Proof.
  intros Hv Hnb Hin Hrun Hdtor.
  assert (nb < length (heap σ)) as Hlt by (by eapply lookup_lt_Some).
  apply bind_Ok in Hrun as ([] & σ1 & Hdestroy & Hswap).
  apply (mem_only_destroy_n _ _ _ Hin) in Hdestroy as (Ho1 & Hl1 & Hh1).
  unfold swap_data in Hswap.
  apply bind_Ok in Hswap as (v1 & σ0 & H0 & Hswap).
  apply get_obj_Ok in H0 as [Hv1 ->].
  rewrite Ho1, Hv in Hv1. injection Hv1 as <-.
  apply bind_Ok in Hswap as ([] & σ2 & [= <-] & [= <- <-]).
  simpl in Hdtor. unfold RawMemory_dtor, Deallocate in Hdtor. simpl in Hdtor.
  apply (mem_only_operator_delete _ _ Hin) in Hdtor as (Ho2 & Hl2 & Hh2).
  simpl in *. split.
  - rewrite Hh2, Hh1; [done| |done| |lia]; by intros ?.
  - by rewrite Ho2, Ho1.
Qed.

Lemma owns_in_old_blocks σ v l nb :
  owns σ v l → length (heap σ) ≤ nb →
  in_blocks (λ b, b ≠ nb) (buffer_ (data_ v)).
Proof.
  intros (_ & _ & Hbuf) Hnb. destruct (buffer_ (data_ v)) as [|b i]; [done|].
  destruct Hbuf as [_ Hb]. apply lookup_lt_Some in Hb. simpl. lia.
Qed.

(** [Emplace] without spare capacity. *)
Lemma grow_emplace_Ok this v l k ctor σ σ' :
  objs σ !! this = Some v →
  owns σ v l →
  k ≤ length l →
  with_new_data (if decide (size_ v = 0) then 1 else size_ v * 2)
    (λ new_data,
      construct_at (ptr_add (GetAddress new_data) k) ctor;;
      relocate_n (begin_ v) k (GetAddress new_data);;
      rest ← size_sub (size_ v) k;
      relocate_n (ptr_add (begin_ v) k) rest
                 (ptr_add (ptr_add (GetAddress new_data) k) 1);;
      destroy_n (GetAddress (data_ v)) (size_ v);;
      swap_data this new_data) σ = (Ok tt, σ') →
  ∃ x, constructed_by ctor x ∧
    can_allocate (grown (size_ v)) (world σ) = true ∧
    heap σ' !! length (heap σ)
      = Some (Some (cells_of (inserted k x l) (grown (size_ v)))) ∧
    objs σ' = <[this := mkVector (mkRawMemory (Ptr (length (heap σ)) 0)
                                              (grown (size_ v))) (size_ v)]>
                (objs σ).
Proof.
  intros Hv Hown Hk Hrun. pose proof Hown as (Hs & Hl & _).
  apply with_new_data_Ok in Hrun as (Hc & nd' & σ2 & Hrun & Hdtor);
    [|apply grown_ne_0].
  fold (grown (size_ v)) in *.
  set (nb := length (heap σ)) in *. set (cap' := grown (size_ v)) in *.
  set (m := room cap') in *.
  assert (S (length l) ≤ cap') as Hcap'.
  { subst cap'. unfold grown. case_decide; lia. }
  apply bind_Ok in Hrun as ([] & σ1 & Hnew & Hrun). simpl in Hnew.
  apply (construct_at_Ok nb _ _
           (set_heap (heap σ ++ [Some (replicate m None)]) σ) _ _
           (lookup_new_block _ _)) in Hnew as (x & w' & Hx & Hlt & ->).
  rewrite length_replicate in Hlt.
  apply bind_Ok in Hrun as ([] & σ3 & Hrel1 & Hrun).
  match type of Hrel1 with relocate_n _ _ _ ?s = _ => set (σ1 := s) in * end.
  assert (source_of σ1 (begin_ v) l nb) as Hsrc.
  { eapply owns_source; [done|done|]. intros b Hb. subst σ1 nb. simpl.
    rewrite list_lookup_insert_ne by lia. by apply lookup_app_l. }
  assert (heap σ1 !! nb = Some (Some (<[k := Some x]> (replicate m None))))
    as Hnb1.
  { subst σ1 nb. simpl. apply list_lookup_insert_eq.
    rewrite length_app. simpl. lia. }
  eapply (relocate_n_Ok _ (take k l)) in Hrel1
    as (cd2 & Hnb2 & Hlen2 & Hcd2 & Hout2 & Hkeep & Ho2 & _);
    [|rewrite length_take; lia|by apply source_of_take|exact Hnb1].
  apply bind_Ok in Hrun as (rest & σ0 & H0 & Hrun).
  apply size_sub_Ok in H0 as (_ & -> & ->).
  apply bind_Ok in Hrun as ([] & σ4 & Hrel2 & Hrun).
  eapply (relocate_n_Ok _ (drop k l)) in Hrel2
    as (cd3 & Hnb3 & Hlen3 & Hcd3 & Hout3 & _ & Ho3 & _);
    [|rewrite length_drop; lia
     |apply Hkeep; [done|by apply source_of_drop]|exact Hnb2].
  assert (objs σ1 = objs σ) as Ho1 by done.
  (* the last slot written is slot [size_], so the byte count did not wrap *)
  assert (size_ v < m) as Hroom.
  { rewrite Hs. destruct (decide (k = length l)) as [->|Hne]; [done|].
    destruct (lookup_lt_is_Some_2 l (length l - 1)) as [y Hy]; [lia|].
    assert (cd3 !! (0 + k + 1 + (length l - 1 - k)) = Some (Some y)) as Hlast.
    { apply Hcd3. rewrite lookup_drop, <-Hy. f_equal. lia. }
    apply lookup_lt_Some in Hlast.
    rewrite Hlen3, Hlen2, length_insert, length_replicate in Hlast. lia. }
  pose proof (room_grown (size_ v) Hroom) as Hm. change (m = cap') in Hm.
  clearbody σ1 m. subst m.
  eapply grow_commit in Hrun as [Hnb' Ho'];
    [|by rewrite Ho3, Ho2, Ho1|exact Hnb3| |exact Hdtor].
  2:{ eapply owns_in_old_blocks; [done|]. by subst nb. }
  rewrite length_insert, length_replicate in Hlen2. simpl in *.
  exists x. split; [by exists (world σ), w'|]. split; [done|]. split.
  - rewrite Hnb'. do 2 f_equal. apply cells_of_inserted; try done.
    + congruence.
    + intros j Hj. rewrite Hout3 by lia.
      destruct (lookup_lt_is_Some_2 l j) as [y Hy]; [lia|].
      rewrite Hy. apply (Hcd2 j). by rewrite lookup_take_lt.
    + rewrite Hout3, Hout2 by lia.
      apply list_lookup_insert_eq. rewrite length_replicate. lia.
    + intros j Hj Hj'.
      destruct (lookup_lt_is_Some_2 l (j - 1)) as [y Hy]; [lia|].
      rewrite Hy. replace j with (k + 1 + (j - k - 1)) at 1 by lia.
      apply Hcd3. rewrite lookup_drop, <-Hy. f_equal. lia.
    + intros j Hj Hj'. rewrite Hout3, Hout2 by lia.
      rewrite list_lookup_insert_ne by lia. apply lookup_replicate_2. lia.
  - rewrite Ho', Ho3, Ho2, Ho1. by f_equal.
Qed.

Lemma inserted_end x l : inserted (length l) x l = l ++ [x].
Proof. unfold inserted. by rewrite take_ge, drop_ge by lia. Qed.

(** [PushBack] without spare capacity. *)
Lemma grow_push_Ok this v l ctor σ σ' :
  objs σ !! this = Some v →
  owns σ v l →
  with_new_data (if decide (size_ v = 0) then 1 else size_ v * 2)
    (λ new_data,
      construct_at (ptr_add (GetAddress new_data) (size_ v)) ctor;;
      relocate_n (GetAddress (data_ v)) (size_ v) (GetAddress new_data);;
      destroy_n (GetAddress (data_ v)) (size_ v);;
      swap_data this new_data) σ = (Ok tt, σ') →
  ∃ x, constructed_by ctor x ∧
    can_allocate (grown (size_ v)) (world σ) = true ∧
    heap σ' !! length (heap σ)
      = Some (Some (cells_of (l ++ [x]) (grown (size_ v)))) ∧
    objs σ' = <[this := mkVector (mkRawMemory (Ptr (length (heap σ)) 0)
                                              (grown (size_ v))) (size_ v)]>
                (objs σ).
Proof.
  intros Hv Hown Hrun. pose proof Hown as (Hs & Hl & _).
  apply with_new_data_Ok in Hrun as (Hc & nd' & σ2 & Hrun & Hdtor);
    [|apply grown_ne_0].
  fold (grown (size_ v)) in *.
  set (nb := length (heap σ)) in *. set (cap' := grown (size_ v)) in *.
  assert (S (length l) ≤ cap') as Hcap'.
  { subst cap'. unfold grown. case_decide; lia. }
  apply bind_Ok in Hrun as ([] & σ1 & Hnew & Hrun). simpl in Hnew.
  apply (construct_at_Ok nb _ _
           (set_heap (heap σ ++ [Some (replicate (room cap') None)]) σ) _ _
           (lookup_new_block _ _)) in Hnew as (x & w' & Hx & Hlt & ->).
  rewrite length_replicate in Hlt.
  (* there is room for the new element, so the byte count did not wrap *)
  pose proof (room_grown (size_ v) Hlt) as Hm.
  change (room cap' = cap') in Hm. rewrite Hm in *. clear Hm.
  apply bind_Ok in Hrun as ([] & σ3 & Hrel1 & Hrun).
  match type of Hrel1 with relocate_n _ _ _ ?s = _ => set (σ1 := s) in * end.
  assert (source_of σ1 (begin_ v) l nb) as Hsrc.
  { eapply owns_source; [done|done|]. intros b Hb. subst σ1 nb. simpl.
    rewrite list_lookup_insert_ne by lia. by apply lookup_app_l. }
  assert (heap σ1 !! nb
          = Some (Some (<[size_ v := Some x]> (replicate cap' None)))) as Hnb1.
  { subst σ1 nb. simpl. apply list_lookup_insert_eq.
    rewrite length_app. simpl. lia. }
  assert (objs σ1 = objs σ) as Ho1 by done.
  eapply (relocate_n_Ok _ l) in Hrel1
    as (cd2 & Hnb2 & Hlen2 & Hcd2 & Hout2 & _ & Ho2 & _);
    [|done|exact Hsrc|exact Hnb1].
  eapply grow_commit in Hrun as [Hnb' Ho'];
    [|by rewrite Ho2, Ho1|exact Hnb2| |exact Hdtor].
  2:{ eapply owns_in_old_blocks; [done|]. by subst nb. }
  rewrite length_insert, length_replicate in Hlen2. simpl in *.
  exists x. split; [by exists (world σ), w'|]. split; [done|]. split.
  - rewrite Hnb'. do 2 f_equal. rewrite <-inserted_end.
    apply cells_of_inserted; try done.
    + intros j Hj. destruct (lookup_lt_is_Some_2 l j) as [y Hy]; [lia|].
      rewrite Hy. by apply (Hcd2 j).
    + rewrite Hout2 by lia. rewrite Hs.
      apply list_lookup_insert_eq. rewrite length_replicate. lia.
    + intros j. lia.
    + intros j Hj Hj'. rewrite Hout2 by lia.
      rewrite list_lookup_insert_ne by lia. apply lookup_replicate_2. lia.
  - rewrite Ho'. by f_equal.
Qed.

Lemma try_catch_rethrow_Ok {A} (m : M A) (c : M unit) σ a σ' :
  try_catch m (λ e, c;; throw e) σ = (Ok a, σ') → m σ = (Ok a, σ').
Proof. apply on_unwind_Ok. Qed.

(** What a successful [Emplace] does.  With spare capacity the storage of
    the vector stays; without, the vector moves to a block allocated by the
    call, of the capacity the growth policy gives. *)
Lemma Emplace_spec σ this v l k ctor σ' it :
  objs σ !! this = Some v →
  owns σ v l →
  k ≤ length l →
  Emplace this (ptr_add (begin_ v) k) ctor σ = (Ok it, σ') →
  ∃ x v', constructed_by ctor x ∧
    objs σ' !! this = Some v' ∧
    owns σ' v' (inserted k x l) ∧
    size_ v' = S (size_ v) ∧
    it = ptr_add (begin_ v') k ∧
    (size_ v < capacity_ (data_ v) → data_ v' = data_ v) ∧
    (capacity_ (data_ v) ≤ size_ v →
       data_ v' = mkRawMemory (Ptr (length (heap σ)) 0) (grown (size_ v))).
Proof.
  intros Hv Hown Hk Hrun. pose proof Hown as (Hs & Hl & _).
  unfold Emplace in Hrun.
  apply bind_Ok in Hrun as (v0 & σ0 & H0 & Hrun).
  apply get_obj_Ok in H0 as [Hv0 ->].
  rewrite Hv in Hv0. injection Hv0 as <-.
  apply bind_Ok in Hrun as (position & σ0 & H0 & Hrun).
  rewrite (owns_begin_add _ _ _ _ Hown) in H0 by lia.
  injection H0 as <- <-.
  apply bind_Ok in Hrun as ([] & σ1 & Hbody & Hrun).
  apply bind_Ok in Hrun as ([] & σ2 & Hsize & Hrun).
  apply bind_Ok in Hrun as (v' & σ3 & Hv' & [= <- <-]).
  apply get_obj_Ok in Hv' as [Hv' ->].
  unfold RawMemory_Capacity in Hbody.
  assert (∃ x d, constructed_by ctor x ∧
    objs σ1 = <[this := mkVector d (size_ v)]> (objs σ) ∧
    owns σ1 (mkVector d (S (size_ v))) (inserted k x l) ∧
    (size_ v < capacity_ (data_ v) → d = data_ v) ∧
    (capacity_ (data_ v) ≤ size_ v →
       d = mkRawMemory (Ptr (length (heap σ)) 0) (grown (size_ v))))
    as (x & d & Hx & Ho1 & Hown1 & Hd1 & Hd2).
  { case_decide as Hspare.
    - apply try_catch_rethrow_Ok in Hbody.
      destruct (owns_block _ _ _ Hown) as (b & Hbuf & Hb); [lia|].
      assert (∃ x, constructed_by ctor x ∧
        heap σ1 !! b = Some (Some (cells_of (inserted k x l)
                                            (capacity_ (data_ v)))) ∧
        objs σ1 = objs σ) as (x & Hx & Hb1 & Ho1).
      { unfold begin_, end_, RawMemory_plus, GetAddress in Hbody.
        rewrite Hbuf, Hs in Hbody. simpl in Hbody. case_decide as Hpos.
        - injection Hpos as ->.
          apply (emplace_at_end_Ok _ _ _ _ _ _ Hb) in Hbody
            as (x & Hx & _ & Hb1 & Ho1). by exists x.
        - assert (k < length l) as Hlt.
          { destruct (decide (k = length l)) as [->|]; [done|lia]. }
          apply (emplace_in_middle_Ok _ _ _ _ _ _ _ Hb Hlt) in Hbody
            as (x & Hx & _ & Hb1 & Ho1). by exists x. }
      exists x, (data_ v). split; [done|]. split_and!.
      + rewrite Ho1. symmetry. apply insert_id. rewrite Hv. by destruct v.
      + unfold owns. simpl. rewrite inserted_length, Hbuf. split_and!; try done; lia.
      + done.
      + lia.
    - apply (grow_emplace_Ok _ _ _ _ _ _ _ Hv Hown Hk) in Hbody
        as (x & Hx & _ & Hnb & Ho1).
      exists x, (mkRawMemory (Ptr (length (heap σ)) 0) (grown (size_ v))).
      split; [done|]. split; [done|]. split_and!.
      + unfold owns. simpl. rewrite inserted_length. split_and!; try done; try lia.
        unfold grown. case_decide; lia.
      + lia.
      + done. }
  apply (set_size_Ok _ _ _ _ (mkVector d (size_ v))) in Hsize as ->;
    [|by rewrite Ho1, lookup_insert_eq].
  simpl in Hv'. rewrite lookup_insert_eq in Hv'. injection Hv' as <-.
  exists x, (mkVector d (S (size_ v))). simpl.
  rewrite lookup_insert_eq. by split_and!.
Qed.

(** What a successful [PushBack] does. *)
Lemma PushBack_spec σ this v l ctor σ' :
  objs σ !! this = Some v →
  owns σ v l →
  PushBack this ctor σ = (Ok tt, σ') →
  ∃ x v', constructed_by ctor x ∧
    objs σ' !! this = Some v' ∧
    owns σ' v' (l ++ [x]) ∧
    size_ v' = S (size_ v) ∧
    (size_ v < capacity_ (data_ v) → data_ v' = data_ v) ∧
    (capacity_ (data_ v) ≤ size_ v →
       data_ v' = mkRawMemory (Ptr (length (heap σ)) 0) (grown (size_ v))).
Proof.
  intros Hv Hown Hrun. pose proof Hown as (Hs & Hl & _).
  unfold PushBack in Hrun.
  apply bind_Ok in Hrun as (v0 & σ0 & H0 & Hrun).
  apply get_obj_Ok in H0 as [Hv0 ->].
  rewrite Hv in Hv0. injection Hv0 as <-.
  apply bind_Ok in Hrun as ([] & σ1 & Hbody & Hsize).
  unfold RawMemory_Capacity in Hbody.
  assert (∃ x d, constructed_by ctor x ∧
    objs σ1 = <[this := mkVector d (size_ v)]> (objs σ) ∧
    owns σ1 (mkVector d (S (size_ v))) (l ++ [x]) ∧
    (size_ v < capacity_ (data_ v) → d = data_ v) ∧
    (capacity_ (data_ v) ≤ size_ v →
       d = mkRawMemory (Ptr (length (heap σ)) 0) (grown (size_ v))))
    as (x & d & Hx & Ho1 & Hown1 & Hd1 & Hd2).
  { case_decide as Hfull.
    - apply (grow_push_Ok _ _ _ _ _ _ Hv Hown) in Hbody
        as (x & Hx & _ & Hnb & Ho1).
      exists x, (mkRawMemory (Ptr (length (heap σ)) 0) (grown (size_ v))).
      split; [done|]. split; [done|]. split_and!.
      + unfold owns. simpl. rewrite length_app. simpl.
        split_and!; try done; try lia. unfold grown. case_decide; lia.
      + lia.
      + done.
    - destruct (owns_block _ _ _ Hown) as (b & Hbuf & Hb); [lia|].
      unfold GetAddress in Hbody. rewrite Hbuf, Hs in Hbody. simpl in Hbody.
      apply (emplace_at_end_Ok _ _ _ _ _ _ Hb) in Hbody
        as (x & Hx & _ & Hb1 & Ho1).
      rewrite inserted_end in Hb1.
      exists x, (data_ v). split; [done|]. split_and!.
      + rewrite Ho1. symmetry. apply insert_id. rewrite Hv. by destruct v.
      + unfold owns. simpl. rewrite length_app, Hbuf. simpl.
        split_and!; try done; lia.
      + done.
      + lia. }
  apply (set_size_Ok _ _ _ _ (mkVector d (size_ v))) in Hsize as ->;
    [|by rewrite Ho1, lookup_insert_eq].
  exists x, (mkVector d (S (size_ v))). simpl.
  rewrite lookup_insert_eq. by split_and!.
Qed.

Lemma grown_max n : grown n = 1 `max` (2 * n).
Proof. unfold grown. case_decide; lia. Qed.

(** What a successful growth does. *)
Lemma growth_spec σ this v l ctor σ' :
  objs σ !! this = Some v →
  owns σ v l →
  size_ v = capacity_ (data_ v) →
  (PushBack this ctor σ = (Ok tt, σ') →
   ∃ x v', constructed_by ctor x ∧ objs σ' !! this = Some v' ∧
     capacity_ (data_ v') = 1 `max` (2 * length l) ∧
     size_ v' = S (length l) ∧
     owns σ' v' (l ++ [x])) ∧
  (∀ it, EmplaceBack this ctor σ = (Ok it, σ') →
   ∃ x v', constructed_by ctor x ∧ objs σ' !! this = Some v' ∧
     capacity_ (data_ v') = 1 `max` (2 * length l) ∧
     size_ v' = S (length l) ∧
     owns σ' v' (l ++ [x])) ∧
  (∀ k it, k ≤ length l →
   Emplace this (ptr_add (begin_ v) k) ctor σ = (Ok it, σ') →
   ∃ x v', constructed_by ctor x ∧ objs σ' !! this = Some v' ∧
     capacity_ (data_ v') = 1 `max` (2 * length l) ∧
     size_ v' = S (length l) ∧
     owns σ' v' (take k l ++ x :: drop k l)).
Proof.
  intros Hv Hown Hfull. pose proof Hown as (Hs & _).
  assert (∀ k it, k ≤ length l →
   Emplace this (ptr_add (begin_ v) k) ctor σ = (Ok it, σ') →
   ∃ x v', constructed_by ctor x ∧ objs σ' !! this = Some v' ∧
     capacity_ (data_ v') = 1 `max` (2 * length l) ∧
     size_ v' = S (length l) ∧
     owns σ' v' (take k l ++ x :: drop k l)) as HE.
  { intros k it Hk Hrun.
    destruct (Emplace_spec _ _ _ _ _ _ _ _ Hv Hown Hk Hrun)
      as (x & v' & Hx & Hv' & Hown' & Hs' & _ & _ & Hd).
    exists x, v'. rewrite Hd by lia. simpl. rewrite grown_max, <-Hs.
    by split_and!. }
  split_and!; [|clear HE|done].
  - intros Hrun.
    destruct (PushBack_spec _ _ _ _ _ _ Hv Hown Hrun)
      as (x & v' & Hx & Hv' & Hown' & Hs' & _ & Hd).
    exists x, v'. rewrite Hd by lia. simpl. rewrite grown_max, <-Hs.
    by split_and!.
  - intros it Hrun. unfold EmplaceBack in Hrun.
    apply bind_Ok in Hrun as (v0 & σ0 & H0 & Hrun).
    apply get_obj_Ok in H0 as [Hv0 ->].
    rewrite Hv in Hv0. injection Hv0 as <-.
    assert (length l ≤ length l) as Hk by done. rewrite <-Hs in Hk at 1.
    unfold end_ in Hrun. rewrite Hs in Hrun, Hk.
    destruct (Emplace_spec _ _ _ _ _ _ _ _ Hv Hown Hk Hrun)
      as (x & v' & Hx & Hv' & Hown' & Hs' & _ & _ & Hd).
    exists x, v'. rewrite Hd by lia. simpl. rewrite grown_max, <-Hs.
    rewrite inserted_end in Hown'. by split_and!.
Qed.

(** *** Copies into another block *)

Lemma copy_assign_step bs so bd dof :
  bs ≠ bd →
  relocation_step bs so bd dof
    (λ i, copy_assign_at (Ptr bd (dof + i)) (Ptr bs (so + i))).
Proof.
  intros Hne i σ σ' cd cs Hbd Hbs Hrun. unfold copy_assign_at in Hrun.
  apply bind_Ok in Hrun as (s & σ1 & H1 & Hrun).
  apply load_Ok in H1 as (-> & b1 & j1 & cs1 & [= <- <-] & Hb1 & Hj).
  rewrite Hbs in Hb1. injection Hb1 as <-.
  apply bind_Ok in Hrun as (d & σ1 & H1 & Hrun).
  apply load_Ok in H1 as (-> & b1 & i1 & cs1 & [= <- <-] & Hb1 & Hi).
  rewrite Hbd in Hb1. injection Hb1 as <-.
  apply bind_Ok in Hrun as (d' & σ1 & H1 & Hrun).
  apply run_elem_Ok in H1 as (w' & Hw & ->).
  apply copy_assign_value in Hw as ->.
  apply store_Ok in Hrun as (b1 & i1 & cs1 & [= <- <-] & Hb1 & Hlt & ->).
  simpl in Hb1. rewrite Hbd in Hb1. injection Hb1 as <-. simpl.
  exists s, cs. split_and!; try done.
  - by apply (heap_insert_lookup _ _ _ _ Hbd).
  - by rewrite list_lookup_insert_ne.
  - by rewrite length_insert.
Qed.

(** A loop whose steps bring the objects [xs] at [first] to the slots from
    [dof] on of block [bd]. *)
Lemma cross_loop_Ok first xs n bd dof (step : nat → M unit) σ σ' cd :
  (∀ bs so, first = Ptr bs so → bs ≠ bd → relocation_step bs so bd dof step) →
  length xs = n →
  source_of σ first xs bd →
  heap σ !! bd = Some (Some cd) →
  for_loop step 0 n σ = (Ok tt, σ') →
  ∃ cd', heap σ' !! bd = Some (Some cd') ∧ length cd' = length cd ∧
    (∀ i x, xs !! i = Some x → cd' !! (dof + i) = Some (Some x)) ∧
    (∀ k, k < dof ∨ dof + n ≤ k → cd' !! k = cd !! k) ∧
    objs σ' = objs σ ∧ destroyed σ' = destroyed σ ∧
    length (heap σ') = length (heap σ).
Proof.
  intros Hstep Hlen Hsrc Hbd Hrun. destruct first as [|bs so].
  - simpl in Hsrc. subst xs. simpl in Hlen. subst n.
    injection Hrun as <-. exists cd. by split_and!.
  - destruct Hsrc as (Hne & cs & Hbs & Hxs).
    apply (relocation_loop_Ok _ _ _ _ _ _ _ _ _ _
             (Hstep _ _ eq_refl Hne) Hbd Hbs) in Hrun
      as (cd' & cs' & Hbd' & Hld & _ & _ & Hdone & Hd & _ & Ho & Hde & Hlh).
    exists cd'. split_and!; try done.
    intros i x Hi. assert (i < n) as Hin.
    { rewrite <-Hlen. by eapply lookup_lt_Some. }
    destruct (Hdone i Hin) as [_ ->]. by apply Hxs.
Qed.

Lemma destroy_n_Ok b off n σ σ' cs :
  heap σ !! b = Some (Some cs) →
  destroy_n (Ptr b off) n σ = (Ok tt, σ') →
  ∃ cs', heap σ' !! b = Some (Some cs') ∧ length cs' = length cs ∧
    (∀ k, off ≤ k → k < off + n → cs' !! k = Some None) ∧
    (∀ k, k < off ∨ off + n ≤ k → cs' !! k = cs !! k) ∧
    objs σ' = objs σ ∧ length (heap σ') = length (heap σ).
Proof.
  intros Hb Hrun. unfold destroy_n in Hrun.
  apply (for_loop_Ok (λ n s, ∃ cs',
    heap s !! b = Some (Some cs') ∧ length cs' = length cs ∧
    (∀ k, off ≤ k → k < off + n → cs' !! k = Some None) ∧
    (∀ k, k < off ∨ off + n ≤ k → cs' !! k = cs !! k) ∧
    objs s = objs σ ∧ length (heap s) = length (heap σ))) in Hrun; [done|..].
  - intros i s s' _ (cs' & Hbs & Hlen & Hin & Hout & Ho & Hlh) Hstep.
    simpl in Hstep.
    apply (destroy_at_Ok _ _ _ _ _ Hbs) in Hstep as (x & Hx & ->).
    apply lookup_lt_Some in Hx. simpl.
    exists (<[off + i := None]> cs'). rewrite !length_insert.
    split_and!; try done.
    + by apply (heap_insert_lookup _ _ _ _ Hbs).
    + intros k Hk Hk'. destruct (decide (k = off + i)) as [->|].
      * by apply list_lookup_insert_eq.
      * rewrite list_lookup_insert_ne by lia. apply Hin; lia.
    + intros k Hk. rewrite list_lookup_insert_ne by lia. apply Hout. lia.
  - exists cs. split_and!; try done. intros k. lia.
Qed.

Lemma mem_only_copy_assign_at B dst src :
  in_blocks B dst → mem_only B (copy_assign_at dst src).
Proof.
  intros HB. apply mem_only_bind; [apply mem_only_load|]. intros x.
  apply mem_only_bind; [apply mem_only_load|]. intros d.
  apply mem_only_bind; [apply mem_only_run_elem|]. intros d'.
  by apply mem_only_store.
Qed.

Lemma mem_only_ptr_diff B a c : mem_only B (ptr_diff a c).
Proof.
  unfold ptr_diff. destruct a, c; try apply mem_only_undefined.
  - apply mem_only_ret.
  - case_decide; [apply mem_only_ret|apply mem_only_undefined].
Qed.

Lemma mem_only_std_copy B first last d_first :
  in_blocks B d_first → mem_only B (std_copy first last d_first).
Proof.
  intros HB. apply mem_only_bind; [apply mem_only_ptr_diff|]. intros n.
  apply mem_only_for_loop. intros i.
  by apply mem_only_copy_assign_at, in_blocks_add.
Qed.

Lemma owns_source_separate σ o lo bd :
  owns σ o lo →
  (∀ bo io, buffer_ (data_ o) = Ptr bo io → bo ≠ bd) →
  source_of σ (begin_ o) lo bd.
Proof.
  intros (Hs & Hl & Hbuf) Hsep. unfold begin_, GetAddress.
  destruct (buffer_ (data_ o)) as [|b i]; simpl.
  - destruct lo; [done|simpl in *; lia].
  - destruct Hbuf as [-> Hb]. split; [by eapply Hsep|].
    eexists. split; [done|]. intros i x Hi. by apply cells_of_lookup_lt.
Qed.

Lemma source_of_frame (B : nat → Prop) σ σ' first xs bd :
  frame B σ σ' →
  (∀ bs so, first = Ptr bs so → ¬ B bs) →
  source_of σ first xs bd → source_of σ' first xs bd.
Proof.
  intros (_ & _ & Hfr) HB. destruct first as [|bs so]; simpl; [done|].
  intros (Hne & cs & Hbs & Hxs). split; [done|]. exists cs. split; [|done].
  rewrite Hfr; [done|by eapply HB|by eapply lookup_lt_Some].
Qed.

(** The two loops of [CopyVector] on the block of the target. *)
Lemma CopyVector_block b cap l lo first σ σ1 σ2 :
  heap σ !! b = Some (Some (cells_of l cap)) →
  length l ≤ cap →
  length lo ≤ cap →
  source_of σ first lo b →
  for_loop (λ i, copy_assign_at (ptr_add (Ptr b 0) i) (ptr_add first i))
           0 (length l `min` length lo) σ = (Ok tt, σ1) →
  (if decide (length l ≤ length lo) then
     uninitialized_copy_n (ptr_add first (length l)) (length lo - length l)
                          (ptr_add (Ptr b 0) (length l))
   else
     destroy_n (ptr_add (Ptr b 0) (length lo)) (length l - length lo)) σ1
    = (Ok tt, σ2) →
  heap σ2 !! b = Some (Some (cells_of lo cap)) ∧
  length (heap σ2) = length (heap σ).
Proof.
  intros Hb Hl Hlo Hsrc Hcopy Hrest.
  assert (frame (λ b', b' = b) σ σ1) as Hfr1.
  { eapply mem_only_for_loop; [|exact Hcopy]. intros i.
    by apply mem_only_copy_assign_at. }
  eapply (cross_loop_Ok first (take (length l `min` length lo) lo)) in Hcopy
    as (cd1 & Hb1 & Hlen1 & Hin1 & Hout1 & _ & _ & Hlh1);
    [| |rewrite length_take; lia|by apply source_of_take|exact Hb].
  2:{ intros bs so -> Hne. by apply copy_assign_step. }
  rewrite cells_of_length in Hlen1 by done.
  assert (∀ i, i < length l `min` length lo → cd1 !! i = Some <$> lo !! i)
    as Hlow.
  { intros i Hi. destruct (lookup_lt_is_Some_2 lo i) as [x Hx]; [lia|].
    rewrite Hx. apply (Hin1 i). by rewrite lookup_take_lt. }
  case_decide as Hcmp.
  - unfold uninitialized_copy_n in Hrest.
    eapply (cross_loop_Ok (ptr_add first (length l)) (drop (length l) lo))
      in Hrest as (cd2 & Hb2 & Hlen2 & Hin2 & Hout2 & _ & _ & Hlh2);
      [| |rewrite length_drop; lia| |exact Hb1].
    2:{ intros bs so Hfirst Hne. destruct first as [|bs' so']; [done|].
        injection Hfirst as -> <-. by apply copy_relocation_step. }
    2:{ eapply (source_of_frame _ _ _ _ _ _ Hfr1).
        - intros bs so Hfirst ->. destruct first as [|bs' so']; [done|].
          injection Hfirst as -> _. by destruct Hsrc.
        - by apply source_of_drop. }
    split; [|congruence]. rewrite Hb2. do 2 f_equal.
    apply cells_of_eq; [congruence|done|..].
    + intros j x Hj. assert (j < length lo) by (by eapply lookup_lt_Some).
      destruct (decide (j < length l)).
      * rewrite Hout2 by (simpl; lia). rewrite Hlow by lia. by rewrite Hj.
      * replace j with (0 + length l + (j - length l)) at 1 by lia.
        apply Hin2. rewrite lookup_drop, <-Hj. f_equal. lia.
    + intros j Hj Hj'. rewrite Hout2 by (simpl; lia).
      rewrite Hout1 by lia. apply cells_of_lookup_ge; lia.
  - apply (destroy_n_Ok _ _ _ _ _ _ Hb1) in Hrest
      as (cd2 & Hb2 & Hlen2 & Hin2 & Hout2 & _ & Hlh2).
    split; [|congruence]. rewrite Hb2. do 2 f_equal.
    apply cells_of_eq; [congruence|done|..].
    + intros j x Hj. assert (j < length lo) by (by eapply lookup_lt_Some).
      rewrite Hout2 by (simpl; lia). rewrite Hlow by lia. by rewrite Hj.
    + intros j Hj Hj'. destruct (decide (j < length l)).
      * apply Hin2; simpl; lia.
      * rewrite Hout2 by (simpl; lia). rewrite Hout1 by lia.
        apply cells_of_lookup_ge; lia.
Qed.

(** [CopyVector] when the source fits: the storage of the target is
    reused, nothing is allocated, and the source is as it was. *)
Lemma CopyVector_Ok this other v o l lo σ σ' :
  objs σ !! this = Some v →
  objs σ !! other = Some o →
  owns σ v l →
  owns σ o lo →
  separate v o →
  length lo ≤ capacity_ (data_ v) →
  CopyVector this other σ = (Ok tt, σ') →
  objs σ' = <[this := mkVector (data_ v) (length lo)]> (objs σ) ∧
  owns σ' (mkVector (data_ v) (length lo)) lo ∧
  owns σ' o lo ∧
  length (heap σ') = length (heap σ).
Proof.
  intros Hv Ho Hown Howno Hsep Hfit Hrun.
  pose proof Hown as (Hs & Hl & Hbuf). pose proof Howno as (Hso & Hlo & Hbufo).
  unfold CopyVector in Hrun.
  apply bind_Ok in Hrun as (v0 & σ0 & H0 & Hrun).
  apply get_obj_Ok in H0 as [Hv0 ->]. rewrite Hv in Hv0. injection Hv0 as <-.
  apply bind_Ok in Hrun as (o0 & σ0 & H0 & Hrun).
  apply get_obj_Ok in H0 as [Ho0 ->]. rewrite Ho in Ho0. injection Ho0 as <-.
  apply bind_Ok in Hrun as ([] & σ1 & Hcopy & Hrun).
  apply bind_Ok in Hrun as ([] & σ2 & Hrest & Hsize).
  (* the source is out of reach of both loops *)
  set (B := λ b', buffer_ (data_ v) = Ptr b' 0).
  assert (in_blocks B (GetAddress (data_ v))) as HinB.
  { unfold GetAddress. destruct (buffer_ (data_ v)) as [|b i] eqn:Hb; [done|].
    destruct Hbuf as [-> _]. by unfold B. }
  assert (∀ bo io, buffer_ (data_ o) = Ptr bo io → ¬ B bo) as HoB.
  { intros bo io Hbo HB. by eapply Hsep. }
  assert (frame B σ σ1) as Hfr1.
  { eapply mem_only_std_copy; [exact HinB|exact Hcopy]. }
  assert (frame B σ1 σ2) as Hfr2.
  { case_decide.
    - eapply mem_only_uninitialized_copy_n; [|exact Hrest].
      by apply in_blocks_add.
    - eapply mem_only_destroy_n; [|exact Hrest]. by apply in_blocks_add. }
  pose proof (frame_trans _ _ _ _ Hfr1 Hfr2) as Hfr.
  assert (owns σ2 o lo) as Howno2.
  { eapply owns_frame; [exact Hfr| |done].
    destruct (buffer_ (data_ o)) as [|bo io] eqn:Hbo; [by right|left].
    simpl. by eapply HoB. }
  assert (objs σ2 = objs σ) as Ho2 by (by destruct Hfr).
  apply (set_size_Ok _ _ _ _ v) in Hsize as ->; [|by rewrite Ho2].
  rewrite Hso, Hs in *. simpl. rewrite Ho2.
  split; [done|].
  unfold std_copy in Hcopy.
  apply bind_Ok in Hcopy as (c & σ0 & H0 & Hcopy).
  rewrite ptr_diff_add in H0
    by (unfold GetAddress; intros Hn; rewrite Hn in Hbufo; lia).
  injection H0 as <- <-.
  unfold owns. simpl. unfold GetAddress in *.
  destruct (buffer_ (data_ v)) as [|b i] eqn:Hb.
  - assert (length l = 0) as Hl0 by lia. assert (length lo = 0) as Hlo0 by lia.
    rewrite Hl0, Hlo0 in *. simpl in Hcopy. injection Hcopy as <-.
    simpl in Hrest. injection Hrest as <-.
    destruct Howno2 as (? & ? & ?). by split_and!.
  - destruct Hbuf as [-> Hcells].
    destruct (CopyVector_block _ _ _ _ _ _ _ _ Hcells Hl Hfit
                (owns_source_separate _ _ _ _ Howno
                   (λ bo io Hbo (Heq : bo = b), HoB bo io Hbo
                      (eq_ind_r (λ z, Ptr b 0 = Ptr z 0) eq_refl Heq)))
                Hcopy Hrest) as [Hb2 Hlh].
    destruct Howno2 as (? & ? & ?). by split_and!.
Qed.

(** *** Copy construction and copy-and-swap *)

Lemma bind_Throw {A C} (m : M A) (k : A → M C) σ e σ' :
  bind m k σ = (Throw e, σ') →
  m σ = (Throw e, σ') ∨ ∃ a σ1, m σ = (Ok a, σ1) ∧ k a σ1 = (Throw e, σ').
Proof.
  unfold bind. destruct (m σ) as [[a|e1|] σ1]; intros Hk; try done.
  - right. by exists a, σ1.
  - left. by injection Hk as <- <-.
Qed.

Lemma owns_old_block σ σ' v l :
  frame (λ b, length (heap σ) ≤ b) σ σ' → owns σ v l → owns σ' v l.
Proof.
  intros Hfr Hown. eapply owns_frame; [exact Hfr| |done].
  destruct Hown as (_ & _ & Hbuf).
  destruct (buffer_ (data_ v)) as [|b i]; [by right|left].
  destruct Hbuf as [_ Hb]. apply lookup_lt_Some in Hb. simpl. lia.
Qed.

(** The copy constructor touches no block that was there before, and when
    it does not return it leaves no object behind. *)
Lemma Vector_copy_ctor_frame c other σ r σ' :
  Vector_copy_ctor c other σ = (r, σ') →
  length (heap σ) ≤ length (heap σ') ∧
  (∀ b, b < length (heap σ) → heap σ' !! b = heap σ !! b) ∧
  (r ≠ Ok tt → objs σ' = objs σ).
Proof.
  intros Hrun. unfold Vector_copy_ctor in Hrun.
  unfold bind at 1 in Hrun. unfold get_obj in Hrun.
  destruct (objs σ !! other) as [o|]; [|by injection Hrun as <- <-].
  unfold bind at 1 in Hrun.
  destruct (RawMemory_ctor (size_ o) σ) as [[data|e|] σ1] eqn:Hdata.
  - assert (frame (λ b, length (heap σ) ≤ b) σ σ1 ∧
            in_blocks (λ b, length (heap σ) ≤ b) (GetAddress data))
      as [Hfr1 Hin].
    { apply RawMemory_ctor_Ok in Hdata as [(_ & -> & ->)|(_ & _ & -> & ->)].
      - split; [apply frame_refl|done].
      - split; [|simpl; lia].
        split_and!; simpl; [done|rewrite length_app; lia|].
        intros b _ Hb. by apply lookup_app_l. }
    unfold bind at 1 in Hrun.
    match type of Hrun with
      match ?m σ1 with _ => _ end = _ => destruct (m σ1) as [[[]|e|] σ2] eqn:Hfill
    end.
    + apply (mem_only_on_unwind (λ b, length (heap σ) ≤ b)) in Hfill;
        [|by apply mem_only_uninitialized_copy_n
         |by apply mem_only_operator_delete].
      injection Hrun as <- <-. simpl.
      destruct (frame_trans _ _ _ _ Hfr1 Hfill) as (_ & Hlh & Hh).
      split_and!; [done| |done]. intros b Hb. apply Hh; lia.
    + apply (mem_only_on_unwind (λ b, length (heap σ) ≤ b)) in Hfill;
        [|by apply mem_only_uninitialized_copy_n
         |by apply mem_only_operator_delete].
      injection Hrun as <- <-.
      destruct (frame_trans _ _ _ _ Hfr1 Hfill) as (Ho & Hlh & Hh).
      split_and!; [done| |done]. intros b Hb. apply Hh; lia.
    + apply (mem_only_on_unwind (λ b, length (heap σ) ≤ b)) in Hfill;
        [|by apply mem_only_uninitialized_copy_n
         |by apply mem_only_operator_delete].
      injection Hrun as <- <-.
      destruct (frame_trans _ _ _ _ Hfr1 Hfill) as (Ho & Hlh & Hh).
      split_and!; [done| |done]. intros b Hb. apply Hh; lia.
  - injection Hrun as <- <-.
    unfold RawMemory_ctor, Allocate, bind, operator_new, ret in Hdata.
    repeat case_match; by simplify_eq.
  - injection Hrun as <- <-.
    unfold RawMemory_ctor, Allocate, bind, operator_new, ret in Hdata.
    repeat case_match; by simplify_eq.
Qed.

(** What a successful copy construction gives. *)
Lemma Vector_copy_ctor_Ok c other o lo σ σ' :
  objs σ !! other = Some o →
  owns σ o lo →
  Vector_copy_ctor c other σ = (Ok tt, σ') →
  ∃ d, objs σ' = <[c := mkVector d (length lo)]> (objs σ) ∧
    owns σ' (mkVector d (length lo)) lo ∧
    capacity_ d = length lo ∧
    (lo ≠ [] → buffer_ d = Ptr (length (heap σ)) 0 ∧
               length (heap σ') = S (length (heap σ))).
Proof.
  intros Ho Hown Hrun. pose proof Hown as (Hs & Hl & _).
  unfold Vector_copy_ctor in Hrun.
  apply bind_Ok in Hrun as (o0 & σ0 & H0 & Hrun).
  apply get_obj_Ok in H0 as [Ho0 ->]. rewrite Ho in Ho0. injection Ho0 as <-.
  apply bind_Ok in Hrun as (data & σ1 & Hdata & Hrun).
  apply bind_Ok in Hrun as ([] & σ2 & Hfill & [= <-]).
  apply on_unwind_Ok in Hfill. rewrite Hs in *.
  apply RawMemory_ctor_Ok in Hdata as [(Hn & -> & ->)|(Hn & _ & -> & ->)].
  - destruct lo; [|done]. simpl in Hfill. injection Hfill as <-.
    exists (mkRawMemory nullptr 0). simpl. split; [done|].
    split; [by split_and!|]. by split.
  - set (nb := length (heap σ)) in *. unfold uninitialized_copy_n in Hfill.
    eapply (cross_loop_Ok (GetAddress (data_ o)) lo _ nb 0) in Hfill
      as (cd & Hnb & Hlen & Hin & Hout & Ho2 & _ & Hlh);
      [| |done| |simpl; apply lookup_new_block].
    2:{ intros bs so Hfirst Hne. simpl. rewrite Hfirst.
        by apply copy_relocation_step. }
    2:{ eapply owns_source; [done|done|]. intros b Hb. simpl.
        by apply lookup_app_l. }
    rewrite length_replicate in Hlen.
    (* every element was copied into the block, so it has room for all *)
    assert (room (length lo) = length lo) as Hroom.
    { apply room_full.
      destruct (lookup_lt_is_Some_2 lo (length lo - 1)) as [y Hy]; [lia|].
      apply Hin, lookup_lt_Some in Hy. lia. }
    rewrite Hroom in *.
    exists (mkRawMemory (Ptr nb 0) (length lo)). simpl.
    split; [by rewrite Ho2|]. split; [|split; [done|]].
    + unfold owns. simpl. split_and!; try done. rewrite Hnb. do 2 f_equal.
      apply cells_of_eq; [done|done| |].
      * intros j x Hj. by apply (Hin j).
      * intros j Hj Hj'. lia.
    + intros _. split; [done|]. rewrite Hlh. simpl.
      rewrite length_app. simpl. lia.
Qed.

Lemma operator_delete_Ok p σ σ' :
  operator_delete p σ = (Ok tt, σ') →
  length (heap σ') = length (heap σ) ∧ objs σ' = objs σ.
Proof.
  unfold operator_delete. intros Hrun.
  repeat case_match; simplify_eq; try done. simpl.
  by rewrite length_insert.
Qed.

(** What a successful destructor does: the heap keeps its blocks other
    than the one of the vector, and the object is gone. *)
Lemma Vector_dtor_Ok c w l σ σ' :
  objs σ !! c = Some w →
  owns σ w l →
  Vector_dtor c σ = (Ok tt, σ') →
  objs σ' = delete c (objs σ) ∧
  length (heap σ') = length (heap σ) ∧
  (∀ b, buffer_ (data_ w) ≠ Ptr b 0 → heap σ' !! b = heap σ !! b).
Proof.
  intros Hc Hown Hrun. pose proof Hown as (Hs & Hl & Hbuf).
  unfold Vector_dtor in Hrun.
  apply bind_Ok in Hrun as (w0 & σ0 & H0 & Hrun).
  apply get_obj_Ok in H0 as [Hc0 ->]. rewrite Hc in Hc0. injection Hc0 as <-.
  apply bind_Ok in Hrun as ([] & σ1 & Hdestroy & Hrun).
  apply bind_Ok in Hrun as ([] & σ2 & Hfree & [= <-]).
  set (B := λ b, buffer_ (data_ w) = Ptr b 0).
  assert (in_blocks B (GetAddress (data_ w))) as HinB.
  { unfold GetAddress. destruct (buffer_ (data_ w)) as [|b i]; [done|].
    destruct Hbuf as [-> _]. by unfold B. }
  pose proof (mem_only_destroy_n B _ _ HinB _ _ _ Hdestroy) as (Ho1 & Hl1 & Hh1).
  unfold RawMemory_dtor, Deallocate in Hfree.
  pose proof (mem_only_operator_delete B _ HinB _ _ _ Hfree) as (Ho2 & Hl2 & Hh2).
  apply operator_delete_Ok in Hfree as [Hlen2 _].
  assert (length (heap σ1) = length (heap σ)) as Hlen1.
  { unfold GetAddress in Hdestroy.
    destruct (buffer_ (data_ w)) as [|b i].
    - assert (size_ w = 0) as Hs0 by lia. rewrite Hs0 in Hdestroy.
      by injection Hdestroy as <-.
    - destruct Hbuf as [-> Hb].
      by apply (destroy_n_Ok _ _ _ _ _ _ Hb) in Hdestroy
        as (_ & _ & _ & _ & _ & _ & ?). }
  simpl. split_and!; [congruence|congruence|].
  intros b Hb. destruct (decide (b < length (heap σ))).
  - rewrite Hh2, Hh1; [done|by intros ?|done|by intros ?|lia].
  - rewrite !(proj2 (lookup_ge_None _ _)); [done|lia..].
Qed.

(** Copy assignment when the source does not fit: a copy is built in a
    block of its own and becomes the storage of the target; the old storage
    goes with the temporary. *)
Lemma copy_and_swap_Ok this other v o l lo σ σ' :
  this ≠ other →
  objs σ !! this = Some v →
  objs σ !! other = Some o →
  owns σ v l →
  owns σ o lo →
  separate v o →
  capacity_ (data_ v) < length lo →
  with_local_Vector (λ other_copy, Vector_copy_ctor other_copy other)
                    (λ other_copy, Swap this other_copy) σ = (Ok tt, σ') →
  objs σ' = <[this := mkVector (mkRawMemory (Ptr (length (heap σ)) 0)
                                            (length lo)) (length lo)]>
              (objs σ) ∧
  owns σ' (mkVector (mkRawMemory (Ptr (length (heap σ)) 0) (length lo))
                    (length lo)) lo ∧
  owns σ' o lo ∧
  length (heap σ') = S (length (heap σ)).
Proof.
  intros Hne Hv Ho Hown Howno Hsep Hbig Hrun.
  pose proof Hown as (Hs & Hl & Hbuf).
  unfold with_local_Vector in Hrun.
  set (loc := fresh (dom (objs σ))) in *.
  assert (objs σ !! loc = None) as Hloc.
  { apply not_elem_of_dom. apply is_fresh. }
  assert (loc ≠ this) as Hlt by (intros Heq; by rewrite Heq, Hv in Hloc).
  assert (loc ≠ other) as Hlo by (intros Heq; by rewrite Heq, Ho in Hloc).
  apply bind_Ok in Hrun as ([] & σ1 & Hcopy & Hrun).
  apply bind_Ok in Hrun as ([] & σ2 & Hswap & Hrun).
  apply on_unwind_Ok in Hswap.
  apply bind_Ok in Hrun as ([] & σ3 & Hdtor & [= <-]).
  pose proof (Vector_copy_ctor_frame _ _ _ _ _ Hcopy) as (_ & Hold & _).
  apply (Vector_copy_ctor_Ok _ _ _ _ _ _ Ho Howno) in Hcopy
    as (d & Ho1 & Hown1 & Hcap & Hd).
  destruct Hd as [Hd Hlen1]; [by destruct lo; [simpl in *; lia|]|].
  destruct d as [buf cap]. simpl in Hcap, Hd. subst buf cap.
  (* Swap *)
  unfold Swap in Hswap. rewrite decide_True in Hswap by done.
  apply bind_Ok in Hswap as (v1 & σ0 & H0 & Hswap).
  apply get_obj_Ok in H0 as [Hv1 ->].
  rewrite Ho1, lookup_insert_ne, Hv in Hv1 by done. injection Hv1 as <-.
  apply bind_Ok in Hswap as (c1 & σ0 & H0 & Hswap).
  apply get_obj_Ok in H0 as [Hc1 ->].
  rewrite Ho1, lookup_insert_eq in Hc1. injection Hc1 as <-.
  apply bind_Ok in Hswap as ([] & σ0 & [= <-] & [= <-]). simpl in Hdtor.
  (* the temporary takes the old elements with it *)
  eapply (Vector_dtor_Ok _ _ l) in Hdtor as (Ho3 & Hlen3 & Hh3);
    [|simpl; apply lookup_insert_eq|].
  2:{ destruct Hown as (? & ? & Hb). split_and!; [done..|]. simpl in *.
      destruct (buffer_ (data_ v)) as [|b i]; [done|].
      destruct Hb as [-> Hb]. split; [done|]. rewrite Hold; [done|].
      by eapply lookup_lt_Some. }
  simpl in *. split_and!.
  - rewrite Ho3, Ho1, delete_insert_eq, delete_insert_ne by done.
    by rewrite delete_insert_id.
  - destruct Hown1 as (? & ? & _ & Hb). split_and!; [done..|]. simpl in *.
    rewrite Hh3; [done|]. intros Heq.
    destruct (buffer_ (data_ v)) as [|b i]; [done|].
    destruct Hbuf as [_ Hb']. apply lookup_lt_Some in Hb'.
    injection Heq as -> _. lia.
  - destruct Howno as (? & ? & Hb). split_and!; [done..|].
    destruct (buffer_ (data_ o)) as [|bo io] eqn:Hbo; [done|].
    destruct Hb as [-> Hb]. split; [done|].
    rewrite Hh3, Hold; [done|by eapply lookup_lt_Some|].
    intros Heq. by eapply Hsep.
  - congruence.
Qed.

(** What copy assignment does, in its two cases. *)
Lemma copy_assignment_cases σ this other v o l lo :
  this ≠ other →
  objs σ !! this = Some v →
  objs σ !! other = Some o →
  owns σ v l →
  owns σ o lo →
  separate v o →
  (∀ σ', copy_assignment this other σ = (Ok tt, σ') →
     ∃ v', objs σ' = <[this := v']> (objs σ) ∧
       owns σ' v' lo ∧ owns σ' o lo ∧
       if decide (length lo ≤ capacity_ (data_ v))
       then data_ v' = data_ v ∧ length (heap σ') = length (heap σ)
       else data_ v' = mkRawMemory (Ptr (length (heap σ)) 0) (length lo) ∧
            length (heap σ') = S (length (heap σ))) ∧
  (∀ e σ', capacity_ (data_ v) < length lo →
     Vector_copy_ctor (fresh (dom (objs σ))) other σ = (Throw e, σ') →
     copy_assignment this other σ = (Throw e, σ') ∧
     objs σ' = objs σ ∧ owns σ' v l ∧ owns σ' o lo).
Proof.
  intros Hne Hv Ho Hown Howno Hsep.
  pose proof Howno as (Hso & _).
  assert (∀ r σ', copy_assignment this other σ = (r, σ') →
    if decide (length lo ≤ capacity_ (data_ v))
    then CopyVector this other σ = (r, σ')
    else with_local_Vector (λ other_copy, Vector_copy_ctor other_copy other)
                           (λ other_copy, Swap this other_copy) σ = (r, σ'))
    as Hbranch.
  { intros r σ'. unfold copy_assignment. rewrite decide_True by done.
    unfold bind, get_obj. rewrite Hv, Ho. unfold RawMemory_Capacity.
    rewrite Hso. by case_decide. }
  split.
  - intros σ' Hrun. apply Hbranch in Hrun. case_decide as Hfit.
    + destruct (CopyVector_Ok _ _ _ _ _ _ _ _ Hv Ho Hown Howno Hsep Hfit Hrun)
        as (Ho' & Hown' & Howno' & Hlen).
      by exists (mkVector (data_ v) (length lo)).
    + apply (copy_and_swap_Ok _ _ _ _ _ _ _ _ Hne Hv Ho Hown Howno Hsep) in Hrun
        as (Ho' & Hown' & Howno' & Hlen); [|lia].
      by eexists.
  - intros e σ' Hbig Hthrow.
    destruct (Vector_copy_ctor_frame _ _ _ _ _ Hthrow) as (Hlh & Hold & Hobjs).
    assert (frame (λ b, length (heap σ) ≤ b) σ σ') as Hfr.
    { split_and!; [by apply Hobjs|done|]. intros b _ Hb. by apply Hold. }
    split_and!.
    + unfold copy_assignment. rewrite decide_True by done.
      unfold bind at 1. unfold get_obj at 1. rewrite Hv.
      unfold bind at 1. unfold get_obj at 1. rewrite Ho.
      unfold RawMemory_Capacity. rewrite decide_False by lia.
      unfold with_local_Vector. unfold bind at 1. by rewrite Hthrow.
    + by apply Hobjs.
    + by eapply owns_old_block.
    + by eapply owns_old_block.
Qed.

End lawful.

(** *** Operations that return

    With an element type that does not throw, every step finds what it
    needs and the operations return.  Only the shape of the blocks matters
    here: which slots there are and which of them are live. *)

Section nothrow.
Context {N : Nothrow T W}.

Lemma bind_run {A C} (m : M A) (k : A → M C) σ a σ1 :
  m σ = (Ok a, σ1) → bind m k σ = k a σ1.
Proof. intros Hm. unfold bind. by rewrite Hm. Qed.

Lemma on_unwind_run {A} (m : M A) c σ a σ1 :
  m σ = (Ok a, σ1) → on_unwind m c σ = (Ok a, σ1).
Proof. intros Hm. unfold on_unwind, try_catch. by rewrite Hm. Qed.

Lemma run_elem_run {A} (op : W → W * option A) σ :
  is_Some (op (world σ)).2 →
  ∃ a w', run_elem op σ = (Ok a, set_world w' σ).
Proof.
  intros [a Ha]. unfold run_elem.
  destruct (op (world σ)) as [w' o]. simpl in Ha. subst o. by exists a, w'.
Qed.

Lemma load_run σ b i cs x :
  heap σ !! b = Some (Some cs) → cs !! i = Some (Some x) →
  load (Ptr b i) σ = (Ok x, σ).
Proof. intros Hb Hi. unfold load. by rewrite Hb, Hi. Qed.

Lemma store_run σ b i cs s :
  heap σ !! b = Some (Some cs) → i < length cs →
  store (Ptr b i) s σ
    = (Ok tt, set_heap (<[b := Some (<[i := s]> cs)]> (heap σ)) σ).
Proof. intros Hb Hi. unfold store. by rewrite Hb, decide_True. Qed.

Lemma live_insert (cs : list (option T)) i x k :
  live cs k → live (<[i := Some x]> cs) k.
Proof.
  intros [y Hy]. destruct (decide (i = k)) as [->|].
  - exists x. apply list_lookup_insert_eq. by eapply lookup_lt_Some.
  - exists y. by rewrite list_lookup_insert_ne.
Qed.

Lemma live_lt (cs : list (option T)) k : live cs k → k < length cs.
Proof. intros [x Hx]. by eapply lookup_lt_Some. Qed.

Lemma construct_at_run b i ctor σ cs :
  heap σ !! b = Some (Some cs) → i < length cs → never_throws ctor →
  ∃ x w', construct_at (Ptr b i) ctor σ
    = (Ok tt, set_heap (<[b := Some (<[i := Some x]> cs)]> (heap σ))
                       (set_world w' σ)).
Proof.
  intros Hb Hi Hctor. unfold construct_at.
  destruct (run_elem_run ctor σ (Hctor _)) as (x & w' & Hx).
  exists x, w'. rewrite (bind_run _ _ _ _ _ Hx).
  by apply (store_run (set_world w' σ)).
Qed.

Lemma destroy_at_run b i σ cs :
  heap σ !! b = Some (Some cs) → live cs i →
  ∃ x, destroy_at (Ptr b i) σ
    = (Ok tt, set_heap (<[b := Some (<[i := None]> cs)]> (heap σ))
                       (log_destroyed x σ)).
Proof.
  intros Hb [x Hx]. exists x. unfold destroy_at.
  rewrite (bind_run _ _ _ _ _ (load_run _ _ _ _ _ Hb Hx)).
  unfold bind at 1.
  apply (store_run (log_destroyed x σ)); [done|by eapply lookup_lt_Some].
Qed.

(** A loop returns when every step does, from every state that the steps
    before it can leave. *)
Lemma for_loop_run (I : nat → state T W → Prop) (body : nat → M unit) n :
  ∀ start σ,
  (∀ i s, start ≤ i < start + n → I i s →
          ∃ s', body i s = (Ok tt, s') ∧ I (S i) s') →
  I start σ →
  ∃ σ', for_loop body start n σ = (Ok tt, σ') ∧ I (start + n) σ'.
Proof.
  induction n as [|n IH]; intros start σ Hstep HI; simpl.
  - exists σ. by rewrite Nat.add_0_r.
  - destruct (Hstep start σ) as (σ1 & H1 & HI1); [lia|done|].
    rewrite (bind_run _ _ _ _ _ H1).
    replace (start + S n) with (S start + n) by lia.
    apply IH; [|done]. intros i s Hi. apply Hstep. lia.
Qed.

Lemma keeps_live_refl σ : keeps_live σ σ.
Proof. split; [done|]. intros b cs Hb. by exists cs. Qed.

Lemma keeps_live_trans σ1 σ2 σ3 :
  keeps_live σ1 σ2 → keeps_live σ2 σ3 → keeps_live σ1 σ3.
Proof.
  intros [Ho1 H1] [Ho2 H2]. split; [congruence|]. intros b cs Hb.
  destruct (H1 _ _ Hb) as (cs' & Hb' & Hl' & Hk').
  destruct (H2 _ _ Hb') as (cs'' & Hb'' & Hl'' & Hk'').
  exists cs''. split_and!; [done|congruence|]. intros k Hk. by apply Hk'', Hk'.
Qed.

Lemma keeps_blocks_refl σ : keeps_blocks σ σ.
Proof. split; [done|]. intros b cs Hb. by exists cs. Qed.

Lemma keeps_blocks_trans σ1 σ2 σ3 :
  keeps_blocks σ1 σ2 → keeps_blocks σ2 σ3 → keeps_blocks σ1 σ3.
Proof.
  intros [Ho1 H1] [Ho2 H2]. split; [congruence|]. intros b cs Hb.
  destruct (H1 _ _ Hb) as (cs' & Hb' & Hl').
  destruct (H2 _ _ Hb') as (cs'' & Hb'' & Hl'').
  exists cs''. split; [done|congruence].
Qed.

Lemma keeps_live_blocks σ σ' : keeps_live σ σ' → keeps_blocks σ σ'.
Proof.
  intros [Ho H]. split; [done|]. intros b cs Hb.
  destruct (H _ _ Hb) as (cs' & Hb' & Hl' & _). by exists cs'.
Qed.

Lemma is_live_keeps σ σ' p : keeps_live σ σ' → is_live σ p → is_live σ' p.
Proof.
  intros [_ H]. destruct p as [|b i]; [done|]. intros (cs & Hb & Hi).
  destruct (H _ _ Hb) as (cs' & Hb' & _ & Hk). exists cs'. split; [done|].
  by apply Hk.
Qed.

Lemma has_slot_keeps σ σ' p : keeps_blocks σ σ' → has_slot σ p → has_slot σ' p.
Proof.
  intros [_ H]. destruct p as [|b i]; [done|]. intros (cs & Hb & Hi).
  destruct (H _ _ Hb) as (cs' & Hb' & Hl). exists cs'. split; [done|lia].
Qed.

Lemma is_live_has_slot σ p : is_live σ p → has_slot σ p.
Proof.
  destruct p as [|b i]; [done|]. intros (cs & Hb & Hi). exists cs.
  split; [done|]. by apply live_lt.
Qed.

(** Writing a live object into a slot keeps every block and every live
    slot. *)
Lemma keeps_live_write σ b cs i x :
  heap σ !! b = Some (Some cs) →
  keeps_live σ (set_heap (<[b := Some (<[i := Some x]> cs)]> (heap σ)) σ).
Proof.
  intros Hb. split; [done|]. intros b' cs' Hb'. simpl.
  destruct (decide (b' = b)) as [->|].
  - rewrite Hb in Hb'. injection Hb' as <-.
    exists (<[i := Some x]> cs). rewrite (heap_insert_lookup _ _ _ _ Hb).
    split_and!; [done|by rewrite length_insert|]. intros k. apply live_insert.
  - exists cs'. by rewrite list_lookup_insert_ne.
Qed.

Lemma keeps_live_world σ w : keeps_live σ (set_world w σ).
Proof. split; [done|]. intros b cs Hb. by exists cs. Qed.

Lemma construct_at_keeps p ctor σ :
  has_slot σ p → never_throws ctor →
  ∃ σ', construct_at p ctor σ = (Ok tt, σ') ∧ keeps_live σ σ'.
Proof.
  destruct p as [|b i]; [done|]. intros (cs & Hb & Hi) Hctor.
  destruct (construct_at_run _ _ _ _ _ Hb Hi Hctor) as (x & w' & Hrun).
  eexists. split; [exact Hrun|].
  eapply keeps_live_trans; [apply (keeps_live_world σ w')|].
  by apply (keeps_live_write (set_world w' σ)).
Qed.

Lemma copy_construct_at_keeps p src σ :
  has_slot σ p → is_live σ src →
  ∃ σ', copy_construct_at p src σ = (Ok tt, σ') ∧ keeps_live σ σ'.
Proof.
  intros Hp Hsrc. destruct src as [|bs j]; [done|].
  destruct Hsrc as (cs & Hbs & x & Hx). unfold copy_construct_at.
  rewrite (bind_run _ _ _ _ _ (load_run _ _ _ _ _ Hbs Hx)).
  apply construct_at_keeps; [done|]. intros w. apply copy_construct_returns.
Qed.

Lemma move_construct_at_keeps p src σ :
  has_slot σ p → is_live σ src →
  ∃ σ', move_construct_at p src σ = (Ok tt, σ') ∧ keeps_live σ σ'.
Proof.
  intros Hp Hsrc. destruct src as [|bs j]; [done|].
  destruct Hsrc as (cs & Hbs & x & Hx). unfold move_construct_at.
  rewrite (bind_run _ _ _ _ _ (load_run _ _ _ _ _ Hbs Hx)).
  destruct (run_elem_run (move_construct x) σ (move_construct_returns _ _))
    as ([y r] & w' & Hrun).
  rewrite (bind_run _ _ _ _ _ Hrun). simpl.
  rewrite (bind_run _ _ _ _ _ (store_run (set_world w' σ) _ _ _ _ Hbs
                                 (lookup_lt_Some _ _ _ Hx))).
  match goal with |- ∃ _, store _ _ ?s = _ ∧ _ => set (σ1 := s) end.
  assert (keeps_live σ σ1) as H1.
  { eapply keeps_live_trans; [apply (keeps_live_world σ w')|].
    by apply (keeps_live_write (set_world w' σ)). }
  apply (has_slot_keeps _ _ _ (keeps_live_blocks _ _ H1)) in Hp.
  destruct p as [|b i]; [done|]. destruct Hp as (cd & Hbd & Hi).
  rewrite (store_run _ _ _ _ _ Hbd Hi). eexists. split; [done|].
  eapply keeps_live_trans; [exact H1|]. by apply keeps_live_write.
Qed.

Lemma copy_assign_at_keeps dst src σ :
  is_live σ dst → is_live σ src →
  ∃ σ', copy_assign_at dst src σ = (Ok tt, σ') ∧ keeps_live σ σ'.
Proof.
  intros Hdst Hsrc. destruct src as [|bs j]; [done|].
  destruct dst as [|bd i]; [done|].
  destruct Hsrc as (cs & Hbs & x & Hx). destruct Hdst as (cd & Hbd & d & Hd).
  unfold copy_assign_at.
  rewrite (bind_run _ _ _ _ _ (load_run _ _ _ _ _ Hbs Hx)).
  rewrite (bind_run _ _ _ _ _ (load_run _ _ _ _ _ Hbd Hd)).
  destruct (run_elem_run (copy_assign d x) σ (copy_assign_returns _ _ _))
    as (d' & w' & Hrun).
  rewrite (bind_run _ _ _ _ _ Hrun).
  rewrite (store_run (set_world w' σ) _ _ _ _ Hbd (lookup_lt_Some _ _ _ Hd)).
  eexists. split; [done|].
  eapply keeps_live_trans; [apply (keeps_live_world σ w')|].
  by apply (keeps_live_write (set_world w' σ)).
Qed.

Lemma move_assign_at_keeps dst src σ :
  is_live σ dst → is_live σ src →
  ∃ σ', move_assign_at dst src σ = (Ok tt, σ') ∧ keeps_live σ σ'.
Proof.
  intros Hdst Hsrc. destruct src as [|bs j]; [done|].
  destruct Hsrc as (cs & Hbs & x & Hx). unfold move_assign_at.
  rewrite (bind_run _ _ _ _ _ (load_run _ _ _ _ _ Hbs Hx)).
  destruct dst as [|bd i]; [done|]. pose proof Hdst as (cd & Hbd & d & Hd).
  rewrite (bind_run _ _ _ _ _ (load_run _ _ _ _ _ Hbd Hd)).
  destruct (run_elem_run (move_assign d x) σ (move_assign_returns _ _ _))
    as ([d' r] & w' & Hrun).
  rewrite (bind_run _ _ _ _ _ Hrun). simpl.
  rewrite (bind_run _ _ _ _ _ (store_run (set_world w' σ) _ _ _ _ Hbs
                                 (lookup_lt_Some _ _ _ Hx))).
  match goal with |- ∃ _, store _ _ ?s = _ ∧ _ => set (σ1 := s) end.
  assert (keeps_live σ σ1) as H1.
  { eapply keeps_live_trans; [apply (keeps_live_world σ w')|].
    by apply (keeps_live_write (set_world w' σ)). }
  apply (is_live_keeps _ _ _ H1), is_live_has_slot in Hdst.
  destruct Hdst as (cd1 & Hbd1 & Hi).
  rewrite (store_run _ _ _ _ _ Hbd1 Hi). eexists. split; [done|].
  eapply keeps_live_trans; [exact H1|]. by apply keeps_live_write.
Qed.

Lemma move_assign_from_keeps dst x σ :
  is_live σ dst →
  ∃ r σ', move_assign_from dst x σ = (Ok r, σ') ∧ keeps_live σ σ'.
Proof.
  intros Hdst. destruct dst as [|bd i]; [done|].
  destruct Hdst as (cd & Hbd & d & Hd). unfold move_assign_from.
  rewrite (bind_run _ _ _ _ _ (load_run _ _ _ _ _ Hbd Hd)).
  destruct (run_elem_run (move_assign d x) σ (move_assign_returns _ _ _))
    as ([d' r] & w' & Hrun).
  rewrite (bind_run _ _ _ _ _ Hrun). simpl.
  rewrite (bind_run _ _ _ _ _ (store_run (set_world w' σ) _ _ _ _ Hbd
                                 (lookup_lt_Some _ _ _ Hd))).
  eexists _, _. split; [done|].
  eapply keeps_live_trans; [apply (keeps_live_world σ w')|].
  by apply (keeps_live_write (set_world w' σ)).
Qed.

(** A loop of steps each of which keeps what is live. *)
Lemma loop_keeps_live (body : nat → M unit) n σ :
  (∀ i s, i < n → keeps_live σ s →
          ∃ s', body i s = (Ok tt, s') ∧ keeps_live s s') →
  ∃ σ', for_loop body 0 n σ = (Ok tt, σ') ∧ keeps_live σ σ'.
Proof.
  intros Hstep.
  destruct (for_loop_run (λ _ s, keeps_live σ s) body n 0 σ)
    as (σ' & Hrun & Hk); [|apply keeps_live_refl|by exists σ'].
  intros i s Hi Hs. destruct (Hstep i s) as (s' & Hs' & Hk'); [lia|done|].
  exists s'. split; [done|]. by eapply keeps_live_trans.
Qed.

Lemma uninitialized_value_construct_n_fill first n σ :
  never_throws value_construct →
  (∀ i, i < n → has_slot σ (ptr_add first i)) →
  ∃ σ', uninitialized_value_construct_n first n σ = (Ok tt, σ') ∧
        keeps_live σ σ'.
Proof.
  intros Hctor Hpre. apply loop_keeps_live. intros i s Hi Hs.
  destruct (construct_at_keeps (ptr_add first i) value_construct s)
    as (s' & Hrun & Hk).
  - eapply has_slot_keeps; [by apply keeps_live_blocks|by apply Hpre].
  - done.
  - exists s'. split; [|done]. by apply on_unwind_run.
Qed.

Lemma uninitialized_value_construct_n_keeps first n σ :
  (∀ i, i < n → has_slot σ (ptr_add first i)) →
  ∃ σ', uninitialized_value_construct_n first n σ = (Ok tt, σ') ∧
        keeps_live σ σ'.
Proof.
  apply uninitialized_value_construct_n_fill.
  intros w. apply value_construct_returns.
Qed.

Lemma uninitialized_copy_n_keeps first n d_first σ :
  (∀ i, i < n → is_live σ (ptr_add first i) ∧ has_slot σ (ptr_add d_first i)) →
  ∃ σ', uninitialized_copy_n first n d_first σ = (Ok tt, σ') ∧ keeps_live σ σ'.
Proof.
  intros Hpre. apply loop_keeps_live. intros i s Hi Hs.
  destruct (Hpre i Hi) as [Hsrc Hdst].
  destruct (copy_construct_at_keeps (ptr_add d_first i) (ptr_add first i) s)
    as (s' & Hrun & Hk).
  - eapply has_slot_keeps; [by apply keeps_live_blocks|done].
  - by eapply is_live_keeps.
  - exists s'. split; [|done]. by apply on_unwind_run.
Qed.

Lemma uninitialized_move_n_keeps first n d_first σ :
  (∀ i, i < n → is_live σ (ptr_add first i) ∧ has_slot σ (ptr_add d_first i)) →
  ∃ σ', uninitialized_move_n first n d_first σ = (Ok tt, σ') ∧ keeps_live σ σ'.
Proof.
  intros Hpre. apply loop_keeps_live. intros i s Hi Hs.
  destruct (Hpre i Hi) as [Hsrc Hdst].
  destruct (move_construct_at_keeps (ptr_add d_first i) (ptr_add first i) s)
    as (s' & Hrun & Hk).
  - eapply has_slot_keeps; [by apply keeps_live_blocks|done].
  - by eapply is_live_keeps.
  - exists s'. split; [|done]. by apply on_unwind_run.
Qed.

Lemma relocate_n_keeps first n d_first σ :
  (∀ i, i < n → is_live σ (ptr_add first i) ∧ has_slot σ (ptr_add d_first i)) →
  ∃ σ', relocate_n first n d_first σ = (Ok tt, σ') ∧ keeps_live σ σ'.
Proof.
  intros Hpre. unfold relocate_n. destruct (_ || _).
  - by apply uninitialized_move_n_keeps.
  - by apply uninitialized_copy_n_keeps.
Qed.

Lemma std_copy_keeps first last d_first n σ :
  (ptr_diff last first : M nat) = ret n →
  (∀ i, i < n → is_live σ (ptr_add first i) ∧ is_live σ (ptr_add d_first i)) →
  ∃ σ', std_copy first last d_first σ = (Ok tt, σ') ∧ keeps_live σ σ'.
Proof.
  intros Hn Hpre. unfold std_copy. rewrite Hn.
  rewrite (bind_run _ _ _ n σ eq_refl).
  apply loop_keeps_live. intros i s Hi Hs. destruct (Hpre i Hi).
  apply copy_assign_at_keeps; by eapply is_live_keeps.
Qed.

Lemma std_move_keeps first last d_first n σ :
  (ptr_diff last first : M nat) = ret n →
  (∀ i, i < n → is_live σ (ptr_add first i) ∧ is_live σ (ptr_add d_first i)) →
  ∃ σ', std_move first last d_first σ = (Ok tt, σ') ∧ keeps_live σ σ'.
Proof.
  intros Hn Hpre. unfold std_move. rewrite Hn.
  rewrite (bind_run _ _ _ n σ eq_refl).
  apply loop_keeps_live. intros i s Hi Hs. destruct (Hpre i Hi).
  apply move_assign_at_keeps; by eapply is_live_keeps.
Qed.

Lemma std_move_backward_keeps first last d_last n σ :
  (ptr_diff last first : M nat) = ret n →
  (∀ j, j < n → is_live σ (ptr_sub last (S j)) ∧
                is_live σ (ptr_sub d_last (S j))) →
  ∃ σ', std_move_backward first last d_last σ = (Ok tt, σ') ∧ keeps_live σ σ'.
Proof.
  intros Hn Hpre. unfold std_move_backward. rewrite Hn.
  rewrite (bind_run _ _ _ n σ eq_refl).
  apply loop_keeps_live. intros i s Hi Hs. destruct (Hpre i Hi).
  apply move_assign_at_keeps; by eapply is_live_keeps.
Qed.

Lemma destroy_n_keeps p n σ :
  (∀ i, i < n → is_live σ (ptr_add p i)) →
  ∃ σ', destroy_n p n σ = (Ok tt, σ') ∧ keeps_blocks σ σ'.
Proof.
  intros Hpre. unfold destroy_n.
  destruct (for_loop_run
    (λ i s, keeps_blocks σ s ∧ ∀ j, i ≤ j → j < n → is_live s (ptr_add p j))
    (λ i, destroy_at (ptr_add p i)) n 0 σ) as (σ' & Hrun & Hk & _).
  - intros i s Hi [Hk Hlive].
    pose proof (Hlive i (le_n _) ltac:(lia)) as Hi'.
    destruct p as [|b o]; [done|]. destruct Hi' as (cs & Hb & Hli).
    destruct (destroy_at_run _ _ _ _ Hb Hli) as (x & Hrun).
    eexists. split; [exact Hrun|]. split.
    + eapply keeps_blocks_trans; [exact Hk|]. split; [done|].
      intros b' cs' Hb'. simpl. destruct (decide (b' = b)) as [->|].
      * rewrite Hb in Hb'. injection Hb' as <-. eexists.
        rewrite (heap_insert_lookup _ _ _ _ Hb). split; [done|].
        by rewrite length_insert.
      * exists cs'. by rewrite list_lookup_insert_ne.
    + intros j Hj Hj'. destruct (Hlive j ltac:(lia) Hj') as (cs1 & Hb1 & y & Hy).
      simpl in *. rewrite Hb in Hb1. injection Hb1 as <-.
      eexists. rewrite (heap_insert_lookup _ _ _ _ Hb). split; [done|].
      exists y. by rewrite list_lookup_insert_ne by lia.
  - split; [apply keeps_blocks_refl|]. intros j _ Hj. by apply Hpre.
  - by exists σ'.
Qed.

Lemma operator_delete_run p σ :
  (∀ b i, p = Ptr b i → i = 0 ∧ ∃ cs, heap σ !! b = Some (Some cs)) →
  ∃ σ', operator_delete p σ = (Ok tt, σ') ∧ objs σ' = objs σ.
Proof.
  intros Hp. destruct p as [|b i]; simpl; [by exists σ|].
  destruct (Hp _ _ eq_refl) as (-> & cs & Hb). rewrite Hb. by eexists.
Qed.

(** On the machine of [Nothrow] no byte count wraps. *)
Lemma every_count_fits n : fits n.
Proof. unfold fits, bytes_of, to_size_t. by rewrite size_t_unbounded. Qed.

Lemma RawMemory_ctor_granted n σ :
  (n ≠ 0 → can_allocate n (world σ) = true) →
  ∃ r σ', RawMemory_ctor n σ = (Ok r, σ').
Proof.
  intros Hc. unfold RawMemory_ctor, Allocate, bind, operator_new, ret.
  case_decide as Hn.
  - fold (can_allocate n (world σ)). rewrite (Hc Hn). by eexists _, _.
  - by eexists _, _.
Qed.

Lemma RawMemory_ctor_run n σ :
  ∃ r σ', RawMemory_ctor n σ = (Ok r, σ').
Proof. apply RawMemory_ctor_granted. intros _. apply can_allocate_always. Qed.

Lemma get_obj_run this σ v :
  objs σ !! this = Some v → get_obj this σ = (Ok v, σ).
Proof. intros Hv. unfold get_obj. by rewrite Hv. Qed.

Lemma set_size_run this n σ v :
  objs σ !! this = Some v →
  set_size this n σ
    = (Ok tt, set_objs (<[this := mkVector (data_ v) n]> (objs σ)) σ).
Proof. intros Hv. unfold set_size, bind, get_obj, put_obj. by rewrite Hv. Qed.

(** Where the elements of a vector are, and where its free slots. *)
Lemma owns_is_live σ v l i :
  owns σ v l → i < length l → is_live σ (ptr_add (begin_ v) i).
Proof.
  intros Hown Hi. pose proof Hown as (_ & Hl & _).
  destruct (owns_block _ _ _ Hown) as (b & Hbuf & Hb); [lia|].
  unfold begin_, GetAddress. rewrite Hbuf. simpl. eexists. split; [done|].
  destruct (lookup_lt_is_Some_2 l i Hi) as [x Hx]. exists x.
  by apply cells_of_lookup_lt.
Qed.

Lemma owns_has_slot σ v l i :
  owns σ v l → i < capacity_ (data_ v) → has_slot σ (ptr_add (begin_ v) i).
Proof.
  intros Hown Hi. pose proof Hown as (_ & Hl & _).
  destruct (owns_block _ _ _ Hown) as (b & Hbuf & Hb); [lia|].
  unfold begin_, GetAddress. rewrite Hbuf. simpl. eexists. split; [done|].
  by rewrite cells_of_length.
Qed.

Lemma owns_deletable σ σ' v l :
  owns σ v l →
  (∀ b cs, heap σ !! b = Some (Some cs) →
           ∃ cs', heap σ' !! b = Some (Some cs')) →
  ∀ b i, buffer_ (data_ v) = Ptr b i →
         i = 0 ∧ ∃ cs, heap σ' !! b = Some (Some cs).
Proof.
  intros (_ & _ & Hbuf) Hk b i Hp. rewrite Hp in Hbuf.
  destruct Hbuf as [-> Hb]. split; [done|]. by eapply Hk.
Qed.

Lemma keeps_blocks_allocated σ σ' b cs :
  keeps_blocks σ σ' → heap σ !! b = Some (Some cs) →
  ∃ cs', heap σ' !! b = Some (Some cs').
Proof. intros [_ Hk] Hb. destruct (Hk _ _ Hb) as (cs' & Hb' & _). by exists cs'. Qed.

Lemma returns_bind {A C} (m : M A) (k : A → M C) σ a σ1 :
  m σ = (Ok a, σ1) → returns (k a) σ1 → returns (bind m k) σ.
Proof. intros Hm Hk. unfold returns. by rewrite (bind_run _ _ _ _ _ Hm). Qed.

Lemma returns_ret {A} (a : A) σ : returns (ret a : M A) σ.
Proof. by exists a, σ. Qed.

Lemma ptr_diff_adds p a c :
  c ≤ a → (p = nullptr → a = c) →
  (ptr_diff (ptr_add p a) (ptr_add p c) : M nat) = ret (a - c).
Proof.
  intros Hle Hp. destruct p as [|b i]; simpl.
  - rewrite Hp by done. by rewrite Nat.sub_diag.
  - rewrite decide_True by (split; [done|lia]). f_equal. lia.
Qed.

Lemma ptr_sub_add p n k : k ≤ n → ptr_sub (ptr_add p n) k = ptr_add p (n - k).
Proof. intros Hk. destruct p as [|b i]; simpl; [done|]. f_equal. lia. Qed.

Lemma owns_not_null σ v l : owns σ v l → 0 < length l →
  begin_ v = nullptr → False.
Proof.
  intros Hown Hl Hnull. pose proof Hown as (_ & Hle & _).
  destruct (owns_block _ _ _ Hown) as (b & Hbuf & _); [lia|].
  unfold begin_, GetAddress in Hnull. congruence.
Qed.

Lemma destroy_at_keeps p σ :
  is_live σ p → ∃ σ', destroy_at p σ = (Ok tt, σ') ∧ keeps_blocks σ σ'.
Proof.
  intros Hp. destruct (destroy_n_keeps p 1 σ) as (σ' & Hrun & Hk).
  - intros i Hi. assert (i = 0) as -> by lia. by rewrite ptr_add_0.
  - exists σ'. split; [|done]. unfold destroy_n in Hrun. simpl in Hrun.
    rewrite ptr_add_0 in Hrun. unfold bind in Hrun.
    by destruct (destroy_at p σ) as [[[]|e|] σ1]; simplify_eq.
Qed.

(** [Erase] at a valid position returns. *)
Lemma Erase_returns σ this v l k :
  objs σ !! this = Some v →
  owns σ v l →
  k < length l →
  returns (Erase this (ptr_add (begin_ v) k)) σ.
Proof.
  intros Hv Hown Hk. pose proof Hown as (Hs & Hl & _). unfold Erase.
  eapply returns_bind; [by apply get_obj_run|].
  rewrite (owns_begin_add _ _ _ _ Hown) by lia.
  eapply returns_bind; [done|].
  destruct (std_move_keeps (ptr_add (ptr_add (begin_ v) k) 1) (end_ v)
              (ptr_add (begin_ v) k) (size_ v - (k + 1)) σ)
    as (σ1 & Hmove & Hk1).
  { unfold end_. fold (begin_ v). rewrite ptr_add_add.
    apply ptr_diff_adds; [lia|]. intros Hn. exfalso.
    eapply owns_not_null; [done|lia|done]. }
  { intros i Hi. rewrite !ptr_add_add.
    split; eapply owns_is_live; done || lia. }
  eapply returns_bind; [exact Hmove|].
  destruct (destroy_at_keeps (ptr_sub (end_ v) 1) σ1) as (σ2 & Hdel & Hk2).
  { eapply is_live_keeps; [exact Hk1|]. unfold end_. fold (begin_ v).
    rewrite ptr_sub_add by lia. eapply owns_is_live; [done|lia]. }
  eapply returns_bind; [exact Hdel|].
  assert (objs σ2 !! this = Some v) as Hv2.
  { destruct Hk1 as [Ho1 _]. destruct Hk2 as [Ho2 _]. by rewrite Ho2, Ho1. }
  eapply returns_bind; [by apply set_size_run|].
  eapply returns_bind; [apply get_obj_run; simpl; apply lookup_insert_eq|].
  apply returns_ret.
Qed.

(** [Vector(n)] returns when the byte count of [n] elements does not wrap,
    [operator new] gives the block, and [T()] does not throw. *)
Lemma Vector_ctor_size_run σ this n :
  fits n →
  can_allocate n (world σ) = true →
  never_throws value_construct →
  returns (Vector_ctor_size this n) σ.
Proof.
  intros Hfits Hc Hctor. unfold Vector_ctor_size.
  destruct (RawMemory_ctor_granted n σ) as (data & σ1 & Hdata); [done|].
  eapply returns_bind; [exact Hdata|].
  destruct (uninitialized_value_construct_n_fill (GetAddress data) n σ1)
    as (σ2 & Hfill & _); [done| |].
  { intros i Hi.
    apply RawMemory_ctor_Ok in Hdata as [(-> & _)|(_ & _ & -> & ->)]; [lia|].
    simpl. eexists. split; [apply lookup_new_block|].
    by rewrite length_replicate, fits_room. }
  eapply returns_bind; [by apply on_unwind_run|].
  by eexists _, _.
Qed.

(** [Vector(n)] returns. *)
Lemma Vector_ctor_size_returns σ this n :
  returns (Vector_ctor_size this n) σ.
Proof.
  apply Vector_ctor_size_run.
  - apply every_count_fits.
  - apply can_allocate_always.
  - intros w. apply value_construct_returns.
Qed.

Lemma with_new_data_run n (body : RawMemory → M RawMemory) σ nd σ1 nd' σ2 σ3 :
  RawMemory_ctor n σ = (Ok nd, σ1) →
  body nd σ1 = (Ok nd', σ2) →
  RawMemory_dtor nd' σ2 = (Ok tt, σ3) →
  with_new_data n body σ = (Ok tt, σ3).
Proof.
  intros Hctor Hbody Hdtor. unfold with_new_data.
  rewrite (bind_run _ _ _ _ _ Hctor).
  by rewrite (bind_run _ _ _ _ _ (on_unwind_run _ _ _ _ _ Hbody)).
Qed.

Lemma keeps_live_alloc σ c :
  keeps_live σ (set_heap (heap σ ++ [c]) σ).
Proof.
  split; [done|]. intros b cs Hb. exists cs. simpl.
  rewrite lookup_app_l by (by eapply lookup_lt_Some). done.
Qed.

(** The allocation of the block a growth relocates into: the block has a
    slot for every index below its capacity, and what was live is live. *)
Lemma grow_alloc σ n :
  n ≠ 0 →
  ∃ σ1, RawMemory_ctor n σ
          = (Ok (mkRawMemory (Ptr (length (heap σ)) 0) n), σ1) ∧
    keeps_live σ σ1 ∧
    ∀ i, i < n → has_slot σ1 (Ptr (length (heap σ)) i).
Proof.
  intros Hn. destruct (RawMemory_ctor_run n σ) as (nd & σ1 & Hctor).
  pose proof Hctor as Hctor'.
  apply RawMemory_ctor_Ok in Hctor' as [(-> & _)|(_ & _ & -> & ->)]; [done|].
  eexists. split; [exact Hctor|]. split; [apply keeps_live_alloc|].
  intros i Hi. simpl. eexists. split; [apply lookup_new_block|].
  by rewrite length_replicate, fits_room by apply every_count_fits.
Qed.

(** The end of a growth returns. *)
Lemma grow_commit_returns this v l nd σ0 σ :
  owns σ0 v l →
  keeps_live σ0 σ →
  objs σ0 !! this = Some v →
  ∃ nd' σ' σ'',
    (destroy_n (GetAddress (data_ v)) (size_ v);; swap_data this nd) σ
      = (Ok nd', σ') ∧
    RawMemory_dtor nd' σ' = (Ok tt, σ'') ∧
    objs σ'' !! this = Some (mkVector (mkRawMemory (buffer_ nd) (capacity_ nd))
                                      (size_ v)).
Proof.
  intros Hown Hk Hv. pose proof Hown as (Hs & _).
  destruct (destroy_n_keeps (GetAddress (data_ v)) (size_ v) σ)
    as (σ1 & Hdestroy & Hk1).
  { intros i Hi. eapply is_live_keeps; [exact Hk|].
    eapply owns_is_live; [done|lia]. }
  assert (objs σ1 !! this = Some v) as Hv1.
  { destruct Hk as [Ho _]. destruct Hk1 as [Ho1 _]. by rewrite Ho1, Ho. }
  destruct (operator_delete_run (buffer_ (data_ v))
    (set_objs (<[this := mkVector (RawMemory_Swap (data_ v) nd).1 (size_ v)]>
                 (objs σ1)) σ1)) as (σ2 & Hdel & Ho2).
  { simpl. eapply owns_deletable; [done|]. intros b cs Hb.
    eapply keeps_blocks_allocated; [|exact Hb].
    eapply keeps_blocks_trans; [by apply keeps_live_blocks|done]. }
  eexists _, _, σ2. split_and!.
  - rewrite (bind_run _ _ _ _ _ Hdestroy). unfold swap_data.
    rewrite (bind_run _ _ _ _ _ (get_obj_run _ _ _ Hv1)).
    unfold bind, put_obj, ret. reflexivity.
  - exact Hdel.
  - rewrite Ho2. simpl. by rewrite lookup_insert_eq.
Qed.

Lemma try_catch_run {A} (m : M A) h σ a σ1 :
  m σ = (Ok a, σ1) → try_catch m h σ = (Ok a, σ1).
Proof. intros Hm. unfold try_catch. by rewrite Hm. Qed.

Lemma with_local_run x (body : M T) σ x' σ1 :
  body σ = (Ok x', σ1) → with_local x body σ = (Ok tt, log_destroyed x' σ1).
Proof. intros Hb. unfold with_local. by rewrite Hb. Qed.

Lemma grown_gt n : n < grown n.
Proof. unfold grown. case_decide; lia. Qed.

(** The body of [Emplace] returns; the vector object is changed by a
    growth only, and then in its storage only. *)
Lemma Emplace_body_returns σ this v l k ctor :
  objs σ !! this = Some v →
  owns σ v l →
  k ≤ length l →
  never_throws ctor →
  ∃ d σ1,
    (if decide (size_ v < RawMemory_Capacity (data_ v)) then
       try_catch
         (if decide (ptr_add (begin_ v) k = end_ v) then
            construct_at (end_ v) ctor
          else
            new_item ← run_elem ctor;
            with_local new_item (
              last ← size_sub (size_ v) 1;
              move_construct_at (end_ v) (RawMemory_plus (data_ v) last);;
              std_move_backward (ptr_add (begin_ v) k)
                                (ptr_sub (end_ v) 1) (end_ v);;
              move_assign_from (ptr_add (begin_ v) k) new_item))
         (λ e, operator_delete (end_ v);; throw e)
     else
       with_new_data (if decide (size_ v = 0) then 1 else size_ v * 2)
         (λ new_data,
           construct_at (ptr_add (GetAddress new_data) k) ctor;;
           relocate_n (begin_ v) k (GetAddress new_data);;
           rest ← size_sub (size_ v) k;
           relocate_n (ptr_add (begin_ v) k) rest
                      (ptr_add (ptr_add (GetAddress new_data) k) 1);;
           destroy_n (GetAddress (data_ v)) (size_ v);;
           swap_data this new_data)) σ = (Ok tt, σ1) ∧
    objs σ1 !! this = Some (mkVector d (size_ v)).
Proof.
  intros Hv Hown Hk Hctor. pose proof Hown as (Hs & Hl & _).
  unfold RawMemory_Capacity. case_decide as Hspare.
  - (* in place *)
    assert (has_slot σ (end_ v)) as Hend.
    { unfold end_. fold (begin_ v). eapply owns_has_slot; [done|lia]. }
    exists (data_ v). case_decide as Hpos.
    + destruct (construct_at_keeps _ ctor σ Hend Hctor) as (σ1 & Hrun & [Ho _]).
      exists σ1. split; [by apply try_catch_run|]. rewrite Ho, Hv.
      by destruct v.
    + assert (k < length l) as Hlt.
      { destruct (decide (k = length l)) as [->|]; [|lia].
        destruct Hpos. unfold end_. fold (begin_ v). by rewrite Hs. }
      destruct (run_elem_run ctor σ (Hctor _)) as (x & w' & Hx).
      set (σa := set_world w' σ) in *.
      assert (keeps_live σ σa) as Hka by apply keeps_live_world.
      destruct (move_construct_at_keeps (end_ v)
                  (RawMemory_plus (data_ v) (size_ v - 1)) σa)
        as (σb & Htail & Hkb).
      { eapply has_slot_keeps; [by apply keeps_live_blocks|done]. }
      { eapply is_live_keeps; [exact Hka|]. unfold RawMemory_plus.
        fold (GetAddress (data_ v)). fold (begin_ v).
        eapply owns_is_live; [done|lia]. }
      pose proof (keeps_live_trans _ _ _ Hka Hkb) as Hkab.
      destruct (std_move_backward_keeps (ptr_add (begin_ v) k)
                  (ptr_sub (end_ v) 1) (end_ v) (size_ v - 1 - k) σb)
        as (σc & Hshift & Hkc).
      { unfold end_. fold (begin_ v). rewrite ptr_sub_add by lia.
        apply ptr_diff_adds; [lia|]. intros Hn. exfalso.
        eapply owns_not_null; [done|lia|done]. }
      { intros j Hj. unfold end_. fold (begin_ v).
        rewrite !ptr_sub_add by lia.
        split; (eapply is_live_keeps; [exact Hkab|]);
          eapply owns_is_live; done || lia. }
      pose proof (keeps_live_trans _ _ _ Hkab Hkc) as Hkac.
      destruct (move_assign_from_keeps (ptr_add (begin_ v) k) x σc)
        as (r & σd & Hassign & Hkd).
      { eapply is_live_keeps; [exact Hkac|]. by eapply owns_is_live. }
      pose proof (keeps_live_trans _ _ _ Hkac Hkd) as [Ho _].
      exists (log_destroyed r σd). split.
      * apply try_catch_run. rewrite (bind_run _ _ _ _ _ Hx).
        apply with_local_run. unfold size_sub.
        rewrite decide_True by lia.
        rewrite (bind_run _ _ _ (size_ v - 1) σa eq_refl).
        rewrite (bind_run _ _ _ _ _ Htail).
        by rewrite (bind_run _ _ _ _ _ Hshift).
      * simpl. rewrite Ho, Hv. by destruct v.
  - (* growth *)
    fold (grown (size_ v)).
    destruct (grow_alloc σ (grown (size_ v))) as (σ1 & Halloc & Hk1 & Hslots).
    { unfold grown. case_decide; lia. }
    pose proof (grown_gt (size_ v)) as Hgt.
    set (nb := length (heap σ)) in *.
    destruct (construct_at_keeps (Ptr nb k) ctor σ1) as (σ2 & Hnew & Hk2);
      [apply Hslots; lia|done|].
    pose proof (keeps_live_trans _ _ _ Hk1 Hk2) as Hk12.
    destruct (relocate_n_keeps (begin_ v) k (Ptr nb 0) σ2)
      as (σ3 & Hrel1 & Hk3).
    { intros i Hi. split.
      - eapply is_live_keeps; [exact Hk12|]. eapply owns_is_live; [done|lia].
      - eapply has_slot_keeps; [apply keeps_live_blocks; exact Hk2|].
        apply (Hslots i). lia. }
    pose proof (keeps_live_trans _ _ _ Hk12 Hk3) as Hk13.
    destruct (relocate_n_keeps (ptr_add (begin_ v) k) (size_ v - k)
                (Ptr nb (k + 1)) σ3) as (σ4 & Hrel2 & Hk4).
    { intros i Hi. split.
      - eapply is_live_keeps; [exact Hk13|]. rewrite ptr_add_add.
        eapply owns_is_live; [done|lia].
      - eapply has_slot_keeps;
          [apply keeps_live_blocks, (keeps_live_trans _ _ _ Hk2 Hk3)|].
        apply (Hslots (k + 1 + i)). lia. }
    pose proof (keeps_live_trans _ _ _ Hk13 Hk4) as Hk14.
    destruct (grow_commit_returns this v l
                (mkRawMemory (Ptr nb 0) (grown (size_ v))) σ σ4 Hown Hk14 Hv)
      as (nd' & σ5 & σ6 & Hcommit & Hdtor & Ho6).
    exists (mkRawMemory (Ptr nb 0) (grown (size_ v))), σ6. split; [|done].
    eapply with_new_data_run; [exact Halloc| |exact Hdtor]. simpl.
    rewrite (bind_run _ _ _ _ _ Hnew).
    rewrite (bind_run _ _ _ _ _ Hrel1).
    unfold size_sub. rewrite decide_True by lia.
    rewrite (bind_run _ _ _ (size_ v - k) σ3 eq_refl).
    by rewrite (bind_run _ _ _ _ _ Hrel2).
Qed.

(** [Emplace] at a valid position returns. *)
Lemma Emplace_returns σ this v l k ctor :
  objs σ !! this = Some v →
  owns σ v l →
  k ≤ length l →
  never_throws ctor →
  returns (Emplace this (ptr_add (begin_ v) k) ctor) σ.
Proof.
  intros Hv Hown Hk Hctor. pose proof Hown as (Hs & _). unfold Emplace.
  eapply returns_bind; [by apply get_obj_run|].
  rewrite (owns_begin_add _ _ _ _ Hown) by lia.
  eapply returns_bind; [done|].
  destruct (Emplace_body_returns _ _ _ _ _ _ Hv Hown Hk Hctor)
    as (d & σ1 & Hbody & Ho1).
  eapply returns_bind; [exact Hbody|].
  eapply returns_bind; [by apply set_size_run|].
  eapply returns_bind; [apply get_obj_run; simpl; apply lookup_insert_eq|].
  apply returns_ret.
Qed.

(** [PushBack] returns. *)
Lemma PushBack_returns σ this v l ctor :
  objs σ !! this = Some v →
  owns σ v l →
  never_throws ctor →
  returns (PushBack this ctor) σ.
Proof.
  intros Hv Hown Hctor. pose proof Hown as (Hs & Hl & _). unfold PushBack.
  eapply returns_bind; [by apply get_obj_run|].
  assert (∃ d σ1,
    (if decide (RawMemory_Capacity (data_ v) ≤ size_ v) then
       with_new_data (if decide (size_ v = 0) then 1 else size_ v * 2)
         (λ new_data,
           construct_at (ptr_add (GetAddress new_data) (size_ v)) ctor;;
           relocate_n (GetAddress (data_ v)) (size_ v) (GetAddress new_data);;
           destroy_n (GetAddress (data_ v)) (size_ v);;
           swap_data this new_data)
     else
       construct_at (ptr_add (GetAddress (data_ v)) (size_ v)) ctor) σ
      = (Ok tt, σ1) ∧
    objs σ1 !! this = Some (mkVector d (size_ v))) as (d & σ1 & Hbody & Ho1).
  { unfold RawMemory_Capacity. case_decide as Hfull.
    - fold (grown (size_ v)).
      destruct (grow_alloc σ (grown (size_ v))) as (σ1 & Halloc & Hk1 & Hslots).
      { unfold grown. case_decide; lia. }
      pose proof (grown_gt (size_ v)) as Hgt.
      set (nb := length (heap σ)) in *.
      destruct (construct_at_keeps (Ptr nb (size_ v)) ctor σ1)
        as (σ2 & Hnew & Hk2); [apply Hslots; lia|done|].
      pose proof (keeps_live_trans _ _ _ Hk1 Hk2) as Hk12.
      destruct (relocate_n_keeps (begin_ v) (size_ v) (Ptr nb 0) σ2)
        as (σ3 & Hrel1 & Hk3).
      { intros i Hi. split.
        - eapply is_live_keeps; [exact Hk12|]. eapply owns_is_live; [done|lia].
        - eapply has_slot_keeps; [apply keeps_live_blocks; exact Hk2|].
          apply (Hslots i). lia. }
      pose proof (keeps_live_trans _ _ _ Hk12 Hk3) as Hk13.
      destruct (grow_commit_returns this v l
                  (mkRawMemory (Ptr nb 0) (grown (size_ v))) σ σ3 Hown Hk13 Hv)
        as (nd' & σ5 & σ6 & Hcommit & Hdtor & Ho6).
      exists (mkRawMemory (Ptr nb 0) (grown (size_ v))), σ6. split; [|done].
      eapply with_new_data_run; [exact Halloc| |exact Hdtor]. simpl.
      rewrite (bind_run _ _ _ _ _ Hnew).
      by rewrite (bind_run _ _ _ _ _ Hrel1).
    - destruct (construct_at_keeps (ptr_add (GetAddress (data_ v)) (size_ v))
                  ctor σ) as (σ1 & Hrun & [Ho _]); [|done|].
      { fold (begin_ v). eapply owns_has_slot; [done|lia]. }
      exists (data_ v), σ1. split; [done|]. rewrite Ho, Hv. by destruct v. }
  eapply returns_bind; [exact Hbody|].
  exists tt. eexists. by apply set_size_run.
Qed.

(** The copy constructor returns; the heap keeps its blocks and what is
    live in them. *)
Lemma Vector_copy_ctor_returns c other o lo σ :
  objs σ !! other = Some o →
  owns σ o lo →
  ∃ d σ', Vector_copy_ctor c other σ = (Ok tt, σ') ∧
    objs σ' = <[c := mkVector d (size_ o)]> (objs σ) ∧
    keeps_live (set_objs (objs σ') σ) σ'.
Proof.
  intros Ho Hown. pose proof Hown as (Hs & _). unfold Vector_copy_ctor.
  rewrite (bind_run _ _ _ _ _ (get_obj_run _ _ _ Ho)).
  destruct (RawMemory_ctor_run (size_ o) σ) as (data & σ1 & Hdata).
  rewrite (bind_run _ _ _ _ _ Hdata).
  assert (keeps_live σ σ1 ∧
          ∀ i, i < size_ o → has_slot σ1 (ptr_add (GetAddress data) i))
    as [Hk1 Hslots].
  { apply RawMemory_ctor_Ok in Hdata as [(Hz & -> & ->)|(_ & _ & -> & ->)].
    - split; [apply keeps_live_refl|]. intros i. lia.
    - split; [apply keeps_live_alloc|]. intros i Hi. simpl.
      eexists. split; [apply lookup_new_block|].
      by rewrite length_replicate, fits_room by apply every_count_fits. }
  destruct (uninitialized_copy_n_keeps (GetAddress (data_ o)) (size_ o)
              (GetAddress data) σ1) as (σ2 & Hfill & Hk2).
  { intros i Hi. split; [|by apply Hslots].
    eapply is_live_keeps; [exact Hk1|]. fold (begin_ o).
    eapply owns_is_live; [done|lia]. }
  rewrite (bind_run _ _ _ _ _ (on_unwind_run _ _ _ _ _ Hfill)).
  eexists data, _. split; [reflexivity|]. simpl.
  destruct (keeps_live_trans _ _ _ Hk1 Hk2) as [Ho2 Hh]. rewrite Ho2.
  split; [done|]. split; [done|]. exact Hh.
Qed.

Lemma Vector_dtor_returns c w σ :
  objs σ !! c = Some w →
  (∀ i, i < size_ w → is_live σ (ptr_add (begin_ w) i)) →
  (∀ σ', keeps_blocks σ σ' →
     ∀ b i, buffer_ (data_ w) = Ptr b i →
            i = 0 ∧ ∃ cs, heap σ' !! b = Some (Some cs)) →
  returns (Vector_dtor c) σ.
Proof.
  intros Hc Hlive Hdel. unfold Vector_dtor.
  eapply returns_bind; [by apply get_obj_run|].
  destruct (destroy_n_keeps (GetAddress (data_ w)) (size_ w) σ Hlive)
    as (σ1 & Hdestroy & Hk1).
  eapply returns_bind; [exact Hdestroy|].
  destruct (operator_delete_run (buffer_ (data_ w)) σ1 (Hdel σ1 Hk1))
    as (σ2 & Hfree & _).
  eapply returns_bind; [exact Hfree|].
  by eexists _, _.
Qed.

(** Copy assignment between two distinct vectors returns. *)
Lemma copy_assignment_returns σ this other v o l lo :
  this ≠ other →
  objs σ !! this = Some v →
  objs σ !! other = Some o →
  owns σ v l →
  owns σ o lo →
  returns (copy_assignment this other) σ.
Proof.
  intros Hne Hv Ho Hown Howno.
  pose proof Hown as (Hs & Hl & _). pose proof Howno as (Hso & Hlo & Hbufo).
  unfold copy_assignment. rewrite decide_True by done.
  eapply returns_bind; [by apply get_obj_run|].
  eapply returns_bind; [by apply get_obj_run|].
  unfold RawMemory_Capacity. case_decide as Hfit.
  - unfold CopyVector.
    eapply returns_bind; [by apply get_obj_run|].
    eapply returns_bind; [by apply get_obj_run|].
    destruct (std_copy_keeps (GetAddress (data_ o))
                (ptr_add (GetAddress (data_ o)) (size_ v `min` size_ o))
                (GetAddress (data_ v)) (size_ v `min` size_ o) σ)
      as (σ1 & Hcopy & Hk1).
    { apply ptr_diff_add. unfold GetAddress. intros Hn.
      rewrite Hn in Hbufo. lia. }
    { intros i Hi. split.
      - fold (begin_ o). eapply owns_is_live; [done|lia].
      - fold (begin_ v). eapply owns_is_live; [done|lia]. }
    eapply returns_bind; [exact Hcopy|].
    assert (∃ σ2,
      (if decide (size_ v ≤ size_ o) then
         uninitialized_copy_n (ptr_add (GetAddress (data_ o)) (size_ v))
           (size_ o - size_ v) (ptr_add (GetAddress (data_ v)) (size_ v))
       else
         destroy_n (ptr_add (GetAddress (data_ v)) (size_ o))
                   (size_ v - size_ o)) σ1 = (Ok tt, σ2) ∧
      objs σ2 = objs σ1) as (σ2 & Hrest & Ho2).
    { case_decide.
      - destruct (uninitialized_copy_n_keeps
                    (ptr_add (GetAddress (data_ o)) (size_ v))
                    (size_ o - size_ v)
                    (ptr_add (GetAddress (data_ v)) (size_ v)) σ1)
          as (σ2 & Hrun & [Ho2 _]); [|by exists σ2].
        intros i Hi. rewrite !ptr_add_add. split.
        + eapply is_live_keeps; [exact Hk1|]. fold (begin_ o).
          eapply owns_is_live; [done|lia].
        + eapply has_slot_keeps; [apply keeps_live_blocks; exact Hk1|].
          fold (begin_ v). eapply owns_has_slot; [done|lia].
      - destruct (destroy_n_keeps (ptr_add (GetAddress (data_ v)) (size_ o))
                    (size_ v - size_ o) σ1) as (σ2 & Hrun & [Ho2 _]);
          [|by exists σ2].
        intros i Hi. rewrite ptr_add_add.
        eapply is_live_keeps; [exact Hk1|]. fold (begin_ v).
        eapply owns_is_live; [done|lia]. }
    eapply returns_bind; [exact Hrest|].
    exists tt. eexists. apply (set_size_run _ _ _ v).
    destruct Hk1 as [Ho1 _]. by rewrite Ho2, Ho1.
  - unfold with_local_Vector.
    set (loc := fresh (dom (objs σ))) in *.
    assert (objs σ !! loc = None) as Hloc.
    { apply not_elem_of_dom. apply is_fresh. }
    assert (loc ≠ this) as Hlt by (intros Heq; by rewrite Heq, Hv in Hloc).
    destruct (Vector_copy_ctor_returns loc other o lo σ Ho Howno)
      as (d & σ1 & Hctor & Ho1 & Hk1).
    eapply returns_bind; [exact Hctor|].
    assert (objs σ1 !! this = Some v) as Hv1
      by (by rewrite Ho1, lookup_insert_ne).
    assert (objs σ1 !! loc = Some (mkVector d (size_ o))) as Hl1
      by (by rewrite Ho1, lookup_insert_eq).
    assert (Swap this loc σ1
            = (Ok tt, set_objs
                (<[loc := mkVector (RawMemory_Swap (data_ v) d).2 (size_ v)]>
                   (<[this := mkVector (RawMemory_Swap (data_ v) d).1 (size_ o)]>
                      (objs σ1))) σ1)) as Hswap.
    { unfold Swap. rewrite decide_True by done.
      rewrite (bind_run _ _ _ _ _ (get_obj_run _ _ _ Hv1)).
      by rewrite (bind_run _ _ _ _ _ (get_obj_run _ _ _ Hl1)). }
    match type of Hswap with _ = (_, ?s) => set (σ2 := s) in * end.
    eapply returns_bind; [apply on_unwind_run; exact Hswap|].
    destruct (Vector_dtor_returns loc
                (mkVector (RawMemory_Swap (data_ v) d).2 (size_ v)) σ2)
      as ([] & σ3 & Hdtor);
      [..|eapply returns_bind; [exact Hdtor|apply returns_ret]].
    + subst σ2. simpl. apply lookup_insert_eq.
    + intros i Hi. simpl.
      apply (is_live_keeps _ _ (ptr_add (begin_ v) i) Hk1).
      apply (owns_is_live σ v l); [done|simpl in Hi; lia].
    + intros σ' Hk' b i Hb. simpl in Hb.
      eapply (owns_deletable σ σ' v l); [done| |done].
      intros b' cs' Hb'.
      destruct Hk1 as [_ Hh1]. destruct (Hh1 _ _ Hb') as (cs1 & Hb1 & _).
      by eapply (keeps_blocks_allocated σ2 σ').
Qed.

End nothrow.

(** ** The specification *)

Section claims.
Context {L : Lawful T W}.

(** C8, as amended.  For every [n] whose byte count [n * sizeof(T)] does not
    wrap in [size_t]: [Vector(n)], when it returns, has made a vector of
    size [n] and capacity [n] whose [n] slots hold one object each, every
    one of them the result of a value-initialisation; and it returns when
    [operator new] gives the block and [T()] does not throw.  An [n]
    whose byte count wraps gets a block with room for fewer than [n]
    objects, and the construction runs over its end. *)
Theorem Vector_ctor_size_Ok σ this n :
  fits n →
  (∀ σ', Vector_ctor_size this n σ = (Ok tt, σ') →
     ∃ v xs, objs σ' !! this = Some v ∧
       size_ v = n ∧ capacity_ (data_ v) = n ∧
       length xs = n ∧ Forall value_initialized xs ∧
       owns σ' v xs) ∧
  (can_allocate n (world σ) = true → never_throws value_construct →
   returns (Vector_ctor_size this n) σ).
Proof.
  intros Hfits. split.
  - intros σ'. apply Vector_ctor_size_spec.
  - intros Hc Hctor. by apply Vector_ctor_size_run.
Qed.





End claims.

End proofs.

(** * Further properties

    What the other member functions do, how the operations compose, and
    what they leave behind when they throw. *)

Section further.
Context {T W : Type} {E : Element T W}.
Local Abbreviation M := (M T W).
Local Abbreviation mem_only := (mem_only (T:=T) (W:=W)).
Local Abbreviation no_throw := (no_throw (T:=T) (W:=W)).
Local Abbreviation stays_within := (stays_within (T:=T) (W:=W)).
Local Abbreviation throws_within := (throws_within (T:=T) (W:=W)).
Implicit Types (σ : state T W) (v o : Vector) (l : list T) (p : ptr).

(** *** Destruction, exactly *)

Lemma state_eta σ : mkState (heap σ) (objs σ) (world σ) (destroyed σ) = σ.
Proof. by destruct σ. Qed.

Lemma destroy_at_exact b i x σ cs :
  heap σ !! b = Some (Some cs) →
  cs !! i = Some (Some x) →
  destroy_at (Ptr b i) σ
    = (Ok tt, mkState (<[b := Some (<[i := None]> cs)]> (heap σ)) (objs σ)
                      (world σ) (destroyed σ ++ [x])).
Proof.
  intros Hb Hx. unfold destroy_at, bind, load, store. rewrite Hb, Hx. simpl.
  rewrite Hb. rewrite decide_True by (by eapply lookup_lt_Some). done.
Qed.

Lemma destroy_n_exact b off n xs σ cs :
  heap σ !! b = Some (Some cs) →
  length xs = n →
  (∀ i x, xs !! i = Some x → cs !! (off + i) = Some (Some x)) →
  ∃ cs', destroy_n (Ptr b off) n σ
      = (Ok tt, mkState (<[b := Some cs']> (heap σ)) (objs σ) (world σ)
                        (destroyed σ ++ xs)) ∧
    length cs' = length cs ∧
    (∀ k, off ≤ k → k < off + n → cs' !! k = Some None) ∧
    (∀ k, k < off ∨ off + n ≤ k → cs' !! k = cs !! k).
Proof.
  intros Hb Hlen Hxs. unfold destroy_n.
  destruct (for_loop_run
    (λ i s, ∃ csi,
       s = mkState (<[b := Some csi]> (heap σ)) (objs σ) (world σ)
                   (destroyed σ ++ take i xs) ∧
       length csi = length cs ∧
       (∀ k, off ≤ k → k < off + i → csi !! k = Some None) ∧
       (∀ k, k < off ∨ off + i ≤ k → csi !! k = cs !! k))
    (λ i, destroy_at (ptr_add (Ptr b off) i)) n 0 σ)
    as (σ' & Hrun & csn & -> & Hlenn & Hnone & Hsame).
  - intros i s Hi (csi & -> & Hleni & Hnone & Hsame). simpl ptr_add.
    destruct (lookup_lt_is_Some_2 xs i) as [x Hx]; [lia|].
    eexists. split.
    + apply (destroy_at_exact _ _ x _ csi).
      * simpl. by eapply heap_insert_lookup.
      * rewrite Hsame by lia. by apply Hxs.
    + exists (<[off + i := None]> csi). simpl. split_and!.
      * rewrite list_insert_insert_eq, (take_S_r _ _ _ Hx).
        by rewrite app_assoc.
      * by rewrite length_insert.
      * intros k Hk Hk'. destruct (decide (k = off + i)) as [->|].
        -- apply list_lookup_insert_eq. rewrite Hleni.
           eapply lookup_lt_Some. by apply Hxs.
        -- rewrite list_lookup_insert_ne by done. apply Hnone; lia.
      * intros k Hk. rewrite list_lookup_insert_ne by lia. apply Hsame. lia.
  - exists cs. split_and!; try done; [|intros k; lia].
    rewrite list_insert_id by done. simpl. rewrite app_nil_r.
    symmetry. apply state_eta.
  - exists csn. simpl in *. rewrite take_ge in Hrun by lia. by split_and!.
Qed.

(** The tail of a vector from index [k] on is destroyed: the block holds
    the first [k] elements. *)
Lemma destroy_tail b cap l k σ :
  heap σ !! b = Some (Some (cells_of l cap)) →
  length l ≤ cap →
  k ≤ length l →
  destroy_n (Ptr b k) (length l - k) σ
    = (Ok tt, mkState (<[b := Some (cells_of (take k l) cap)]> (heap σ))
                      (objs σ) (world σ) (destroyed σ ++ drop k l)).
Proof.
  intros Hb Hcap Hk.
  destruct (destroy_n_exact b k (length l - k) (drop k l) σ _ Hb)
    as (cs' & Hrun & Hlen & Hnone & Hsame).
  { by rewrite length_drop. }
  { intros i x Hx. rewrite lookup_drop in Hx. by apply cells_of_lookup_lt. }
  rewrite Hrun. do 4 f_equal.
  rewrite cells_of_length in Hlen by done.
  apply cells_of_eq; [done|rewrite length_take; lia| |].
  - intros j x Hx. apply lookup_take_Some in Hx as [Hx Hj].
    rewrite Hsame by lia. by apply cells_of_lookup_lt.
  - intros j Hj Hj'. rewrite length_take in Hj.
    destruct (decide (j < length l)).
    + apply Hnone; lia.
    + rewrite Hsame by lia. apply cells_of_lookup_ge; lia.
Qed.


Lemma cells_of_pop l x cap :
  S (length l) ≤ cap →
  <[length l := None]> (cells_of (l ++ [x]) cap) = cells_of l cap.
Proof.
  intros Hcap. apply cells_of_eq.
  - rewrite length_insert, cells_of_length; [done|].
    rewrite length_app. simpl. lia.
  - lia.
  - intros k y Hy. rewrite list_lookup_insert_ne
      by (apply lookup_lt_Some in Hy; lia).
    apply cells_of_lookup_lt. by apply lookup_app_l_Some.
  - intros k Hk Hk'. destruct (decide (k = length l)) as [->|].
    + apply list_lookup_insert_eq. rewrite cells_of_length; [lia|].
      rewrite length_app. simpl. lia.
    + rewrite list_lookup_insert_ne by done. apply cells_of_lookup_ge; [|done].
      rewrite length_app. simpl. lia.
Qed.

Lemma owns_null σ v l :
  owns σ v l → buffer_ (data_ v) = nullptr →
  l = [] ∧ size_ v = 0 ∧ capacity_ (data_ v) = 0.
Proof.
  intros (Hs & Hl & Hbuf) Hn. rewrite Hn in Hbuf.
  assert (length l = 0) as Hz by lia.
  split; [by destruct l|]. split; [lia|done].
Qed.

(** *** [PopBack] *)

Lemma PopBack_run σ this v l x :
  objs σ !! this = Some v →
  owns σ v (l ++ [x]) →
  ∃ σ', PopBack this σ = (Ok tt, σ') ∧
    objs σ' = <[this := mkVector (data_ v) (length l)]> (objs σ) ∧
    owns σ' (mkVector (data_ v) (length l)) l ∧
    destroyed σ' = destroyed σ ++ [x] ∧
    world σ' = world σ ∧
    length (heap σ') = length (heap σ).
Proof.
  intros Hv Hown. pose proof Hown as (Hs & Hl & _).
  rewrite length_app in Hs, Hl. simpl in Hs, Hl.
  destruct (owns_block _ _ _ Hown) as (b & Hbuf & Hb); [lia|].
  unfold PopBack. rewrite (bind_run _ _ _ _ _ (get_obj_run _ _ _ Hv)).
  rewrite decide_True by lia.
  unfold GetAddress. rewrite Hbuf. simpl.
  replace (size_ v - 1) with (length l) by lia.
  erewrite bind_run; last first.
  { apply (destroy_at_exact _ _ x _ _ Hb).
    apply cells_of_lookup_lt. apply list_lookup_middle. lia. }
  eexists. split.
  { apply set_size_run. exact Hv. }
  simpl. split_and!; try done.
  - unfold owns. simpl. rewrite Hbuf. split_and!; try done; [lia|].
    rewrite (heap_insert_lookup _ _ _ _ Hb). do 2 f_equal.
    apply cells_of_pop. lia.
  - by rewrite length_insert.
Qed.

(** X1.  [PopBack] on a vector with a last element [x]: the call returns, [x]
    is destroyed and nothing else is, the vector holds the elements before
    [x] in the same storage, and no memory is allocated or released. *)
Theorem PopBack_removes_last σ this v l x :
  objs σ !! this = Some v →
  owns σ v (l ++ [x]) →
  ∃ σ', PopBack this σ = (Ok tt, σ') ∧
    objs σ' = <[this := mkVector (data_ v) (length l)]> (objs σ) ∧
    owns σ' (mkVector (data_ v) (length l)) l ∧
    destroyed σ' = destroyed σ ++ [x] ∧
    world σ' = world σ ∧
    length (heap σ') = length (heap σ).
Proof. apply PopBack_run. Qed.

(** *** The destructor *)

Lemma Vector_dtor_run σ this v l :
  objs σ !! this = Some v →
  owns σ v l →
  ∃ σ', Vector_dtor this σ = (Ok tt, σ') ∧
    objs σ' = delete this (objs σ) ∧
    destroyed σ' = destroyed σ ++ l ∧
    world σ' = world σ ∧
    heap σ' = match buffer_ (data_ v) with
              | nullptr => heap σ
              | Ptr b _ => <[b := None]> (heap σ)
              end.
Proof.
  intros Hv Hown. pose proof Hown as (Hs & Hl & Hbuf).
  unfold Vector_dtor. rewrite (bind_run _ _ _ _ _ (get_obj_run _ _ _ Hv)).
  unfold RawMemory_dtor, Deallocate, GetAddress.
  destruct (buffer_ (data_ v)) as [|b i] eqn:Hp.
  - destruct (owns_null _ _ _ Hown Hp) as (-> & -> & _).
    eexists. split; [reflexivity|]. simpl. by rewrite app_nil_r.
  - destruct Hbuf as [-> Hb].
    pose proof (destroy_tail b _ l 0 σ Hb Hl ltac:(lia)) as Hd.
    rewrite Nat.sub_0_r, <-Hs, drop_0 in Hd.
    rewrite (bind_run _ _ _ _ _ Hd).
    eexists. split.
    { unfold bind, operator_delete. simpl.
      rewrite (heap_insert_lookup _ _ _ _ Hb). reflexivity. }
    simpl. by rewrite list_insert_insert_eq.
Qed.

(** X2.  [~Vector()] on a vector holding [l]: the call returns, the elements
    are destroyed in the order of their indices and nothing else is, the
    storage of the vector is released, and the object is gone. *)
Theorem Vector_dtor_releases σ this v l :
  objs σ !! this = Some v →
  owns σ v l →
  ∃ σ', Vector_dtor this σ = (Ok tt, σ') ∧
    objs σ' = delete this (objs σ) ∧
    destroyed σ' = destroyed σ ++ l ∧
    world σ' = world σ ∧
    heap σ' = match buffer_ (data_ v) with
              | nullptr => heap σ
              | Ptr b _ => <[b := None]> (heap σ)
              end.
Proof. apply Vector_dtor_run. Qed.

(** *** [Resize] downwards *)

Lemma Resize_shrink_run σ this v l n :
  objs σ !! this = Some v →
  owns σ v l →
  n ≤ length l →
  ∃ σ', Resize this n σ = (Ok tt, σ') ∧
    objs σ' = <[this := mkVector (data_ v) n]> (objs σ) ∧
    owns σ' (mkVector (data_ v) n) (take n l) ∧
    destroyed σ' = destroyed σ ++ drop n l ∧
    world σ' = world σ ∧
    length (heap σ') = length (heap σ).
Proof.
  intros Hv Hown Hn. pose proof Hown as (Hs & Hl & Hbuf).
  unfold Resize.
  rewrite (bind_run (Reserve this n) _ σ tt σ); last first.
  { unfold Reserve. rewrite (bind_run _ _ _ _ _ (get_obj_run _ _ _ Hv)).
    unfold RawMemory_Capacity. by rewrite decide_True by lia. }
  rewrite (bind_run _ _ _ _ _ (get_obj_run _ _ _ Hv)).
  rewrite decide_False by lia. unfold GetAddress.
  destruct (buffer_ (data_ v)) as [|b i] eqn:Hp.
  - destruct (owns_null _ _ _ Hown Hp) as (-> & Hz & Hc).
    assert (n = 0) as -> by (simpl in Hn; lia). rewrite Hz. simpl.
    eexists. split.
    { unfold destroy_n. simpl. rewrite (bind_run _ _ _ tt σ eq_refl).
      apply set_size_run. exact Hv. }
    simpl. rewrite app_nil_r. split_and!; try done.
    unfold owns. simpl. rewrite Hp. split_and!; done || lia.
  - destruct Hbuf as [-> Hb]. simpl. rewrite Hs.
    rewrite (bind_run _ _ _ _ _ (destroy_tail b _ l n σ Hb Hl Hn)).
    eexists. split.
    { apply set_size_run. exact Hv. }
    simpl. split_and!; try done.
    + unfold owns. simpl. rewrite Hp, length_take.
      split_and!; try done; try lia.
      by rewrite (heap_insert_lookup _ _ _ _ Hb).
    + by rewrite length_insert.
Qed.

(** X3.  [Resize(n)] with [n <= size] on a vector holding [l]: the call
    returns, the elements from index [n] on are destroyed in the order of
    their indices, the vector holds the first [n] elements in the same
    storage with the same capacity, and no memory is allocated or
    released. *)
Theorem Resize_shrinks σ this v l n :
  objs σ !! this = Some v →
  owns σ v l →
  n ≤ length l →
  ∃ σ', Resize this n σ = (Ok tt, σ') ∧
    objs σ' = <[this := mkVector (data_ v) n]> (objs σ) ∧
    owns σ' (mkVector (data_ v) n) (take n l) ∧
    destroyed σ' = destroyed σ ++ drop n l ∧
    world σ' = world σ ∧
    length (heap σ') = length (heap σ).
Proof. apply Resize_shrink_run. Qed.

(** *** [Swap], move assignment and the move constructor *)

Lemma Swap_run σ this other v o :
  this ≠ other →
  objs σ !! this = Some v →
  objs σ !! other = Some o →
  Swap this other σ
    = (Ok tt, set_objs (<[other := v]> (<[this := o]> (objs σ))) σ).
Proof.
  intros Hne Hv Ho. unfold Swap. rewrite decide_True by done.
  rewrite (bind_run _ _ _ _ _ (get_obj_run _ _ _ Hv)).
  rewrite (bind_run _ _ _ _ _ (get_obj_run _ _ _ Ho)).
  unfold bind, put_obj, RawMemory_Swap. simpl. by destruct v as [[]], o as [[]].
Qed.

Lemma owns_set_objs σ m v l : owns (set_objs m σ) v l ↔ owns σ v l.
Proof. done. Qed.

Lemma swap_back (m : gmap nat Vector) this other v o :
  this ≠ other →
  m !! this = Some v →
  m !! other = Some o →
  <[other := o]> (<[this := v]> (<[other := v]> (<[this := o]> m))) = m.
Proof.
  intros Hne Hv Ho. apply map_eq. intros k.
  destruct (decide (k = other)) as [->|]; [by rewrite lookup_insert_eq|].
  rewrite lookup_insert_ne by done.
  destruct (decide (k = this)) as [->|]; [by rewrite lookup_insert_eq|].
  by rewrite !lookup_insert_ne by done.
Qed.

(** X4.  [Swap] of two distinct vectors: each object gets the storage, the
    capacity and the size of the other, so each holds what the other held;
    no element is touched, no memory is allocated or released, and every
    other object is as it was.  A second [Swap] gives the first state
    back. *)
Theorem Swap_exchanges σ this other v o l lo :
  this ≠ other →
  objs σ !! this = Some v →
  objs σ !! other = Some o →
  owns σ v l →
  owns σ o lo →
  ∃ σ', Swap this other σ = (Ok tt, σ') ∧
    objs σ' = <[other := v]> (<[this := o]> (objs σ)) ∧
    objs σ' !! this = Some o ∧ owns σ' o lo ∧
    objs σ' !! other = Some v ∧ owns σ' v l ∧
    heap σ' = heap σ ∧ world σ' = world σ ∧ destroyed σ' = destroyed σ ∧
    Swap this other σ' = (Ok tt, σ).
Proof.
  intros Hne Hv Ho Hown Howno. eexists. split; [by apply Swap_run|].
  simpl. split_and!; try done.
  - by rewrite lookup_insert_ne, lookup_insert_eq.
  - by rewrite lookup_insert_eq.
  - erewrite Swap_run; [|done|simpl..].
    2: by rewrite lookup_insert_ne, lookup_insert_eq.
    2: by rewrite lookup_insert_eq.
    unfold set_objs. simpl. rewrite swap_back by done. by rewrite state_eta.
Qed.

(** X5.  Move assignment between two distinct vectors is a swap: the target
    holds what the source held, in the storage of the source, and the
    source holds what the target held.  The old elements of the target are
    not destroyed and its old storage is not released by the assignment;
    no element operation runs. *)
Theorem move_assignment_exchanges σ this other v o l lo :
  this ≠ other →
  objs σ !! this = Some v →
  objs σ !! other = Some o →
  owns σ v l →
  owns σ o lo →
  ∃ σ', move_assignment this other σ = (Ok tt, σ') ∧
    objs σ' = <[other := v]> (<[this := o]> (objs σ)) ∧
    objs σ' !! this = Some o ∧ owns σ' o lo ∧
    objs σ' !! other = Some v ∧ owns σ' v l ∧
    heap σ' = heap σ ∧ world σ' = world σ ∧ destroyed σ' = destroyed σ.
Proof.
  intros Hne Hv Ho Hown Howno. unfold move_assignment.
  rewrite decide_True by done. eexists. split; [by apply Swap_run|].
  simpl. split_and!; try done.
  - by rewrite lookup_insert_ne, lookup_insert_eq.
  - by rewrite lookup_insert_eq.
Qed.

(** X6.  The move constructor, for a new object at an address [this] where no
    object is: the new vector takes over the storage, the capacity and the
    size of [other], so it holds what [other] held; [other] is left empty
    with capacity 0 and no storage; no element is touched and no memory is
    allocated.  Destroying the moved-from object afterwards releases and
    destroys nothing. *)
Theorem Vector_move_ctor_takes σ this other o lo :
  objs σ !! this = None →
  objs σ !! other = Some o →
  owns σ o lo →
  ∃ σ', Vector_move_ctor this other σ = (Ok tt, σ') ∧
    objs σ' = <[this := o]> (<[other := mkVector (mkRawMemory nullptr 0) 0]>
                               (objs σ)) ∧
    owns σ' o lo ∧
    owns σ' (mkVector (mkRawMemory nullptr 0) 0) [] ∧
    heap σ' = heap σ ∧ world σ' = world σ ∧ destroyed σ' = destroyed σ ∧
    Vector_dtor other σ'
      = (Ok tt, set_objs (<[this := o]> (delete other (objs σ))) σ).
Proof.
  intros Hnew Ho Hown.
  assert (this ≠ other) as Hne by (intros ->; congruence).
  unfold Vector_move_ctor.
  rewrite (bind_run _ _ _ _ _ (get_obj_run _ _ _ Ho)).
  eexists. split.
  { unfold bind, put_obj, RawMemory_move. simpl. reflexivity. }
  simpl. split_and!; try done.
  - by destruct o as [[]].
  - unfold Vector_dtor, bind, get_obj. simpl.
    rewrite lookup_insert_ne, lookup_insert_eq by done. simpl.
    unfold del_obj, set_objs. simpl. do 3 f_equal.
    rewrite delete_insert_ne, delete_insert_eq by done. by destruct o as [[]].
Qed.


(** *** Reading the elements *)

Lemma owns_read σ v l i x :
  owns σ v l → l !! i = Some x → load (ptr_add (begin_ v) i) σ = (Ok x, σ).
Proof.
  intros Hown Hx. pose proof Hown as (_ & Hl & _).
  pose proof (lookup_lt_Some _ _ _ Hx) as Hi.
  destruct (owns_block _ _ _ Hown) as (b & Hbuf & Hb); [lia|].
  unfold begin_, GetAddress. rewrite Hbuf. simpl.
  apply (load_run _ _ _ _ _ Hb). by apply cells_of_lookup_lt.
Qed.

Lemma at_read σ this v l i x :
  objs σ !! this = Some v → owns σ v l → l !! i = Some x →
  (p ← at_ this i; load p) σ = (Ok x, σ).
Proof.
  intros Hv Hown Hx. unfold at_.
  rewrite (bind_run _ _ _ _ _ (bind_run _ _ _ _ _ (get_obj_run _ _ _ Hv))).
  by apply (owns_read _ _ l).
Qed.

(** X7.  The observers of a vector holding [l]: [Size] is the number of
    elements, [Capacity] the capacity of the storage, [end() - begin()] the
    size, [operator[]] at an index below the size gives the element of
    that index, and a read through [operator[]] at an index from the size
    on has no defined result.  None of them changes anything. *)
Theorem element_access σ this v l :
  objs σ !! this = Some v →
  owns σ v l →
  Size this σ = (Ok (length l), σ) ∧
  Capacity this σ = (Ok (capacity_ (data_ v)), σ) ∧
  (ptr_diff (end_ v) (begin_ v) : M nat) σ = (Ok (length l), σ) ∧
  (∀ i x, l !! i = Some x → (p ← at_ this i; load p) σ = (Ok x, σ)) ∧
  (∀ i, length l ≤ i → (p ← at_ this i; load p) σ = (Undefined, σ)).
Proof.
  intros Hv Hown. pose proof Hown as (Hs & Hl & Hbuf). split_and!.
  - unfold Size. rewrite (bind_run _ _ _ _ _ (get_obj_run _ _ _ Hv)).
    by rewrite Hs.
  - unfold Capacity. by rewrite (bind_run _ _ _ _ _ (get_obj_run _ _ _ Hv)).
  - unfold end_. fold (begin_ v).
    rewrite (owns_begin_add _ _ _ _ Hown) by lia. by rewrite Hs.
  - intros i x Hx. by eapply at_read.
  - intros i Hi. unfold at_.
    rewrite (bind_run _ _ _ _ _ (bind_run _ _ _ _ _ (get_obj_run _ _ _ Hv))).
    unfold RawMemory_plus, ret.
    destruct (buffer_ (data_ v)) as [|b o]; [done|].
    destruct Hbuf as [-> Hb]. simpl. rewrite Hb.
    destruct (decide (i < capacity_ (data_ v))).
    + by rewrite cells_of_lookup_ge.
    + rewrite lookup_ge_None_2; [done|]. rewrite cells_of_length; lia.
Qed.

(** *** Round trips *)

Lemma delete_inserted k (x : T) l : k ≤ length l → delete k (inserted k x l) = l.
Proof.
  intros Hk. apply list_eq. intros j. destruct (decide (j < k)).
  - rewrite list_lookup_delete_lt by done. by apply inserted_lookup_lt.
  - rewrite list_lookup_delete_ge by lia. rewrite inserted_lookup_gt by lia.
    f_equal. lia.
Qed.

Section lawful_more.
Context {L : Lawful T W}.

(** X8.  After an [Insert] of [value] at index [k] that returns, the iterator
    returned points to an object in the state [value], [operator[]] at [k]
    reads it, the size is one more, and every old element is read at its
    old index if that is below [k] and at the next index otherwise. *)
Theorem Insert_then_read σ this v l k value σ' it :
  objs σ !! this = Some v →
  owns σ v l →
  k ≤ length l →
  Insert this (ptr_add (begin_ v) k) value σ = (Ok it, σ') →
  load it σ' = (Ok value, σ') ∧
  (p ← at_ this k; load p) σ' = (Ok value, σ') ∧
  Size this σ' = (Ok (S (length l)), σ') ∧
  (∀ j y, l !! j = Some y →
     (p ← at_ this (if decide (j < k) then j else S j); load p) σ'
       = (Ok y, σ')).
Proof.
  intros Hv Hown Hk Hrun.
  destruct (Emplace_spec _ _ _ _ _ _ _ _ Hv Hown Hk Hrun)
    as (x & v' & (w & w' & Hx) & Hv' & Hown' & Hs' & -> & _).
  apply copy_construct_value in Hx as ->.
  assert (inserted k value l !! k = Some value) as Hat
    by (by apply inserted_lookup_eq).
  split_and!.
  - by apply (owns_read _ _ _ _ _ Hown').
  - by eapply at_read.
  - unfold Size. rewrite (bind_run _ _ _ _ _ (get_obj_run _ _ _ Hv')).
    pose proof Hown' as (-> & _). by rewrite inserted_length.
  - intros j y Hy. eapply at_read; [done..|].
    pose proof (lookup_lt_Some _ _ _ Hy). case_decide.
    + by rewrite inserted_lookup_lt.
    + rewrite inserted_lookup_gt by lia. rewrite <-Hy. f_equal. lia.
Qed.

(** X9.  [Erase] undoes [Emplace]: when an [Emplace] at index [k] has returned
    an iterator and [Erase] of that iterator returns, the vector holds what
    it held before the [Emplace], and the iterator that [Erase] returns is
    again the one at index [k].  This holds also when the [Emplace] moved
    the vector to new storage. *)
Theorem Erase_undoes_Emplace σ this v l k ctor σ1 it σ2 it' :
  objs σ !! this = Some v →
  owns σ v l →
  k ≤ length l →
  Emplace this (ptr_add (begin_ v) k) ctor σ = (Ok it, σ1) →
  Erase this it σ1 = (Ok it', σ2) →
  ∃ v2, objs σ2 !! this = Some v2 ∧ owns σ2 v2 l ∧
    it' = ptr_add (begin_ v2) k.
Proof.
  intros Hv Hown Hk Hins Hdel.
  destruct (Emplace_spec _ _ _ _ _ _ _ _ Hv Hown Hk Hins)
    as (x & v1 & _ & Hv1 & Hown1 & _ & -> & _).
  eapply (Erase_spec _ _ _ _ k) in Hdel
    as (v2 & Hv2 & Hown2 & _ & _ & -> & _); [|done..|].
  - exists v2. rewrite delete_inserted in Hown2 by done. by split_and!.
  - rewrite inserted_length. lia.
Qed.

(** X10.  [PopBack] undoes [PushBack]: after a [PushBack] that returns,
    [PopBack] returns, destroys the element appended and nothing else, and
    the vector holds what it held before. *)
Theorem PopBack_undoes_PushBack σ this v l ctor σ1 :
  objs σ !! this = Some v →
  owns σ v l →
  PushBack this ctor σ = (Ok tt, σ1) →
  ∃ x σ2 v2, constructed_by ctor x ∧
    PopBack this σ1 = (Ok tt, σ2) ∧
    objs σ2 !! this = Some v2 ∧ owns σ2 v2 l ∧
    destroyed σ2 = destroyed σ1 ++ [x].
Proof.
  intros Hv Hown Hpush.
  destruct (PushBack_spec _ _ _ _ _ _ Hv Hown Hpush)
    as (x & v1 & Hx & Hv1 & Hown1 & _).
  destruct (PopBack_run _ _ _ _ _ Hv1 Hown1)
    as (σ2 & Hpop & Ho2 & Hown2 & Hd2 & _).
  exists x, σ2, (mkVector (data_ v1) (length l)). split_and!; try done.
  by rewrite Ho2, lookup_insert_eq.
Qed.

End lawful_more.

(** *** Two ways to remove the last element, two ways to append *)

(** X11.  [Erase] of the last element does what [PopBack] does: from a vector
    with a last element both return, in the same state; the iterator that
    [Erase] returns is the new [end()]. *)
Theorem Erase_last_is_PopBack σ this v l x :
  objs σ !! this = Some v →
  owns σ v (l ++ [x]) →
  ∃ σ' v', PopBack this σ = (Ok tt, σ') ∧
    objs σ' !! this = Some v' ∧
    Erase this (ptr_sub (end_ v) 1) σ = (Ok (end_ v'), σ').
Proof.
  intros Hv Hown. pose proof Hown as (Hs & Hl & _).
  rewrite length_app in Hs, Hl. simpl in Hs, Hl.
  destruct (owns_block _ _ _ Hown) as (b & Hbuf & Hb); [lia|].
  destruct (PopBack_run _ _ _ _ _ Hv Hown) as (σ' & Hpop & Ho' & _).
  exists σ', (mkVector (data_ v) (length l)).
  split; [done|]. split; [by rewrite Ho', lookup_insert_eq|].
  unfold PopBack in Hpop.
  rewrite (bind_run _ _ _ _ _ (get_obj_run _ _ _ Hv)) in Hpop.
  rewrite decide_True in Hpop by lia.
  unfold Erase. rewrite (bind_run _ _ _ _ _ (get_obj_run _ _ _ Hv)).
  unfold end_, begin_, GetAddress in *. rewrite Hbuf in *. simpl in *.
  rewrite decide_True by (split; [done|lia]).
  rewrite (bind_run _ _ _ (size_ v - 1 - 0) σ eq_refl).
  unfold std_move. simpl.
  rewrite decide_True by (split; [done|lia]).
  replace (size_ v - (size_ v - 1 - 0 + 1)) with 0 by lia.
  rewrite (bind_run _ _ σ tt σ eq_refl).
  unfold bind in Hpop |- *.
  destruct (destroy_at (Ptr b (size_ v - 1)) σ) as [[[]|e|] σ1]; [|done..].
  rewrite Hpop. unfold get_obj. rewrite Ho', lookup_insert_eq. simpl.
  unfold ret. do 3 f_equal. lia.
Qed.


Lemma bind_ext {A C} (m : M A) (k k' : A → M C) σ :
  (∀ a s, k a s = k' a s) → bind m k σ = bind m k' σ.
Proof. intros Hk. unfold bind. destruct (m σ) as [[a|e|] σ1]; by rewrite ?Hk. Qed.

Lemma with_new_data_ext n (body body' : RawMemory → M RawMemory) σ :
  (∀ nd s, body nd s = body' nd s) →
  with_new_data n body σ = with_new_data n body' σ.
Proof.
  intros Hb. unfold with_new_data. apply bind_ext. intros nd s.
  unfold on_unwind, try_catch, bind. by rewrite Hb.
Qed.

Lemma try_catch_Ok_iff {A} (m : M A) h σ a σ' :
  (∀ e s, h e s ≠ (Ok a, σ')) →
  try_catch m h σ = (Ok a, σ') ↔ m σ = (Ok a, σ').
Proof.
  intros Hh. unfold try_catch. destruct (m σ) as [[a'|e|] σ1]; try done.
  split; [|done]. intros H. by apply Hh in H.
Qed.

(** The body of [Emplace] at [end()] returns exactly when the body of
    [PushBack] does, and in the same state. *)
Lemma append_bodies σ this v l ctor σ1 :
  owns σ v l →
  (if decide (size_ v < RawMemory_Capacity (data_ v)) then
     try_catch
       (if decide (end_ v = end_ v) then
          construct_at (end_ v) ctor
        else
          new_item ← run_elem ctor;
          with_local new_item (
            last ← size_sub (size_ v) 1;
            move_construct_at (end_ v) (RawMemory_plus (data_ v) last);;
            std_move_backward (ptr_add (begin_ v) (size_ v))
                              (ptr_sub (end_ v) 1) (end_ v);;
            move_assign_from (ptr_add (begin_ v) (size_ v)) new_item))
       (λ e, operator_delete (end_ v);; throw e)
   else
     with_new_data (if decide (size_ v = 0) then 1 else size_ v * 2)
       (λ new_data,
         construct_at (ptr_add (GetAddress new_data) (size_ v)) ctor;;
         relocate_n (begin_ v) (size_ v) (GetAddress new_data);;
         rest ← size_sub (size_ v) (size_ v);
         relocate_n (ptr_add (begin_ v) (size_ v)) rest
                    (ptr_add (ptr_add (GetAddress new_data) (size_ v)) 1);;
         destroy_n (GetAddress (data_ v)) (size_ v);;
         swap_data this new_data)) σ = (Ok tt, σ1)
  ↔
  (if decide (RawMemory_Capacity (data_ v) ≤ size_ v) then
     with_new_data (if decide (size_ v = 0) then 1 else size_ v * 2)
       (λ new_data,
         construct_at (ptr_add (GetAddress new_data) (size_ v)) ctor;;
         relocate_n (GetAddress (data_ v)) (size_ v) (GetAddress new_data);;
         destroy_n (GetAddress (data_ v)) (size_ v);;
         swap_data this new_data)
   else
     construct_at (ptr_add (GetAddress (data_ v)) (size_ v)) ctor) σ
    = (Ok tt, σ1).
Proof.
  intros Hown. destruct (decide (size_ v < RawMemory_Capacity (data_ v))).
  - rewrite (decide_False (P := RawMemory_Capacity (data_ v) ≤ size_ v)) by lia.
    rewrite decide_True by done. apply try_catch_Ok_iff.
    intros e s. unfold bind, throw.
    by destruct (operator_delete (end_ v) s) as [[[]|e'|] s'].
  - rewrite (decide_True (P := RawMemory_Capacity (data_ v) ≤ size_ v)) by lia.
    erewrite with_new_data_ext; [done|]. intros nd s. simpl.
    apply bind_ext. intros _ s1. apply bind_ext. intros _ s2.
    unfold size_sub. rewrite decide_True by done.
    rewrite Nat.sub_diag. unfold relocate_n.
    by destruct (is_nothrow_move_constructible || negb is_copy_constructible).
Qed.

(** X12.  [EmplaceBack] and [PushBack] of the same element agree when they
    return: from a vector holding [l] the one returns exactly when the
    other does, and in the same state; what [EmplaceBack] returns is the
    address of the element of index [length l]. *)
Theorem EmplaceBack_as_PushBack σ this v l ctor :
  objs σ !! this = Some v →
  owns σ v l →
  (∀ σ', PushBack this ctor σ = (Ok tt, σ') →
     ∃ v', objs σ' !! this = Some v' ∧
       EmplaceBack this ctor σ = (Ok (ptr_add (begin_ v') (length l)), σ')) ∧
  (∀ it σ', EmplaceBack this ctor σ = (Ok it, σ') →
     PushBack this ctor σ = (Ok tt, σ')).
Proof.
  intros Hv Hown. pose proof Hown as (Hs & _).
  assert ((ptr_diff (end_ v) (begin_ v) : M nat) = ret (size_ v)) as Hdiff.
  { unfold end_. fold (begin_ v). by apply (owns_begin_add _ _ _ _ Hown). }
  split.
  - intros σ' Hrun. unfold PushBack in Hrun.
    rewrite (bind_run _ _ _ _ _ (get_obj_run _ _ _ Hv)) in Hrun.
    apply bind_Ok in Hrun as ([] & σ1 & Hbody & Hsize).
    apply (append_bodies _ _ _ _ _ _ Hown) in Hbody.
    pose proof Hsize as Hsize'. unfold set_size in Hsize'.
    apply bind_Ok in Hsize' as (v1 & σ0 & H0 & Hput).
    apply get_obj_Ok in H0 as [Hv1 ->]. injection Hput as <-.
    exists (mkVector (data_ v1) (S (size_ v))).
    split; [simpl; by rewrite lookup_insert_eq|].
    unfold EmplaceBack, Emplace.
    rewrite (bind_run _ _ _ _ _ (get_obj_run _ _ _ Hv)).
    rewrite (bind_run _ _ _ _ _ (get_obj_run _ _ _ Hv)).
    rewrite Hdiff. rewrite (bind_run _ _ σ (size_ v) σ eq_refl).
    rewrite (bind_run _ _ _ _ _ Hbody).
    rewrite (bind_run _ _ _ _ _ Hsize).
    unfold bind, get_obj. simpl. rewrite lookup_insert_eq. by rewrite Hs.
  - intros it σ' Hrun. unfold EmplaceBack, Emplace in Hrun.
    rewrite (bind_run _ _ _ _ _ (get_obj_run _ _ _ Hv)) in Hrun.
    rewrite (bind_run _ _ _ _ _ (get_obj_run _ _ _ Hv)) in Hrun.
    rewrite Hdiff in Hrun. rewrite (bind_run _ _ σ (size_ v) σ eq_refl) in Hrun.
    apply bind_Ok in Hrun as ([] & σ1 & Hbody & Hrun).
    apply (append_bodies _ _ _ _ _ _ Hown) in Hbody.
    apply bind_Ok in Hrun as ([] & σ2 & Hsize & Hrun).
    apply bind_Ok in Hrun as (v' & σ3 & Hv' & [= <- <-]).
    apply get_obj_Ok in Hv' as [_ ->].
    unfold PushBack. rewrite (bind_run _ _ _ _ _ (get_obj_run _ _ _ Hv)).
    by rewrite (bind_run _ _ _ _ _ Hbody).
Qed.


(** *** What a successful step leaves alone *)

Lemma copy_construct_at_log p src σ σ' :
  copy_construct_at p src σ = (Ok tt, σ') → destroyed σ' = destroyed σ.
Proof.
  intros H. unfold copy_construct_at, construct_at in H.
  apply bind_Ok in H as (x & σ1 & Hl & H). apply load_Ok in Hl as [-> _].
  apply bind_Ok in H as (y & σ2 & Hr & H).
  apply run_elem_Ok in Hr as (w' & _ & ->).
  by apply store_Ok in H as (b & i & cs & _ & _ & _ & ->).
Qed.

Lemma move_construct_at_log p src σ σ' :
  move_construct_at p src σ = (Ok tt, σ') → destroyed σ' = destroyed σ.
Proof.
  intros H. unfold move_construct_at in H.
  apply bind_Ok in H as (x & σ1 & Hl & H). apply load_Ok in Hl as [-> _].
  apply bind_Ok in H as (y & σ2 & Hr & H).
  apply run_elem_Ok in Hr as (w' & _ & ->).
  apply bind_Ok in H as ([] & σ3 & H1 & H2).
  apply store_Ok in H1 as (b & i & cs & _ & _ & _ & ->).
  by apply store_Ok in H2 as (b' & i' & cs' & _ & _ & _ & ->).
Qed.

Lemma relocate_n_log first n d σ σ' :
  relocate_n first n d σ = (Ok tt, σ') → destroyed σ' = destroyed σ.
Proof.
  assert (∀ body : nat → M unit,
    (∀ i s s', body i s = (Ok tt, s') → destroyed s' = destroyed s) →
    for_loop body 0 n σ = (Ok tt, σ') → destroyed σ' = destroyed σ) as Hloop.
  { intros body Hbody Hrun.
    apply (for_loop_Ok (λ _ t, destroyed t = destroyed σ) body n 0 σ σ');
      [|done|done].
    intros i t t' _ Ht Hb. rewrite <-Ht. by eapply Hbody. }
  unfold relocate_n, uninitialized_move_n, uninitialized_copy_n.
  destruct (_ || _); apply Hloop; intros i s s' Hb; apply on_unwind_Ok in Hb.
  - by eapply move_construct_at_log.
  - by eapply copy_construct_at_log.
Qed.

Lemma destroy_n_count p n σ σ' :
  destroy_n p n σ = (Ok tt, σ') →
  length (destroyed σ') = length (destroyed σ) + n ∧
  world σ' = world σ ∧ objs σ' = objs σ ∧
  length (heap σ') = length (heap σ).
Proof.
  intros Hrun. unfold destroy_n in Hrun.
  apply (for_loop_Ok (λ i s,
    length (destroyed s) = length (destroyed σ) + i ∧
    world s = world σ ∧ objs s = objs σ ∧
    length (heap s) = length (heap σ))) in Hrun; [done| |by rewrite Nat.add_0_r].
  intros i s s' _ (Hd & Hw & Ho & Hh) Hb. unfold destroy_at in Hb.
  apply bind_Ok in Hb as (x & σ1 & Hl & Hb). apply load_Ok in Hl as [-> _].
  apply bind_Ok in Hb as ([] & σ2 & [= <-] & Hb).
  apply store_Ok in Hb as (b & j & cs & _ & _ & _ & ->). simpl.
  rewrite length_app, length_insert. simpl. split_and!; done || lia.
Qed.

Lemma operator_delete_inv p σ σ' :
  operator_delete p σ = (Ok tt, σ') →
  (p = nullptr ∧ σ' = σ) ∨
  ∃ b cs, p = Ptr b 0 ∧ heap σ !! b = Some (Some cs) ∧
          σ' = set_heap (<[b := None]> (heap σ)) σ.
Proof.
  intros H. destruct p as [|b [|i]]; simpl in H; [left|right|done].
  - by injection H.
  - destruct (heap σ !! b) as [[cs|]|] eqn:Hb; try done.
    injection H as <-. by exists b, cs.
Qed.

Lemma cells_of_fill l (xs : list T) cap :
  length l + length xs ≤ cap →
  take (length l) (cells_of l cap) ++ (Some <$> xs)
    ++ drop (length l + length xs) (cells_of l cap)
  = cells_of (l ++ xs) cap.
Proof.
  intros Hcap. unfold cells_of.
  rewrite take_app_length' by (by rewrite length_fmap).
  rewrite drop_app_ge by (rewrite length_fmap; lia).
  rewrite length_fmap, drop_replicate, fmap_app, length_app, <-app_assoc.
  do 3 f_equal. lia.
Qed.

Section lawful_grow.
Context {L : Lawful T W}.

(** What a successful [Reserve] beyond the capacity does, when the byte
    count of the capacity asked for does not wrap. *)
Lemma Reserve_grow_spec σ this v l n σ' :
  objs σ !! this = Some v →
  owns σ v l →
  capacity_ (data_ v) < n →
  fits n →
  Reserve this n σ = (Ok tt, σ') →
  can_allocate n (world σ) = true ∧
  objs σ' = <[this := mkVector (mkRawMemory (Ptr (length (heap σ)) 0) n)
                               (size_ v)]> (objs σ) ∧
  heap σ' !! length (heap σ) = Some (Some (cells_of l n)) ∧
  length (heap σ') = S (length (heap σ)) ∧
  (∀ b i, buffer_ (data_ v) = Ptr b i → heap σ' !! b = Some None) ∧
  length (destroyed σ') = length (destroyed σ) + length l.
Proof.
  intros Hv Hown Hcap Hfits Hrun. pose proof Hown as (Hs & Hl & _).
  unfold Reserve in Hrun.
  rewrite (bind_run _ _ _ _ _ (get_obj_run _ _ _ Hv)) in Hrun.
  unfold RawMemory_Capacity in Hrun. rewrite decide_False in Hrun by lia.
  apply with_new_data_Ok in Hrun as (Hc & nd' & σ2 & Hrun & Hdtor); [|lia].
  rewrite (fits_room n Hfits) in Hrun.
  set (nb := length (heap σ)) in *.
  apply bind_Ok in Hrun as ([] & σ3 & Hrel & Hcommit). simpl in Hrel.
  match type of Hrel with relocate_n _ _ _ ?s = _ => set (σa := s) in * end.
  assert (source_of σa (begin_ v) l nb) as Hsrc.
  { eapply owns_source; [done|done|]. intros b Hb. subst σa nb. simpl.
    by apply lookup_app_l. }
  assert (heap σa !! nb = Some (Some (replicate n None))) as Hnb
    by apply lookup_new_block.
  pose proof (relocate_n_log _ _ _ _ _ Hrel) as Hd3.
  eapply (relocate_n_Ok _ l) in Hrel
    as (cd2 & Hnb2 & Hlen2 & Hcd2 & Hout2 & _ & Ho3 & Hh3);
    [|done|exact Hsrc|exact Hnb].
  assert (in_blocks (λ b, b ≠ nb) (buffer_ (data_ v))) as Hin.
  { eapply owns_in_old_blocks; [done|]. by subst nb. }
  pose proof Hcommit as Hcommit'. pose proof Hdtor as Hdtor'.
  eapply grow_commit in Hcommit' as [Hnb' Ho']; [|by rewrite Ho3|exact Hnb2|done|exact Hdtor].
  apply bind_Ok in Hcommit as ([] & σ4 & Hdestroy & Hswap).
  apply destroy_n_count in Hdestroy as (Hd4 & _ & Ho4 & Hh4).
  unfold swap_data in Hswap.
  apply bind_Ok in Hswap as (v4 & σ0 & H0 & Hswap).
  apply get_obj_Ok in H0 as [Hv4 ->].
  rewrite Ho4, Ho3 in Hv4. simpl in Hv4. rewrite Hv in Hv4. injection Hv4 as <-.
  apply bind_Ok in Hswap as ([] & σ5 & [= <-] & [= <- <-]).
  unfold RawMemory_dtor, Deallocate in Hdtor'. simpl in Hdtor'.
  rewrite length_replicate in Hlen2. simpl in Hh3.
  rewrite length_app in Hh3. simpl in Hh3.
  split; [done|]. split; [by rewrite Ho', Ho3|]. split_and!.
  - rewrite Hnb'. do 2 f_equal. apply cells_of_eq; [done|lia| |].
    + intros k x Hx. by apply (Hcd2 k).
    + intros k Hk Hk'. rewrite Hout2 by lia. by apply lookup_replicate_2.
  - apply operator_delete_Ok in Hdtor as [-> _]. simpl. subst nb. lia.
  - intros b i Hp. rewrite Hp in Hdtor'.
    apply operator_delete_inv in Hdtor' as [[? _]|(b' & cs & [= <- ->] & Hb & ->)];
      [done|].
    simpl in *. apply list_lookup_insert_eq. by eapply lookup_lt_Some.
  - apply operator_delete_inv in Hdtor' as [[_ ->]|(b' & cs & _ & _ & ->)];
      simpl; rewrite Hd4, Hd3; simpl; lia.
Qed.


(** What a successful [Reserve] does: nothing when the capacity is there,
    and otherwise, when the byte count does not wrap, a reallocation. *)
Lemma Reserve_spec σ this v l n σ1 :
  objs σ !! this = Some v →
  owns σ v l →
  (capacity_ (data_ v) < n → fits n) →
  Reserve this n σ = (Ok tt, σ1) →
  ∃ v1, objs σ1 !! this = Some v1 ∧ owns σ1 v1 l ∧
    capacity_ (data_ v1) = capacity_ (data_ v) `max` n ∧
    (n ≤ capacity_ (data_ v) → σ1 = σ ∧ v1 = v) ∧
    (capacity_ (data_ v) < n →
       data_ v1 = mkRawMemory (Ptr (length (heap σ)) 0) n).
Proof.
  intros Hv Hown Hfits Hrun. pose proof Hown as (Hs & Hl & _).
  destruct (decide (n ≤ capacity_ (data_ v))) as [Hle|Hgt].
  - unfold Reserve in Hrun.
    rewrite (bind_run _ _ _ _ _ (get_obj_run _ _ _ Hv)) in Hrun.
    unfold RawMemory_Capacity in Hrun. rewrite decide_True in Hrun by done.
    injection Hrun as <-. exists v. split_and!; try done; lia.
  - apply (Reserve_grow_spec _ _ _ _ _ _ Hv Hown) in Hrun
      as (_ & Ho1 & Hnb & _); [|lia|apply Hfits; lia].
    eexists. split; [by rewrite Ho1, lookup_insert_eq|]. simpl.
    split_and!; try done; try lia.
    unfold owns. simpl. split_and!; try done; lia.
Qed.

(** What a successful [Resize] beyond the size does. *)
Lemma Resize_grow_spec σ this v l n σ' :
  objs σ !! this = Some v →
  owns σ v l →
  length l < n →
  (capacity_ (data_ v) < n → fits n) →
  Resize this n σ = (Ok tt, σ') →
  ∃ v' xs, objs σ' !! this = Some v' ∧
    owns σ' v' (l ++ xs) ∧
    length xs = n - length l ∧
    Forall value_initialized xs ∧
    size_ v' = n ∧
    capacity_ (data_ v') = capacity_ (data_ v) `max` n ∧
    (n ≤ capacity_ (data_ v) → data_ v' = data_ v).
Proof.
  intros Hv Hown Hn Hfits Hrun. unfold Resize in Hrun.
  apply bind_Ok in Hrun as ([] & σ1 & Hres & Hrun).
  destruct (Reserve_spec _ _ _ _ _ _ Hv Hown Hfits Hres)
    as (v1 & Hv1 & Hown1 & Hcap1 & Hsame & _).
  pose proof Hown1 as (Hs1 & Hl1 & _).
  rewrite (bind_run _ _ _ _ _ (get_obj_run _ _ _ Hv1)) in Hrun.
  rewrite decide_True in Hrun by lia.
  apply bind_Ok in Hrun as ([] & σ2 & Hfill & Hsize).
  destruct (owns_block _ _ _ Hown1) as (b & Hbuf & Hb); [lia|].
  unfold GetAddress in Hfill. rewrite Hbuf, Hs1 in Hfill. simpl in Hfill.
  assert (objs σ2 = objs σ1) as Ho2.
  { by apply (mem_only_uninitialized_value_construct_n (λ _, True)) in Hfill
      as [? _]. }
  apply (uninitialized_value_construct_n_Ok _ _ _ _ _ _ Hb) in Hfill
    as (xs & Hlen & Hvi & _ & Hb2 & _).
  apply (set_size_Ok _ _ _ _ v1) in Hsize as ->; [|by rewrite Ho2].
  exists (mkVector (data_ v1) n), xs. simpl. rewrite lookup_insert_eq.
  split_and!; try done.
  - unfold owns. simpl. rewrite Hbuf, length_app, Hlen.
    split_and!; try done; try lia.
    rewrite Hb2. do 2 f_equal.
    replace (length l + (n - length l)) with (length l + length xs) by lia.
    apply cells_of_fill. lia.
  - intros Hle. by destruct (Hsame Hle) as [_ ->].
Qed.

Section nothrow_grow.
Context {N : Nothrow T W}.

Lemma Reserve_returns σ this v l n :
  objs σ !! this = Some v →
  owns σ v l →
  returns (Reserve this n) σ.
Proof.
  intros Hv Hown. pose proof Hown as (Hs & Hl & _). unfold Reserve.
  eapply returns_bind; [by apply get_obj_run|].
  unfold RawMemory_Capacity. case_decide as Hcap; [apply returns_ret|].
  destruct (grow_alloc σ n) as (σ1 & Halloc & Hk1 & Hslots); [lia|].
  set (nb := length (heap σ)) in *.
  destruct (relocate_n_keeps (begin_ v) (size_ v) (Ptr nb 0) σ1)
    as (σ2 & Hrel & Hk2).
  { intros i Hi. split.
    - eapply is_live_keeps; [exact Hk1|]. eapply owns_is_live; [done|lia].
    - apply (Hslots i). lia. }
  pose proof (keeps_live_trans _ _ _ Hk1 Hk2) as Hk12.
  destruct (grow_commit_returns this v l (mkRawMemory (Ptr nb 0) n)
              σ σ2 Hown Hk12 Hv) as (nd' & σ3 & σ4 & Hcommit & Hdtor & _).
  exists tt, σ4.
  eapply with_new_data_run; [exact Halloc| |exact Hdtor]. simpl.
  by rewrite (bind_run _ _ _ _ _ Hrel).
Qed.

Lemma Resize_grow_returns σ this v l n :
  objs σ !! this = Some v →
  owns σ v l →
  length l < n →
  returns (Resize this n) σ.
Proof.
  intros Hv Hown Hn. unfold Resize.
  destruct (Reserve_returns σ this v l n Hv Hown) as ([] & σ1 & Hres).
  eapply returns_bind; [exact Hres|].
  destruct (Reserve_spec _ _ _ _ _ _ Hv Hown
              (λ _, every_count_fits n) Hres)
    as (v1 & Hv1 & Hown1 & Hcap1 & _).
  pose proof Hown1 as (Hs1 & Hl1 & _).
  eapply returns_bind; [by apply get_obj_run|].
  rewrite decide_True by lia.
  destruct (uninitialized_value_construct_n_keeps
              (ptr_add (GetAddress (data_ v1)) (size_ v1)) (n - size_ v1) σ1)
    as (σ2 & Hfill & [Ho2 _]).
  { intros i Hi. rewrite ptr_add_add. fold (begin_ v1).
    eapply owns_has_slot; [done|lia]. }
  eapply returns_bind; [exact Hfill|].
  exists tt. eexists. apply (set_size_run _ _ _ v1). by rewrite Ho2.
Qed.

End nothrow_grow.



(** X15.  After [Reserve(n)] with [n] above the size, and within the
    capacity or with a byte count [n * sizeof(T)] that does not wrap in
    [size_t], a [PushBack] does not reallocate: when both return, the
    vector holds the old elements followed by the new one in the storage
    it had after the [Reserve]. *)
Theorem Reserve_then_PushBack σ this v l n ctor σ1 σ2 :
  objs σ !! this = Some v →
  owns σ v l →
  length l < n →
  (capacity_ (data_ v) < n → fits n) →
  Reserve this n σ = (Ok tt, σ1) →
  PushBack this ctor σ1 = (Ok tt, σ2) →
  ∃ v1 v2 x, objs σ1 !! this = Some v1 ∧ objs σ2 !! this = Some v2 ∧
    constructed_by ctor x ∧
    owns σ2 v2 (l ++ [x]) ∧
    data_ v2 = data_ v1.
Proof.
  intros Hv Hown Hn Hfits Hres Hpush.
  destruct (Reserve_spec _ _ _ _ _ _ Hv Hown Hfits Hres)
    as (v1 & Hv1 & Hown1 & Hcap1 & _).
  pose proof Hown1 as (Hs1 & _).
  destruct (PushBack_spec _ _ _ _ _ _ Hv1 Hown1 Hpush)
    as (x & v2 & Hx & Hv2 & Hown2 & _ & Hsame & _).
  exists v1, v2, x. split_and!; try done. apply Hsame. lia.
Qed.

End lawful_grow.

(** *** Computations that do not throw *)

Lemma no_throw_ret {A} (a : A) : no_throw (ret a : M A).
Proof. by intros σ e σ'. Qed.

Lemma no_throw_undefined {A} : no_throw (undefined : M A).
Proof. by intros σ e σ'. Qed.

Lemma no_throw_bind {A C} (m : M A) (k : A → M C) :
  no_throw m → (∀ a, no_throw (k a)) → no_throw (bind m k).
Proof.
  intros Hm Hk σ e σ'. unfold bind.
  destruct (m σ) as [[a|e1|] σ1] eqn:H1; [apply Hk| |done].
  by apply Hm in H1.
Qed.

Lemma no_throw_on_unwind {A} (m : M A) c : no_throw m → no_throw (on_unwind m c).
Proof.
  intros Hm σ e σ'. unfold on_unwind, try_catch.
  destruct (m σ) as [[a|e1|] σ1] eqn:H1; [done| |done]. by apply Hm in H1.
Qed.

Lemma no_throw_load p : no_throw (load p).
Proof. intros σ e σ'. unfold load. by repeat case_match. Qed.

Lemma no_throw_store p s : no_throw (store p s).
Proof. intros σ e σ'. unfold store. by repeat case_match. Qed.

Lemma no_throw_for_loop (body : nat → M unit) n start :
  (∀ i, no_throw (body i)) → no_throw (for_loop body start n).
Proof.
  intros Hbody. revert start. induction n as [|n IH]; intros start; simpl.
  - apply no_throw_ret.
  - apply no_throw_bind; [done|]. intros _. apply IH.
Qed.

Lemma no_throw_destroy_at p : no_throw (destroy_at p).
Proof.
  apply no_throw_bind; [apply no_throw_load|]. intros x.
  apply no_throw_bind; [by intros σ e σ'|]. intros _. apply no_throw_store.
Qed.

Lemma no_throw_destroy_n p n : no_throw (destroy_n p n).
Proof. apply no_throw_for_loop. intros i. apply no_throw_destroy_at. Qed.

Lemma no_throw_operator_delete p : no_throw (operator_delete p).
Proof. intros σ e σ'. unfold operator_delete. by repeat case_match. Qed.

Lemma no_throw_get_obj this : no_throw (get_obj this).
Proof. intros σ e σ'. unfold get_obj. by case_match. Qed.

Lemma no_throw_set_size this n : no_throw (set_size this n).
Proof. apply no_throw_bind; [apply no_throw_get_obj|]. by intros v σ e σ'. Qed.

Lemma no_throw_swap_data this nd : no_throw (swap_data this nd).
Proof.
  apply no_throw_bind; [apply no_throw_get_obj|]. intros v.
  apply no_throw_bind; [by intros σ e σ'|]. intros _. apply no_throw_ret.
Qed.

Lemma no_throw_size_sub a c : no_throw (size_sub a c).
Proof. unfold size_sub. case_decide; [apply no_throw_ret|apply no_throw_undefined]. Qed.

Lemma no_throw_ptr_diff a c : no_throw (ptr_diff a c).
Proof.
  unfold ptr_diff. destruct a, c; try apply no_throw_undefined;
    [apply no_throw_ret|].
  case_decide; [apply no_throw_ret|apply no_throw_undefined].
Qed.

Lemma no_throw_run_elem {A} (op : W → W * option A) :
  (∀ w, is_Some (op w).2) → no_throw (run_elem op).
Proof.
  intros Hop σ e σ'. unfold run_elem. destruct (Hop (world σ)) as [a Ha].
  destruct (op (world σ)) as [w [a'|]]; by simplify_eq/=.
Qed.

Lemma no_throw_uninitialized_move_n first n d_first :
  (∀ x w, is_Some (move_construct x w).2) →
  no_throw (uninitialized_move_n first n d_first).
Proof.
  intros Hmove. apply no_throw_for_loop. intros i. apply no_throw_on_unwind.
  apply no_throw_bind; [apply no_throw_load|]. intros x.
  apply no_throw_bind; [by apply no_throw_run_elem|]. intros yr.
  apply no_throw_bind; [apply no_throw_store|]. intros _. apply no_throw_store.
Qed.

Lemma bind_Throw_l {A C} (m : M A) (k : A → M C) σ e σ' :
  (∀ a, no_throw (k a)) → bind m k σ = (Throw e, σ') → m σ = (Throw e, σ').
Proof.
  intros Hk Hrun. apply bind_Throw in Hrun as [H|(a & σ1 & _ & H)]; [done|].
  by apply Hk in H.
Qed.

Lemma bind_Throw_r {A C} (m : M A) (k : A → M C) σ e σ' :
  no_throw m → bind m k σ = (Throw e, σ') →
  ∃ a σ1, m σ = (Ok a, σ1) ∧ k a σ1 = (Throw e, σ').
Proof.
  intros Hm Hrun. apply bind_Throw in Hrun as [H|H]; [|done]. by apply Hm in H.
Qed.

Lemma on_unwind_Throw {A} (m : M A) c σ e σ' :
  no_throw c →
  on_unwind m c σ = (Throw e, σ') →
  ∃ σ1, m σ = (Throw e, σ1) ∧ c σ1 = (Ok tt, σ').
Proof.
  intros Hc. unfold on_unwind, try_catch, bind, throw.
  destruct (m σ) as [[a|e1|] σ1]; [done| |done].
  destruct (c σ1) as [[[]|e2|] σ2] eqn:H2; intros H; [| |done].
  - injection H as <- <-. by exists σ1.
  - by apply Hc in H2.
Qed.

Lemma for_loop_Throw (body : nat → M unit) n :
  ∀ start σ e σ',
  for_loop body start n σ = (Throw e, σ') →
  ∃ i σi, i < n ∧ for_loop body start i σ = (Ok tt, σi) ∧
          body (start + i) σi = (Throw e, σ').
Proof.
  induction n as [|n IH]; intros start σ e σ' Hrun; simpl in Hrun; [done|].
  apply bind_Throw in Hrun as [H|([] & σ1 & H1 & H)].
  - exists 0, σ. rewrite Nat.add_0_r. split; [lia|done].
  - apply IH in H as (i & σi & Hi & Hpre & Hb).
    exists (S i), σi. split; [lia|]. split.
    + simpl. by rewrite (bind_run _ _ _ _ _ H1).
    + by replace (start + S i) with (S start + i) by lia.
Qed.

(** *** Which blocks a computation can change, with the blocks counted *)

Lemma within_refl B σ : within B σ σ.
Proof. split_and!; try done. intros b cs Hb. by exists cs. Qed.

Lemma within_trans B σ1 σ2 σ3 : within B σ1 σ2 → within B σ2 σ3 → within B σ1 σ3.
Proof.
  intros (Ho1 & Hl1 & Hb1 & Ha1) (Ho2 & Hl2 & Hb2 & Ha2). split_and!.
  - congruence.
  - congruence.
  - intros b HB. rewrite Hb2 by done. by apply Hb1.
  - intros b cs Hb. destruct (Ha1 _ _ Hb) as (cs1 & Hb1'). by eapply Ha2.
Qed.

Lemma within_mono (B B' : nat → Prop) σ σ' :
  (∀ b, B b → B' b) → within B σ σ' → within B' σ σ'.
Proof.
  intros HBB (Ho & Hl & Hb & Ha). split_and!; try done.
  intros b HB. apply Hb. naive_solver.
Qed.

Lemma within_same B σ σ' : objs σ' = objs σ → heap σ' = heap σ → within B σ σ'.
Proof.
  intros Ho Hh. split_and!; try done; try congruence.
  intros b cs Hb. exists cs. congruence.
Qed.

Lemma within_set_block (B : nat → Prop) σ b cs c :
  B b → heap σ !! b = Some (Some cs) →
  within B σ (set_heap (<[b := Some c]> (heap σ)) σ).
Proof.
  intros HB Hb. split_and!; simpl; try done.
  - by rewrite length_insert.
  - intros b' HB'. apply list_lookup_insert_ne. by intros ->.
  - intros b' cs' Hb'. destruct (decide (b' = b)) as [->|].
    + exists c. by eapply heap_insert_lookup.
    + exists cs'. by rewrite list_lookup_insert_ne.
Qed.

Lemma stays_within_ret {A} B (a : A) : stays_within B (ret a : M A).
Proof. intros σ r σ' [= <- <-]. apply within_refl. Qed.

Lemma stays_within_throw {A} B e : stays_within B (throw e : M A).
Proof. intros σ r σ' [= <- <-]. apply within_refl. Qed.

Lemma stays_within_bind {A C} B (m : M A) (k : A → M C) :
  stays_within B m → (∀ a, stays_within B (k a)) → stays_within B (bind m k).
Proof.
  intros Hm Hk σ r σ'. unfold bind.
  destruct (m σ) as [[a|e|] σ1] eqn:H1; intros Hrun.
  - eapply within_trans; [by eapply Hm|by eapply Hk].
  - injection Hrun as <- <-. by eapply Hm.
  - injection Hrun as <- <-. by eapply Hm.
Qed.

Lemma stays_within_on_unwind {A} B (m : M A) c :
  stays_within B m → stays_within B c → stays_within B (on_unwind m c).
Proof.
  intros Hm Hc σ r σ'. unfold on_unwind, try_catch.
  destruct (m σ) as [[a|e|] σ1] eqn:H1; intros Hrun.
  - injection Hrun as <- <-. by eapply Hm.
  - eapply within_trans; [by eapply Hm|].
    eapply (stays_within_bind B c (λ _, throw e)); [done| |exact Hrun].
    intros _. apply stays_within_throw.
  - injection Hrun as <- <-. by eapply Hm.
Qed.

Lemma stays_within_load B p : stays_within B (load p).
Proof.
  intros σ r σ'. unfold load. intros Hrun.
  assert (σ' = σ) as ->; [|apply within_refl].
  repeat case_match; by simplify_eq.
Qed.

Lemma stays_within_store B p s : in_blocks B p → stays_within B (store p s).
Proof.
  intros HB σ r σ'. unfold store. intros Hrun.
  repeat case_match; simplify_eq; try apply within_refl.
  by eapply within_set_block.
Qed.

Lemma stays_within_run_elem {A} B (op : W → W * option A) :
  stays_within B (run_elem op).
Proof.
  intros σ r σ'. unfold run_elem. intros Hrun.
  repeat case_match; simplify_eq; by apply within_same.
Qed.

Lemma stays_within_for_loop B (body : nat → M unit) n start :
  (∀ i, stays_within B (body i)) → stays_within B (for_loop body start n).
Proof.
  intros Hbody. revert start.
  induction n as [|n IH]; intros start; simpl.
  - apply stays_within_ret.
  - apply stays_within_bind; [done|]. intros _. apply IH.
Qed.

Lemma stays_within_destroy_at B p : in_blocks B p → stays_within B (destroy_at p).
Proof.
  intros HB. apply stays_within_bind; [apply stays_within_load|]. intros x.
  apply stays_within_bind; [|intros _; by apply stays_within_store].
  intros σ r σ' [= <- <-]. by apply within_same.
Qed.

Lemma stays_within_destroy_n B p n : in_blocks B p → stays_within B (destroy_n p n).
Proof.
  intros HB. apply stays_within_for_loop. intros i.
  by apply stays_within_destroy_at, in_blocks_add.
Qed.

Lemma stays_within_construct_at B p ctor :
  in_blocks B p → stays_within B (construct_at p ctor).
Proof.
  intros HB. apply stays_within_bind; [apply stays_within_run_elem|].
  intros x. by apply stays_within_store.
Qed.

Lemma stays_within_copy_construct_at B p src :
  in_blocks B p → stays_within B (copy_construct_at p src).
Proof.
  intros HB. apply stays_within_bind; [apply stays_within_load|].
  intros x. by apply stays_within_construct_at.
Qed.

Lemma stays_within_uninitialized_copy_n B first n d_first :
  in_blocks B d_first → stays_within B (uninitialized_copy_n first n d_first).
Proof.
  intros HB. apply stays_within_for_loop. intros i. apply stays_within_on_unwind.
  - by apply stays_within_copy_construct_at, in_blocks_add.
  - by apply stays_within_destroy_n.
Qed.

Lemma stays_within_uninitialized_value_construct_n B first n :
  in_blocks B first → stays_within B (uninitialized_value_construct_n first n).
Proof.
  intros HB. apply stays_within_for_loop. intros i. apply stays_within_on_unwind.
  - by apply stays_within_construct_at, in_blocks_add.
  - by apply stays_within_destroy_n.
Qed.

Lemma stays_within_size_sub B a c : stays_within B (size_sub a c).
Proof.
  unfold size_sub. case_decide; [apply stays_within_ret|].
  intros s r s' [= <- <-]. apply within_refl.
Qed.

Lemma throws_within_stays {A} B (m : M A) : stays_within B m → throws_within B m.
Proof. intros Hm σ e σ' Hrun. by eapply Hm. Qed.

Lemma throws_within_no_throw {A} B (m : M A) : no_throw m → throws_within B m.
Proof. intros Hm σ e σ' Hrun. by apply Hm in Hrun. Qed.

Lemma throws_within_bind {A C} B (m : M A) (k : A → M C) :
  stays_within B m → (∀ a, throws_within B (k a)) → throws_within B (bind m k).
Proof.
  intros Hm Hk σ e σ' Hrun. apply bind_Throw in Hrun as [H|(a & σ1 & H1 & H)].
  - by eapply Hm.
  - eapply within_trans; [by eapply Hm|by eapply Hk].
Qed.

(** The relocation, when it throws, has changed the target block only. *)
Lemma throws_within_relocate_n B first n d_first :
  relocation_safe →
  in_blocks B d_first →
  throws_within B (relocate_n first n d_first).
Proof.
  intros Hsafe HB. unfold relocate_n.
  destruct (is_nothrow_move_constructible || negb is_copy_constructible)
    eqn:Hpath.
  - apply throws_within_no_throw, no_throw_uninitialized_move_n. by apply Hsafe.
  - by apply throws_within_stays, stays_within_uninitialized_copy_n.
Qed.

(** After the relocation has run without a throw, nothing throws in the
    rest of a growth. *)
Lemma no_throw_relocate_n_move first n d_first :
  relocation_safe →
  is_nothrow_move_constructible || negb is_copy_constructible = true →
  no_throw (relocate_n first n d_first).
Proof.
  intros Hsafe Hpath. unfold relocate_n. rewrite Hpath.
  apply no_throw_uninitialized_move_n. by apply Hsafe.
Qed.

Lemma stays_within_relocate_n_copy B first n d_first :
  is_nothrow_move_constructible || negb is_copy_constructible = false →
  in_blocks B d_first →
  stays_within B (relocate_n first n d_first).
Proof.
  intros Hpath HB. unfold relocate_n. rewrite Hpath.
  by apply stays_within_uninitialized_copy_n.
Qed.

Lemma new_block_freed (h h2 : list (option (list (option T)))) :
  length h2 = S (length h) →
  (∀ b, b < length h → h2 !! b = h !! b) →
  <[length h := None]> h2 = h ++ [None].
Proof.
  intros Hlen Hsame. apply list_eq. intros b.
  destruct (decide (b = length h)) as [->|].
  - rewrite list_lookup_insert_eq by lia. by rewrite lookup_new_block.
  - rewrite list_lookup_insert_ne by done.
    destruct (decide (b < length h)).
    + rewrite lookup_app_l by done. by apply Hsame.
    + rewrite !lookup_ge_None_2; [done|rewrite length_app; simpl; lia|lia].
Qed.

(** A growth that throws: either the allocation has failed and nothing has
    changed, or the block allocated for the growth is released again and
    the objects and the blocks that were there are as they were. *)
Lemma with_new_data_Throw n (body : RawMemory → M RawMemory) σ e σ' :
  n ≠ 0 →
  throws_within (λ b, b = length (heap σ))
                (body (mkRawMemory (Ptr (length (heap σ)) 0) n)) →
  with_new_data n body σ = (Throw e, σ') →
  objs σ' = objs σ ∧ (heap σ' = heap σ ∨ heap σ' = heap σ ++ [None]).
Proof.
  intros Hn Hbody Hrun. unfold with_new_data in Hrun.
  apply bind_Throw in Hrun as [H|(nd & σ1 & Hctor & Hrun)].
  - unfold RawMemory_ctor, Allocate in H. rewrite decide_True in H by done.
    apply bind_Throw_l in H; [|intros a; apply no_throw_ret].
    unfold operator_new in H. case_match; [done|]. injection H as <- <-.
    split; [done|by left].
  - apply RawMemory_ctor_Ok in Hctor as [(-> & _)|(_ & _ & -> & ->)]; [done|].
    apply bind_Throw_l in Hrun;
      [|intros a; apply no_throw_operator_delete].
    apply on_unwind_Throw in Hrun as (σ2 & Hb & Hdtor);
      [|apply no_throw_operator_delete].
    apply Hbody in Hb as (Ho2 & Hl2 & Hsame2 & Halloc2).
    destruct (Halloc2 (length (heap σ)) _ (lookup_new_block _ _)) as (cs' & Hnb).
    unfold RawMemory_dtor, Deallocate, operator_delete in Hdtor. simpl in Hdtor.
    rewrite Hnb in Hdtor. injection Hdtor as <-. simpl in *.
    split; [done|]. right. apply new_block_freed.
    + by rewrite Hl2, length_app, Nat.add_comm.
    + intros b Hb. rewrite Hsame2 by lia. by apply lookup_app_l.
Qed.


Lemma owns_after_throw σ σ' v l :
  owns σ v l →
  heap σ' = heap σ ∨ heap σ' = heap σ ++ [None] →
  owns σ' v l.
Proof.
  intros (Hs & Hl & Hbuf) Hh. split; [done|]. split; [done|].
  destruct (buffer_ (data_ v)) as [|b i]; [done|].
  destruct Hbuf as [-> Hb]. split; [done|].
  destruct Hh as [->| ->]; [done|].
  rewrite lookup_app_l; [done|]. by eapply lookup_lt_Some.
Qed.

Lemma construct_at_Throw p ctor σ e σ' :
  construct_at p ctor σ = (Throw e, σ') →
  ∃ w', ctor (world σ) = (w', None) ∧ e = element_error ∧ σ' = set_world w' σ.
Proof.
  intros Hrun. unfold construct_at in Hrun.
  apply bind_Throw_l in Hrun; [|intros x; apply no_throw_store].
  unfold run_elem in Hrun.
  destruct (ctor (world σ)) as [w' [x|]]; [done|].
  injection Hrun as <- <-. by exists w'.
Qed.

(** The part of a growth after the construction of the new element, when
    it throws, has changed the new block only. *)
Lemma growth_rest_throws (B : nat → Prop) this v (reloc : M unit) nd :
  (is_nothrow_move_constructible || negb is_copy_constructible = true →
   no_throw reloc) →
  (is_nothrow_move_constructible || negb is_copy_constructible = false →
   stays_within B reloc) →
  throws_within B
    (reloc;; destroy_n (GetAddress (data_ v)) (size_ v);; swap_data this nd).
Proof.
  intros Hmove Hcopy.
  assert (no_throw (destroy_n (GetAddress (data_ v)) (size_ v);;
                    swap_data this nd)) as Htail.
  { apply no_throw_bind; [apply no_throw_destroy_n|].
    intros _. apply no_throw_swap_data. }
  destruct (is_nothrow_move_constructible || negb is_copy_constructible).
  - apply throws_within_no_throw, no_throw_bind; [by apply Hmove|done].
  - apply throws_within_bind; [by apply Hcopy|].
    intros _. by apply throws_within_no_throw.
Qed.

Lemma Reserve_Throw σ this v l n e σ' :
  relocation_safe →
  objs σ !! this = Some v →
  owns σ v l →
  Reserve this n σ = (Throw e, σ') →
  objs σ' = objs σ ∧ owns σ' v l ∧
  (heap σ' = heap σ ∨ heap σ' = heap σ ++ [None]).
Proof.
  intros Hsafe Hv Hown Hrun. unfold Reserve in Hrun.
  rewrite (bind_run _ _ _ _ _ (get_obj_run _ _ _ Hv)) in Hrun.
  unfold RawMemory_Capacity in Hrun. case_decide as Hcap; [done|].
  apply with_new_data_Throw in Hrun as [Ho Hh]; [|lia|].
  - split; [done|]. split; [|done]. by eapply owns_after_throw.
  - simpl. apply growth_rest_throws.
    + intros Hpath. by apply no_throw_relocate_n_move.
    + intros Hpath. by apply stays_within_relocate_n_copy.
Qed.

(** X16.  [Reserve] that throws, where the relocation is by copy or by a move
    that does not throw: the vector object is as it was and holds what it
    held, in the storage it had; the heap is as it was, but for a block
    that the call has allocated and released again. *)
Theorem Reserve_strong_guarantee σ this v l n e σ' :
  relocation_safe →
  objs σ !! this = Some v →
  owns σ v l →
  Reserve this n σ = (Throw e, σ') →
  objs σ' = objs σ ∧ owns σ' v l ∧
  (heap σ' = heap σ ∨ heap σ' = heap σ ++ [None]).
Proof. apply Reserve_Throw. Qed.

(** X17.  [PushBack] that throws, with or without spare capacity, where the
    relocation is by copy or by a move that does not throw: the vector
    object is as it was and holds what it held, in the storage it had; the
    heap is as it was, but for a block that the call has allocated and
    released again. *)
Theorem PushBack_strong_guarantee σ this v l ctor e σ' :
  relocation_safe →
  objs σ !! this = Some v →
  owns σ v l →
  PushBack this ctor σ = (Throw e, σ') →
  objs σ' = objs σ ∧ owns σ' v l ∧
  (heap σ' = heap σ ∨ heap σ' = heap σ ++ [None]).
Proof.
  intros Hsafe Hv Hown Hrun. unfold PushBack in Hrun.
  rewrite (bind_run _ _ _ _ _ (get_obj_run _ _ _ Hv)) in Hrun.
  apply bind_Throw_l in Hrun; [|intros _; apply no_throw_set_size].
  assert (objs σ' = objs σ ∧ (heap σ' = heap σ ∨ heap σ' = heap σ ++ [None]))
    as [Ho Hh]; [|split; [done|]; split; [by eapply owns_after_throw|done]].
  case_decide as Hfull.
  - apply with_new_data_Throw in Hrun; [done|apply grown_ne_0|].
    simpl. apply throws_within_bind.
    { by apply stays_within_construct_at. }
    intros _. apply growth_rest_throws.
    + intros Hpath. by apply no_throw_relocate_n_move.
    + intros Hpath. by apply stays_within_relocate_n_copy.
  - apply construct_at_Throw in Hrun as (w' & _ & _ & ->).
    split; [done|by left].
Qed.

(** X18.  [Emplace] at a valid position of a vector without spare capacity (and
    so [EmplaceBack] on such a vector) that throws, where the relocation is
    by copy or by a move that does not throw: the vector object is as it
    was and holds what it held, in the storage it had; the heap is as it
    was, but for a block that the call has allocated and released again. *)
Theorem Emplace_growth_strong_guarantee σ this v l k ctor e σ' :
  relocation_safe →
  objs σ !! this = Some v →
  owns σ v l →
  capacity_ (data_ v) ≤ size_ v →
  k ≤ length l →
  Emplace this (ptr_add (begin_ v) k) ctor σ = (Throw e, σ') ∨
  (k = length l ∧ EmplaceBack this ctor σ = (Throw e, σ')) →
  objs σ' = objs σ ∧ owns σ' v l ∧
  (heap σ' = heap σ ∨ heap σ' = heap σ ++ [None]).
Proof.
  intros Hsafe Hv Hown Hfull Hk Hrun. pose proof Hown as (Hs & _).
  assert (Emplace this (ptr_add (begin_ v) k) ctor σ = (Throw e, σ')) as Hrun'.
  { destruct Hrun as [H|[-> H]]; [done|]. unfold EmplaceBack in H.
    rewrite (bind_run _ _ _ _ _ (get_obj_run _ _ _ Hv)) in H.
    unfold end_ in H. fold (begin_ v) in H. by rewrite Hs in H. }
  clear Hrun. unfold Emplace in Hrun'.
  rewrite (bind_run _ _ _ _ _ (get_obj_run _ _ _ Hv)) in Hrun'.
  rewrite (owns_begin_add _ _ _ _ Hown) in Hrun' by lia.
  rewrite (bind_run _ _ σ k σ eq_refl) in Hrun'.
  apply bind_Throw_l in Hrun'; last first.
  { intros _. apply no_throw_bind; [apply no_throw_set_size|]. intros _.
    apply no_throw_bind; [apply no_throw_get_obj|]. intros v'.
    apply no_throw_ret. }
  unfold RawMemory_Capacity in Hrun'. rewrite decide_False in Hrun' by lia.
  apply with_new_data_Throw in Hrun' as [Ho Hh]; [|apply grown_ne_0|].
  - split; [done|]. split; [|done]. by eapply owns_after_throw.
  - simpl. apply throws_within_bind.
    { by apply stays_within_construct_at. }
    intros _.
    assert (no_throw (destroy_n (GetAddress (data_ v)) (size_ v);;
              swap_data this
                (mkRawMemory (Ptr (length (heap σ)) 0)
                   (if decide (size_ v = 0) then 1 else size_ v * 2))))
      as Htail.
    { apply no_throw_bind; [apply no_throw_destroy_n|].
      intros _. apply no_throw_swap_data. }
    destruct (is_nothrow_move_constructible || negb is_copy_constructible)
      eqn:Hpath.
    + apply throws_within_no_throw.
      apply no_throw_bind; [by apply no_throw_relocate_n_move|]. intros _.
      apply no_throw_bind; [apply no_throw_size_sub|]. intros rest.
      apply no_throw_bind; [by apply no_throw_relocate_n_move|]. by intros _.
    + apply throws_within_bind; [by apply stays_within_relocate_n_copy|].
      intros _. apply throws_within_bind.
      { apply stays_within_size_sub. }
      intros rest. apply throws_within_bind;
        [by apply stays_within_relocate_n_copy|].
      intros _. by apply throws_within_no_throw.
Qed.


(** *** When the allocation fails *)

Lemma with_new_data_bad_alloc n (body : RawMemory → M RawMemory) σ :
  n ≠ 0 →
  can_allocate n (world σ) = false →
  with_new_data n body σ = (Throw bad_alloc, σ).
Proof.
  intros Hn Hc. unfold with_new_data, RawMemory_ctor, Allocate, bind.
  rewrite decide_True by done. unfold operator_new.
  unfold can_allocate in Hc. by rewrite Hc.
Qed.

(** X19.  When [operator new] cannot serve the request of a growth, [Reserve],
    [Resize], [PushBack], [EmplaceBack] and [Emplace] throw [bad_alloc], and
    the whole state is what it was before the call. *)
Theorem growth_allocation_failure σ this v l :
  objs σ !! this = Some v →
  owns σ v l →
  (∀ n, capacity_ (data_ v) < n →
        can_allocate n (world σ) = false →
        Reserve this n σ = (Throw bad_alloc, σ) ∧
        Resize this n σ = (Throw bad_alloc, σ)) ∧
  (∀ ctor, size_ v = capacity_ (data_ v) →
        can_allocate (grown (size_ v)) (world σ) = false →
        PushBack this ctor σ = (Throw bad_alloc, σ) ∧
        EmplaceBack this ctor σ = (Throw bad_alloc, σ) ∧
        ∀ k, k ≤ size_ v →
          Emplace this (ptr_add (begin_ v) k) ctor σ = (Throw bad_alloc, σ)).
Proof.
  intros Hv Hown. pose proof Hown as (Hs & _). split.
  - intros n Hn Hc.
    assert (Reserve this n σ = (Throw bad_alloc, σ)) as Hres.
    { unfold Reserve. rewrite (bind_run _ _ _ _ _ (get_obj_run _ _ _ Hv)).
      unfold RawMemory_Capacity. rewrite decide_False by lia.
      apply with_new_data_bad_alloc; [lia|done]. }
    split; [done|]. unfold Resize, bind. by rewrite Hres.
  - intros ctor Hfull Hc.
    assert (∀ k, k ≤ size_ v →
      Emplace this (ptr_add (begin_ v) k) ctor σ = (Throw bad_alloc, σ)) as HE.
    { intros k Hk. unfold Emplace.
      rewrite (bind_run _ _ _ _ _ (get_obj_run _ _ _ Hv)).
      rewrite (owns_begin_add _ _ _ _ Hown) by lia.
      rewrite (bind_run _ _ σ k σ eq_refl).
      unfold RawMemory_Capacity. rewrite decide_False by lia.
      unfold bind at 1. rewrite with_new_data_bad_alloc; [done| |done].
      apply grown_ne_0. }
    split_and!; [| |done].
    + unfold PushBack. rewrite (bind_run _ _ _ _ _ (get_obj_run _ _ _ Hv)).
      unfold RawMemory_Capacity. rewrite decide_True by lia.
      unfold bind at 1. rewrite with_new_data_bad_alloc; [done| |done].
      apply grown_ne_0.
    + unfold EmplaceBack. rewrite (bind_run _ _ _ _ _ (get_obj_run _ _ _ Hv)).
      unfold end_. fold (begin_ v). by apply HE.
Qed.

(** X20.  When [operator new] cannot serve the request for the storage,
    [Vector(n)] with [n > 0], the copy constructor from a vector that is
    not empty, and the copy assignment from a vector that does not fit
    into the capacity of the target throw [bad_alloc], and the whole state
    is what it was before the call: no object has come into being. *)
Theorem construction_allocation_failure σ :
  (∀ this n, n ≠ 0 → can_allocate n (world σ) = false →
     Vector_ctor_size this n σ = (Throw bad_alloc, σ)) ∧
  (∀ other o, objs σ !! other = Some o → size_ o ≠ 0 →
     can_allocate (size_ o) (world σ) = false →
     (∀ c, Vector_copy_ctor c other σ = (Throw bad_alloc, σ)) ∧
     (∀ this v, this ≠ other → objs σ !! this = Some v →
        capacity_ (data_ v) < size_ o →
        copy_assignment this other σ = (Throw bad_alloc, σ))).
Proof.
  assert (∀ n, n ≠ 0 → can_allocate n (world σ) = false →
    RawMemory_ctor n σ = (Throw bad_alloc, σ)) as Hctor.
  { intros n Hn Hc. unfold RawMemory_ctor, Allocate, bind.
    rewrite decide_True by done. unfold operator_new.
    unfold can_allocate in Hc. by rewrite Hc. }
  split.
  - intros this n Hn Hc. unfold Vector_ctor_size, bind. by rewrite Hctor.
  - intros other o Ho Hn Hc.
    assert (∀ c, Vector_copy_ctor c other σ = (Throw bad_alloc, σ)) as Hcopy.
    { intros c. unfold Vector_copy_ctor.
      rewrite (bind_run _ _ _ _ _ (get_obj_run _ _ _ Ho)).
      unfold bind. by rewrite Hctor. }
    split; [done|]. intros this v Hne Hv Hcap.
    unfold copy_assignment. rewrite decide_True by done.
    rewrite (bind_run _ _ _ _ _ (get_obj_run _ _ _ Hv)).
    rewrite (bind_run _ _ _ _ _ (get_obj_run _ _ _ Ho)).
    unfold RawMemory_Capacity. rewrite decide_False by lia.
    unfold with_local_Vector, bind. by rewrite Hcopy.
Qed.


(** *** When an element constructor throws in the middle of a fill *)

Lemma heap_insert_eq (h h' : list (option (list (option T)))) b c :
  length h' = length h →
  (∀ b', b' ≠ b → h' !! b' = h !! b') →
  <[b := c]> h' = <[b := c]> h.
Proof.
  intros Hlen Hsame. apply list_eq. intros b'.
  destruct (decide (b' = b)) as [->|].
  - destruct (decide (b < length h)).
    + by rewrite !list_lookup_insert_eq by lia.
    + by rewrite !lookup_ge_None_2 by (rewrite length_insert; lia).
  - rewrite !list_lookup_insert_ne by done. by apply Hsame.
Qed.

(** [std::uninitialized_value_construct_n] that throws: the constructor
    of some object has thrown, the objects constructed before it have been
    destroyed again, and the slots are what they were. *)
Lemma uninitialized_value_construct_n_Throw b off n σ e σ' cs :
  heap σ !! b = Some (Some cs) →
  (∀ k, off ≤ k → k < off + n → k < length cs → cs !! k = Some None) →
  uninitialized_value_construct_n (Ptr b off) n σ = (Throw e, σ') →
  e = element_error ∧
  ∃ xs w', length xs < n ∧ Forall value_initialized xs ∧
    σ' = mkState (heap σ) (objs σ) w' (destroyed σ ++ xs).
Proof.
  intros Hb Hraw Hrun. unfold uninitialized_value_construct_n in Hrun.
  apply for_loop_Throw in Hrun as (i & σi & Hi & Hpre & Hstep).
  simpl in Hstep.
  pose proof (stays_within_uninitialized_value_construct_n
                (λ b', b' = b) (Ptr b off) i eq_refl _ _ _ Hpre)
    as (Hoi & Hli & Hsi & _).
  apply (uninitialized_value_construct_n_Ok _ _ _ _ _ _ Hb) in Hpre
    as (xs & Hlen & Hvi & Hle & Hbi & Hdi).
  apply on_unwind_Throw in Hstep as (σ1 & Hctor & Hclean);
    [|apply no_throw_destroy_n].
  apply construct_at_Throw in Hctor as (w' & _ & -> & ->).
  split; [done|]. exists xs, w'. split; [lia|]. split; [done|].
  destruct (destroy_n_exact b off i xs (set_world w' σi) _ Hbi Hlen)
    as (cs' & Hrun & Hlen' & Hnone & Hsame).
  { intros j x Hx. pose proof (lookup_lt_Some _ _ _ Hx) as Hj.
    destruct Hle as [->|Hle]; [lia|].
    rewrite lookup_app_r by (rewrite length_take; lia).
    rewrite length_take, lookup_app_l by (rewrite length_fmap; lia).
    replace (off + j - off `min` length cs) with j by lia.
    by rewrite list_lookup_fmap, Hx. }
  rewrite Hrun in Hclean. injection Hclean as <-. simpl.
  rewrite Hoi, Hdi. f_equal.
  assert (cs' = cs) as ->.
  { apply list_eq. intros k.
    assert (length cs' = length cs) as Hlen''.
    { rewrite Hlen', !length_app, length_fmap, length_take, length_drop.
      destruct Hle as [->|Hle]; lia. }
    destruct (decide (k < length cs)) as [Hk|Hk];
      [|by rewrite !lookup_ge_None_2 by lia].
    destruct (decide (off ≤ k ∧ k < off + i)) as [[Hk1 Hk2]|Hout].
    - rewrite Hnone by done. symmetry. apply Hraw; lia.
    - rewrite Hsame by lia. destruct (decide (k < off)).
      + rewrite lookup_app_l by (rewrite length_take; lia).
        by rewrite lookup_take_lt.
      + rewrite lookup_app_r by (rewrite length_take; lia).
        rewrite length_take. replace (off `min` length cs) with off by lia.
        rewrite lookup_app_r by (rewrite length_fmap; lia).
        rewrite length_fmap, lookup_drop. f_equal. lia. }
  rewrite (heap_insert_eq (heap σ) (heap σi) b); [by apply list_insert_id|done|].
  intros b' Hb'. by apply Hsi.
Qed.

(** X21.  [Vector(n)] that throws.  Either the allocation has failed, and the
    state is what it was.  Or the value-initialisation of some element has
    thrown: then no vector has come into being, the objects constructed
    before the throw have been destroyed again, the one block allocated by
    the call is released, and every other block is as it was. *)
Theorem Vector_ctor_size_throws σ this n e σ' :
  Vector_ctor_size this n σ = (Throw e, σ') →
  (e = bad_alloc ∧ n ≠ 0 ∧ can_allocate n (world σ) = false ∧ σ' = σ) ∨
  (e = element_error ∧
   ∃ xs w', length xs < n ∧ Forall value_initialized xs ∧
     σ' = mkState (heap σ ++ [None]) (objs σ) w' (destroyed σ ++ xs)).
Proof.
  intros Hrun. unfold Vector_ctor_size in Hrun.
  apply bind_Throw in Hrun as [H|(data & σ1 & Hctor & Hrun)].
  - left. unfold RawMemory_ctor, Allocate in H.
    apply bind_Throw_l in H; [|intros a; apply no_throw_ret].
    case_decide as Hn; [|done]. unfold operator_new in H.
    fold (can_allocate n (world σ)) in H.
    destruct (can_allocate n (world σ)) eqn:Hc; [done|].
    by injection H as <- <-.
  - right. apply bind_Throw_l in Hrun; [|by intros _ s e' s'].
    apply on_unwind_Throw in Hrun as (σ2 & Hfill & Hdtor);
      [|apply no_throw_operator_delete].
    apply RawMemory_ctor_Ok in Hctor as [(-> & -> & ->)|(Hn & _ & -> & ->)];
      [done|].
    simpl in Hfill.
    apply (uninitialized_value_construct_n_Throw (length (heap σ)) 0 n
             (set_heap (heap σ ++ [Some (replicate (room n) None)]) σ) _ _
             (replicate (room n) None) (lookup_new_block _ _)) in Hfill
      as (-> & xs & w' & Hlen & Hvi & ->).
    2:{ intros k _ _ Hk. rewrite length_replicate in Hk.
        by apply lookup_replicate_2. }
    split; [done|]. exists xs, w'. split; [done|]. split; [done|].
    unfold RawMemory_dtor, Deallocate, operator_delete in Hdtor.
    simpl in Hdtor. rewrite lookup_new_block in Hdtor. injection Hdtor as <-.
    unfold set_heap. simpl. by rewrite insert_new_block.
Qed.


Lemma construct_at_exact b i ctor σ cs w' x :
  heap σ !! b = Some (Some cs) →
  i < length cs →
  ctor (world σ) = (w', Some x) →
  construct_at (Ptr b i) ctor σ
    = (Ok tt, mkState (<[b := Some (<[i := Some x]> cs)]> (heap σ)) (objs σ)
                      w' (destroyed σ)).
Proof.
  intros Hb Hi Hx. unfold construct_at, bind, run_elem, store. rewrite Hx.
  simpl. rewrite Hb. by rewrite decide_True.
Qed.

Lemma owns_same_heap σ σ' v l : heap σ' = heap σ → owns σ v l → owns σ' v l.
Proof. intros Hh. unfold owns. by rewrite Hh. Qed.

Section lawful_throw.
Context {L : Lawful T W}.

(** X22.  [Resize(n)] that throws, where the relocation is by copy or by a
    move that does not throw, and [n] is within the capacity or has a byte
    count [n * sizeof(T)] that does not wrap in [size_t]: the vector holds
    what it held; when the new size is within the capacity, the vector
    object and the heap are as they were (the objects constructed before
    the throw have been destroyed again), and otherwise the capacity may
    have grown. *)
Theorem Resize_throws σ this v l n e σ' :
  relocation_safe →
  objs σ !! this = Some v →
  owns σ v l →
  (capacity_ (data_ v) < n → fits n) →
  Resize this n σ = (Throw e, σ') →
  ∃ v', objs σ' !! this = Some v' ∧ owns σ' v' l ∧
    (n ≤ capacity_ (data_ v) →
       v' = v ∧ objs σ' = objs σ ∧ heap σ' = heap σ).
Proof.
  intros Hsafe Hv Hown Hfits Hrun. unfold Resize in Hrun.
  apply bind_Throw in Hrun as [Hres|([] & σ1 & Hres & Hrun)].
  - pose proof (Reserve_Throw _ _ _ _ _ _ _ Hsafe Hv Hown Hres)
      as (Ho & Hown' & _).
    exists v. split; [by rewrite Ho|]. split; [done|]. intros Hn.
    unfold Reserve in Hres.
    rewrite (bind_run _ _ _ _ _ (get_obj_run _ _ _ Hv)) in Hres.
    unfold RawMemory_Capacity in Hres. by rewrite decide_True in Hres.
  - destruct (Reserve_spec _ _ _ _ _ _ Hv Hown Hfits Hres)
      as (v1 & Hv1 & Hown1 & Hcap1 & Hsame & _).
    pose proof Hown1 as (Hs1 & Hl1 & _).
    rewrite (bind_run _ _ _ _ _ (get_obj_run _ _ _ Hv1)) in Hrun.
    apply bind_Throw_l in Hrun; [|intros _; apply no_throw_set_size].
    case_decide as Hgrow; [|by apply no_throw_destroy_n in Hrun].
    destruct (owns_block _ _ _ Hown1) as (b & Hbuf & Hb); [lia|].
    unfold GetAddress in Hrun. rewrite Hbuf, Hs1 in Hrun. simpl in Hrun.
    apply (uninitialized_value_construct_n_Throw _ _ _ _ _ _ _ Hb) in Hrun
      as (_ & xs & w' & _ & _ & ->).
    2:{ intros k Hk _ Hk'. rewrite cells_of_length in Hk' by done.
        by apply cells_of_lookup_ge. }
    exists v1. simpl. split; [done|]. split; [by eapply owns_same_heap|].
    intros Hn. by destruct (Hsame Hn) as [-> ->].
Qed.

(** [std::uninitialized_copy_n] that throws: the copy of some object has
    thrown, the copies made before it have been destroyed again, and the
    slots of the target are what they were. *)
Lemma uninitialized_copy_n_Throw first xs bd dof n σ e σ' cd :
  length xs = n →
  source_of σ first xs bd →
  heap σ !! bd = Some (Some cd) →
  uninitialized_copy_n first n (Ptr bd dof) σ = (Throw e, σ') →
  e = element_error ∧
  ∃ i w' cd', i < n ∧
    σ' = mkState (<[bd := Some cd']> (heap σ)) (objs σ) w'
                 (destroyed σ ++ take i xs) ∧
    length cd' = length cd ∧
    (∀ k, dof ≤ k → k < dof + i → cd' !! k = Some None) ∧
    (∀ k, k < dof ∨ dof + i ≤ k → cd' !! k = cd !! k).
Proof.
  intros Hlen Hsrc Hbd Hrun. unfold uninitialized_copy_n in Hrun.
  apply for_loop_Throw in Hrun as (i & σi & Hi & Hpre & Hstep).
  simpl in Hstep.
  pose proof (stays_within_uninitialized_copy_n (λ b', b' = bd)
                first i (Ptr bd dof) eq_refl _ _ _ Hpre)
    as (Hoi & Hli & Hsi & _).
  eapply (cross_loop_Ok first (take i xs) i bd dof) in Hpre
    as (cdi & Hbi & Hleni & Hcdi & Houti & _ & Hdi & _);
    [|intros bs so -> Hne; by apply copy_relocation_step
     |rewrite length_take; lia|by apply source_of_take|exact Hbd].
  apply on_unwind_Throw in Hstep as (σ1 & Hcopy & Hclean);
    [|apply no_throw_destroy_n].
  unfold copy_construct_at in Hcopy.
  apply bind_Throw_r in Hcopy as (x & σ0 & Hload & Hctor);
    [|apply no_throw_load].
  apply load_Ok in Hload as [-> _].
  apply construct_at_Throw in Hctor as (w' & _ & -> & ->).
  split; [done|].
  destruct (destroy_n_exact bd dof i (take i xs) (set_world w' σi) _ Hbi)
    as (cd' & Hrun & Hlen' & Hnone & Hsame);
    [rewrite length_take; lia|done|].
  rewrite Hrun in Hclean. injection Hclean as <-. simpl.
  exists i, w', cd'. split; [done|]. split_and!.
  - rewrite Hoi, Hdi. f_equal. apply heap_insert_eq; [done|].
    intros b' Hb'. by apply Hsi.
  - congruence.
  - done.
  - intros k Hk. rewrite Hsame by done. by apply Houti.
Qed.

(** X23.  The copy constructor that throws.  Either the allocation has failed,
    and the state is what it was.  Or the copy of some element has thrown:
    then no vector has come into being, the copies made before the throw
    (of the first [i] elements, for some [i]) have been destroyed again, in
    some order, and nothing else has, the one block allocated by the call
    is released, and every other block, so the source too, is as it
    was. *)
Theorem Vector_copy_ctor_throws σ c other o lo e σ' :
  objs σ !! other = Some o →
  owns σ o lo →
  Vector_copy_ctor c other σ = (Throw e, σ') →
  (e = bad_alloc ∧ can_allocate (length lo) (world σ) = false ∧ σ' = σ) ∨
  (e = element_error ∧
   ∃ i ds w', i < length lo ∧ ds ≡ₚ take i lo ∧
     σ' = mkState (heap σ ++ [None]) (objs σ) w' (destroyed σ ++ ds)).
Proof.
  intros Ho Hown Hrun. pose proof Hown as (Hs & _).
  unfold Vector_copy_ctor in Hrun.
  rewrite (bind_run _ _ _ _ _ (get_obj_run _ _ _ Ho)) in Hrun.
  rewrite Hs in Hrun.
  apply bind_Throw in Hrun as [H|(data & σ1 & Hctor & Hrun)].
  - left. unfold RawMemory_ctor, Allocate in H.
    apply bind_Throw_l in H; [|intros a; apply no_throw_ret].
    case_decide as Hn; [|done]. unfold operator_new in H.
    fold (can_allocate (length lo) (world σ)) in H.
    destruct (can_allocate (length lo) (world σ)) eqn:Hc; [done|].
    by injection H as <- <-.
  - right. apply bind_Throw_l in Hrun; [|by intros _ s e' s'].
    apply on_unwind_Throw in Hrun as (σ2 & Hfill & Hdtor);
      [|apply no_throw_operator_delete].
    apply RawMemory_ctor_Ok in Hctor as [(Hz & -> & ->)|(Hn & _ & -> & ->)].
    { rewrite Hz in Hfill. by simpl in Hfill. }
    simpl in Hfill. set (nb := length (heap σ)) in *.
    eapply (uninitialized_copy_n_Throw _ lo nb 0) in Hfill
      as (-> & i & w' & cd' & Hi & -> & _); [|done| |apply lookup_new_block].
    2:{ eapply owns_source; [done|done|]. intros b Hb. simpl.
        by apply lookup_app_l. }
    split; [done|]. exists i, (take i lo), w'. split; [done|]. split; [done|].
    unfold RawMemory_dtor, Deallocate, operator_delete in Hdtor.
    simpl in Hdtor. rewrite list_lookup_insert_eq in Hdtor
      by (rewrite length_app; simpl; lia).
    injection Hdtor as <-. unfold set_heap. simpl. f_equal.
    rewrite list_insert_insert_eq. apply insert_new_block.
Qed.

(** X24.  [PushBack] on a full vector of elements that are relocated by copy,
    when the new element has been constructed and the copy of some old
    element throws: the vector object and every block that was there are
    as they were, and the block allocated by the call is released.  The
    destructor has run for the copies made before the throw (of the first
    [i] old elements, for some [i]), in some order, and for no other
    object: the new element, constructed in the new block at the start, is
    released with the block. *)
Theorem PushBack_copy_throws σ this v l ctor w1 x e σ' :
  objs σ !! this = Some v →
  owns σ v l →
  size_ v = capacity_ (data_ v) →
  is_nothrow_move_constructible || negb is_copy_constructible = false →
  can_allocate (grown (size_ v)) (world σ) = true →
  ctor (world σ) = (w1, Some x) →
  PushBack this ctor σ = (Throw e, σ') →
  e = element_error ∧
  ∃ i ds w', i < length l ∧ ds ≡ₚ take i l ∧
    σ' = mkState (heap σ ++ [None]) (objs σ) w' (destroyed σ ++ ds).
Proof.
  intros Hv Hown Hfull Hpath Hc Hx Hrun. pose proof Hown as (Hs & Hl & _).
  unfold PushBack in Hrun.
  rewrite (bind_run _ _ _ _ _ (get_obj_run _ _ _ Hv)) in Hrun.
  apply bind_Throw_l in Hrun; [|intros _; apply no_throw_set_size].
  unfold RawMemory_Capacity in Hrun. rewrite decide_True in Hrun by lia.
  fold (grown (size_ v)) in Hrun. pose proof (grown_gt (size_ v)) as Hgt.
  set (cap' := grown (size_ v)) in *. set (nb := length (heap σ)) in *.
  unfold with_new_data in Hrun.
  assert (RawMemory_ctor cap' σ
          = (Ok (mkRawMemory (Ptr nb 0) cap'),
             set_heap (heap σ ++ [Some (replicate (room cap') None)]) σ))
    as Hctor.
  { unfold RawMemory_ctor, Allocate, bind, operator_new.
    rewrite decide_True by lia. unfold can_allocate in Hc. by rewrite Hc. }
  rewrite (bind_run _ _ _ _ _ Hctor) in Hrun.
  apply bind_Throw_l in Hrun; [|intros a; apply no_throw_operator_delete].
  apply on_unwind_Throw in Hrun as (σ2 & Hbody & Hdtor);
    [|apply no_throw_operator_delete].
  simpl in Hbody.
  (* without room for the new element the call does not throw: it writes
     outside the block *)
  destruct (decide (size_ v < room cap')) as [Hroom|Hroom]; last first.
  { exfalso. unfold bind at 1 in Hbody.
    unfold construct_at, bind, run_elem, store in Hbody. simpl in Hbody.
    rewrite Hx in Hbody. simpl in Hbody. unfold nb in Hbody.
    rewrite lookup_new_block in Hbody.
    by rewrite decide_False in Hbody by (rewrite length_replicate; lia). }
  pose proof (room_grown _ Hroom) as Hm. change (room cap' = cap') in Hm.
  rewrite Hm in Hbody. clear Hctor.
  erewrite bind_run in Hbody; last first.
  { apply (construct_at_exact nb (size_ v) ctor _ (replicate cap' None) w1 x).
    - apply lookup_new_block.
    - rewrite length_replicate. lia.
    - exact Hx. }
  apply bind_Throw_l in Hbody; last first.
  { intros _. apply no_throw_bind; [apply no_throw_destroy_n|].
    intros _. apply no_throw_swap_data. }
  unfold relocate_n in Hbody. rewrite Hpath in Hbody.
  eapply (uninitialized_copy_n_Throw _ l nb 0) in Hbody
    as (-> & i & w' & cd' & Hi & -> & _); [|done| |].
  2:{ eapply owns_source; [done|done|]. intros b Hb. simpl.
      rewrite list_lookup_insert_ne by (subst nb; lia).
      by apply lookup_app_l. }
  2:{ simpl. apply list_lookup_insert_eq. rewrite length_app. simpl.
      subst nb. lia. }
  split; [done|]. exists i, (take i l), w'. split; [lia|]. split; [done|].
  unfold RawMemory_dtor, Deallocate, operator_delete in Hdtor.
  simpl in Hdtor. rewrite list_lookup_insert_eq in Hdtor
    by (rewrite length_insert, length_app; simpl; subst nb; lia).
  injection Hdtor as <-. unfold set_heap. simpl. f_equal.
  rewrite !list_insert_insert_eq. apply insert_new_block.
Qed.

End lawful_throw.


(** *** Construction and destruction *)

(** X25.  [RawMemory(n)], when it returns, has the capacity [n], and no storage
    exactly when [n] is 0.  After a move construction from it, the
    destructor of the moved-from object does nothing, and the destructor
    of the new object releases the block: of the two, the block is
    released once. *)
Theorem RawMemory_round_trip σ n r σ1 :
  RawMemory_ctor n σ = (Ok r, σ1) →
  capacity_ r = n ∧
  (buffer_ r = nullptr ↔ n = 0) ∧
  objs σ1 = objs σ ∧
  RawMemory_dtor (RawMemory_move r).2 σ1 = (Ok tt, σ1) ∧
  ∃ σ2, RawMemory_dtor (RawMemory_move r).1 σ1 = (Ok tt, σ2) ∧
    objs σ2 = objs σ ∧ world σ2 = world σ ∧ destroyed σ2 = destroyed σ ∧
    heap σ2 = if decide (n = 0) then heap σ else heap σ ++ [None].
Proof.
  intros Hrun.
  apply RawMemory_ctor_Ok in Hrun as [(-> & -> & ->)|(Hn & _ & -> & ->)].
  - split_and!; try done. exists σ. by split_and!.
  - simpl. split_and!; try done.
    unfold RawMemory_dtor, Deallocate, operator_delete. simpl.
    rewrite lookup_new_block. eexists. split; [done|]. simpl.
    rewrite decide_False by done. split_and!; try done.
    apply insert_new_block.
Qed.

Section lawful_ctor.
Context {L : Lawful T W}.

Lemma owns_old_blocks σ σ' v l :
  (∀ b, b < length (heap σ) → heap σ' !! b = heap σ !! b) →
  owns σ v l → owns σ' v l.
Proof.
  intros Hsame (Hs & Hl & Hbuf). split; [done|]. split; [done|].
  destruct (buffer_ (data_ v)) as [|b i]; [done|].
  destruct Hbuf as [-> Hb]. split; [done|].
  rewrite Hsame; [done|]. by eapply lookup_lt_Some.
Qed.

(** What a successful copy construction has made. *)
Lemma Vector_copy_ctor_spec σ c other o lo σ' :
  objs σ !! other = Some o →
  owns σ o lo →
  Vector_copy_ctor c other σ = (Ok tt, σ') →
  ∃ v', objs σ' = <[c := v']> (objs σ) ∧
    owns σ' v' lo ∧ owns σ' o lo ∧
    size_ v' = length lo ∧ capacity_ (data_ v') = length lo ∧
    buffer_ (data_ v')
      = (if decide (length lo = 0) then nullptr
         else Ptr (length (heap σ)) 0) ∧
    separate v' o.
Proof.
  intros Ho Hown Hrun. pose proof Hown as (Hs & _ & Hbufo).
  destruct (Vector_copy_ctor_frame _ _ _ _ _ Hrun) as (_ & Hsame & _).
  destruct (Vector_copy_ctor_Ok _ _ _ _ _ _ Ho Hown Hrun)
    as (d & Ho' & Hown' & Hcap & _).
  unfold Vector_copy_ctor in Hrun.
  rewrite (bind_run _ _ _ _ _ (get_obj_run _ _ _ Ho)) in Hrun.
  apply bind_Ok in Hrun as (data & σ1 & Hctor & Hrun).
  apply bind_Ok in Hrun as ([] & σ2 & _ & [= <-]).
  assert (d = data) as ->.
  { assert (objs (set_objs (<[c := mkVector data (size_ o)]> (objs σ2)) σ2)
            !! c = Some (mkVector d (length lo))) as Hc
      by (by rewrite Ho', lookup_insert_eq).
    simpl in Hc. rewrite lookup_insert_eq in Hc. by injection Hc. }
  assert (buffer_ data = (if decide (length lo = 0) then nullptr
                          else Ptr (length (heap σ)) 0)) as Hbuf.
  { rewrite Hs in Hctor.
    apply RawMemory_ctor_Ok in Hctor as [(Hz & -> & _)|(Hn & _ & -> & _)].
    - by rewrite decide_True.
    - by rewrite decide_False. }
  exists (mkVector data (length lo)). split_and!; try done.
  - by eapply owns_old_blocks.
  - intros b i b' i' Hp Hp'. simpl in Hp. rewrite Hbuf in Hp.
    case_decide; [done|]. injection Hp as <- <-.
    rewrite Hp' in Hbufo. destruct Hbufo as [_ Hb'].
    apply lookup_lt_Some in Hb'. lia.
Qed.

(** What [Vector(n)] has done to the heap when it has returned. *)
Lemma Vector_ctor_size_heap σ this n σ1 :
  Vector_ctor_size this n σ = (Ok tt, σ1) →
  ∃ data xs, objs σ1 = <[this := mkVector data n]> (objs σ) ∧
    owns σ1 (mkVector data n) xs ∧
    length xs = n ∧ Forall value_initialized xs ∧
    destroyed σ1 = destroyed σ ∧
    (n = 0 → buffer_ data = nullptr ∧ heap σ1 = heap σ) ∧
    (n ≠ 0 → buffer_ data = Ptr (length (heap σ)) 0 ∧
             heap σ1 = heap σ ++ [Some (cells_of xs n)]).
Proof.
  intros Hrun. unfold Vector_ctor_size in Hrun.
  apply bind_Ok in Hrun as (data & σa & Hctor & Hrun).
  apply bind_Ok in Hrun as ([] & σb & Hfill & [= <-]).
  apply on_unwind_Ok in Hfill.
  apply RawMemory_ctor_Ok in Hctor as [(-> & -> & ->)|(Hn & _ & -> & ->)].
  - simpl in Hfill. injection Hfill as <-.
    exists (mkRawMemory nullptr 0), []. simpl. split_and!; try done.
  - simpl in Hfill.
    (* every element was constructed in the block, so it has room for all *)
    assert (room n = n) as Hroom.
    { pose proof Hfill as Hfill'.
      eapply uninitialized_value_construct_n_Ok in Hfill'
        as (_ & _ & _ & Hroom & _); [|apply lookup_new_block].
      rewrite length_replicate in Hroom. apply room_full. lia. }
    rewrite Hroom in Hfill.
    pose proof (stays_within_uninitialized_value_construct_n
                  (λ b', b' = length (heap σ)) (Ptr (length (heap σ)) 0) n
                  eq_refl _ _ _ Hfill) as (Hob & Hlb & Hsb & _).
    apply (uninitialized_value_construct_n_Ok (length (heap σ)) 0 n
             (set_heap (heap σ ++ [Some (replicate n None)]) σ) _
             (replicate n None) (lookup_new_block _ _)) in Hfill
      as (xs & Hlen & Hvi & _ & Hnb & Hd).
    assert (take 0 (replicate n None) ++ (Some <$> xs)
              ++ drop (0 + n) (replicate n None) = cells_of xs n) as Hcells.
    { unfold cells_of. rewrite take_0, drop_replicate, Hlen. simpl.
      by rewrite Nat.sub_diag. }
    rewrite Hcells in Hnb. simpl in *.
    exists (mkRawMemory (Ptr (length (heap σ)) 0) n), xs. simpl.
    split_and!; try done.
    + by rewrite Hob.
    + unfold owns. simpl. split_and!; done || lia.
    + intros _. split; [done|]. apply list_eq. intros b.
      destruct (decide (b = length (heap σ))) as [->|].
      * by rewrite Hnb, lookup_new_block.
      * rewrite Hsb by done.
        destruct (decide (b < length (heap σ))).
        -- by rewrite !lookup_app_l by done.
        -- rewrite !lookup_ge_None_2; [done|..];
             rewrite length_app; simpl; lia.
Qed.

(** [Vector(n)] where the byte count of [n] elements wraps to less than
    [sizeof(T)]: [operator new] gives a block without room for an object,
    the first element is constructed outside of it, and no vector comes
    into being. *)
Lemma Vector_ctor_size_no_room σ this n w' x :
  n ≠ 0 →
  room n = 0 →
  can_allocate n (world σ) = true →
  value_construct (world σ) = (w', Some x) →
  Vector_ctor_size this n σ
    = (Undefined, mkState (heap σ ++ [Some []]) (objs σ) w' (destroyed σ)).
Proof.
  intros Hn Hroom Hc Hx. destruct n as [|k]; [done|].
  unfold Vector_ctor_size, RawMemory_ctor, Allocate.
  rewrite decide_True by done. unfold operator_new, bind at 1 2.
  unfold can_allocate in Hc. rewrite Hc. fold (room (S k)). rewrite Hroom.
  unfold ret at 1.
  unfold uninitialized_value_construct_n, GetAddress. simpl.
  unfold bind at 1 2, on_unwind at 1, try_catch at 1, on_unwind at 1,
    try_catch at 1, construct_at, bind at 1, run_elem, store.
  simpl. rewrite Hx. simpl. rewrite lookup_new_block. simpl. done.
Qed.

Section nothrow_ctor.
Context {N : Nothrow T W}.

Lemma Vector_copy_ctor_run σ c other o lo :
  objs σ !! other = Some o →
  owns σ o lo →
  returns (Vector_copy_ctor c other) σ.
Proof.
  intros Ho Hown.
  destruct (Vector_copy_ctor_returns c other o lo σ Ho Hown)
    as (d & σ' & Hrun & _).
  by exists tt, σ'.
Qed.

End nothrow_ctor.


(** X27.  A vector made by [Vector(n)] at a new address and destroyed at once:
    the destructor returns, the objects destroyed are the [n]
    value-initialised elements, the block allocated for them is released,
    and the object store and every other block are as before the
    construction. *)
Theorem Vector_ctor_dtor_round_trip σ this n σ1 :
  objs σ !! this = None →
  Vector_ctor_size this n σ = (Ok tt, σ1) →
  ∃ σ2 xs, Vector_dtor this σ1 = (Ok tt, σ2) ∧
    length xs = n ∧ Forall value_initialized xs ∧
    objs σ2 = objs σ ∧
    destroyed σ2 = destroyed σ ++ xs ∧
    heap σ2 = if decide (n = 0) then heap σ else heap σ ++ [None].
Proof.
  intros Hnew Hrun.
  apply Vector_ctor_size_heap in Hrun
    as (data & xs & Ho1 & Hown1 & Hlen & Hvi & Hd1 & Hz & Hnz).
  destruct (Vector_dtor_run σ1 this (mkVector data n) xs)
    as (σ2 & Hdtor & Ho2 & Hd2 & _ & Hh2);
    [by rewrite Ho1, lookup_insert_eq|done|].
  exists σ2, xs. split_and!; try done.
  - by rewrite Ho2, Ho1, delete_insert_eq, delete_id.
  - by rewrite Hd2, Hd1.
  - simpl in Hh2. case_decide as Hn.
    + destruct (Hz Hn) as [Hbuf Hh1]. by rewrite Hbuf, Hh1 in Hh2.
    + destruct (Hnz Hn) as [Hbuf Hh1]. rewrite Hbuf, Hh1 in Hh2.
      rewrite Hh2. apply insert_new_block.
Qed.

(** X30.  [Vector()] at a new address makes an empty vector of capacity
    0 that owns no memory: nothing is allocated and nothing of the state
    changes but the new object.  Its destructor gives back the state
    before the construction, exactly; and a first [PushBack] that returns
    leaves it with the one new element and capacity 1. *)
Theorem Vector_default_empty σ this :
  objs σ !! this = None →
  ∃ σ', Vector_default this σ = (Ok tt, σ') ∧
    objs σ' = <[this := mkVector (mkRawMemory nullptr 0) 0]> (objs σ) ∧
    owns σ' (mkVector (mkRawMemory nullptr 0) 0) [] ∧
    heap σ' = heap σ ∧ world σ' = world σ ∧ destroyed σ' = destroyed σ ∧
    Size this σ' = (Ok 0, σ') ∧
    Capacity this σ' = (Ok 0, σ') ∧
    Vector_dtor this σ' = (Ok tt, σ) ∧
    ∀ ctor σ2, PushBack this ctor σ' = (Ok tt, σ2) →
      ∃ x v2, constructed_by ctor x ∧ objs σ2 !! this = Some v2 ∧
        owns σ2 v2 [x] ∧ capacity_ (data_ v2) = 1.
Proof.
  intros Hnew. eexists. split; [reflexivity|]. simpl.
  assert (owns (set_objs (<[this := mkVector RawMemory_default 0]> (objs σ)) σ)
               (mkVector (mkRawMemory nullptr 0) 0) []) as Hown by done.
  split_and!; try done.
  - unfold Size, bind, get_obj. simpl. by rewrite lookup_insert_eq.
  - unfold Capacity, bind, get_obj. simpl. by rewrite lookup_insert_eq.
  - unfold Vector_dtor, bind, get_obj. simpl. rewrite lookup_insert_eq. simpl.
    unfold del_obj, set_objs. simpl.
    rewrite delete_insert_eq, delete_id by done. by rewrite state_eta.
  - intros ctor σ2 Hrun.
    eapply PushBack_spec in Hrun as (x & v2 & Hx & Hv2 & Hown2 & _ & _ & Hd);
      [|simpl; apply lookup_insert_eq|exact Hown].
    exists x, v2. split_and!; try done. by rewrite Hd by (simpl; lia).
Qed.

End lawful_ctor.


(** *** Copy assignment in place that throws *)

Lemma stays_within_copy_assign_at B dst src :
  in_blocks B dst → stays_within B (copy_assign_at dst src).
Proof.
  intros HB. apply stays_within_bind; [apply stays_within_load|]. intros x.
  apply stays_within_bind; [apply stays_within_load|]. intros d.
  apply stays_within_bind; [apply stays_within_run_elem|]. intros d'.
  by apply stays_within_store.
Qed.

Lemma heap_one_block (h h' : list (option (list (option T)))) b c :
  length h' = length h →
  (∀ b', b' ≠ b → h' !! b' = h !! b') →
  h' !! b = Some c →
  h' = <[b := c]> h.
Proof.
  intros Hlen Hsame Hb. apply list_eq. intros b'.
  destruct (decide (b' = b)) as [->|].
  - rewrite list_lookup_insert_eq; [done|].
    rewrite <-Hlen. by eapply lookup_lt_Some.
  - rewrite list_lookup_insert_ne by done. by apply Hsame.
Qed.

Lemma copy_assign_at_Throw dst src σ e σ' :
  copy_assign_at dst src σ = (Throw e, σ') →
  e = element_error ∧ heap σ' = heap σ ∧ objs σ' = objs σ.
Proof.
  intros Hrun. unfold copy_assign_at in Hrun.
  apply bind_Throw_r in Hrun as (s & σ1 & H1 & Hrun); [|apply no_throw_load].
  apply load_Ok in H1 as [-> _].
  apply bind_Throw_r in Hrun as (d & σ1 & H1 & Hrun); [|apply no_throw_load].
  apply load_Ok in H1 as [-> _].
  apply bind_Throw_l in Hrun; [|intros x; apply no_throw_store].
  unfold run_elem in Hrun.
  destruct (copy_assign d s (world σ)) as [w' [x|]]; [done|].
  by injection Hrun as <- <-.
Qed.

Section lawful_assign.
Context {L : Lawful T W}.

(** The two loops of [CopyVector] on the block of the target, when one of
    them throws: the first [i] elements have the values of the source, and
    the others are what they were. *)
Lemma CopyVector_block_Throw b cap l lo first σ e σ' :
  heap σ !! b = Some (Some (cells_of l cap)) →
  length l ≤ cap →
  length lo ≤ cap →
  source_of σ first lo b →
  for_loop (λ i, copy_assign_at (ptr_add (Ptr b 0) i) (ptr_add first i))
           0 (length l `min` length lo) σ = (Throw e, σ') ∨
  (∃ σ1,
     for_loop (λ i, copy_assign_at (ptr_add (Ptr b 0) i) (ptr_add first i))
              0 (length l `min` length lo) σ = (Ok tt, σ1) ∧
     (if decide (length l ≤ length lo) then
        uninitialized_copy_n (ptr_add first (length l)) (length lo - length l)
                             (ptr_add (Ptr b 0) (length l))
      else
        destroy_n (ptr_add (Ptr b 0) (length lo)) (length l - length lo)) σ1
       = (Throw e, σ')) →
  e = element_error ∧ objs σ' = objs σ ∧
  ∃ i, i ≤ length l ∧ i ≤ length lo ∧
    heap σ' = <[b := Some (cells_of (take i lo ++ drop i l) cap)]> (heap σ).
Proof.
  intros Hb Hl Hlo Hsrc [Hrun|(σ1 & Hcopy & Hrest)].
  - apply for_loop_Throw in Hrun as (i & σi & Hi & Hpre & Hstep).
    pose proof (stays_within_for_loop (λ b', b' = b) _ i 0
      (λ j, stays_within_copy_assign_at _ (ptr_add (Ptr b 0) j)
              (ptr_add first j) eq_refl) _ _ _ Hpre) as (Hoi & Hli & Hsi & _).
    eapply (cross_loop_Ok first (take i lo)) in Hpre
      as (cdi & Hbi & Hleni & Hini & Houti & _);
      [| |rewrite length_take; lia|by apply source_of_take|exact Hb].
    2:{ intros bs so -> Hne. by apply copy_assign_step. }
    apply copy_assign_at_Throw in Hstep as (-> & Hh & Ho).
    split; [done|]. split; [congruence|].
    exists i. split; [lia|]. split; [lia|].
    rewrite Hh. apply heap_one_block; [done|done|]. rewrite Hbi. do 2 f_equal.
    rewrite cells_of_length in Hleni by done.
    assert (length (take i lo ++ drop i l) = length l) as Hlen
      by (rewrite length_app, length_take, length_drop; lia).
    apply cells_of_eq; [done|lia|..].
    + intros k x Hk. destruct (decide (k < i)).
      * rewrite lookup_app_l in Hk by (rewrite length_take; lia).
        by apply (Hini k).
      * rewrite lookup_app_r in Hk by (rewrite length_take; lia).
        rewrite length_take, lookup_drop in Hk.
        replace (i + (k - i `min` length lo)) with k in Hk by lia.
        rewrite Houti by (simpl; lia). by apply cells_of_lookup_lt.
    + intros k Hk Hk'. rewrite Houti by (simpl; lia).
      apply cells_of_lookup_ge; lia.
  - pose proof (stays_within_for_loop (λ b', b' = b) _ _ 0
      (λ j, stays_within_copy_assign_at _ (ptr_add (Ptr b 0) j)
              (ptr_add first j) eq_refl) _ _ _ Hcopy) as (Ho1 & Hl1 & Hs1 & _).
    assert (frame (λ b', b' = b) σ σ1) as Hfr1.
    { eapply mem_only_for_loop; [|exact Hcopy]. intros i.
      by apply mem_only_copy_assign_at. }
    eapply (cross_loop_Ok first (take (length l `min` length lo) lo)) in Hcopy
      as (cd1 & Hb1 & Hlen1 & Hin1 & Hout1 & _);
      [| |rewrite length_take; lia|by apply source_of_take|exact Hb].
    2:{ intros bs so -> Hne. by apply copy_assign_step. }
    rewrite cells_of_length in Hlen1 by done.
    case_decide as Hcmp; [|by apply no_throw_destroy_n in Hrest].
    simpl in Hrest.
    eapply (uninitialized_copy_n_Throw _ (drop (length l) lo) b (length l))
      in Hrest as (-> & i & w' & cd' & Hi & -> & Hlen' & Hnone & Hsame);
      [|rewrite length_drop; lia| |exact Hb1].
    2:{ eapply (source_of_frame _ _ _ _ _ _ Hfr1).
        - intros bs so Hfirst ->. destruct first as [|bs' so']; [done|].
          injection Hfirst as -> _. by destruct Hsrc.
        - by apply source_of_drop. }
    split; [done|]. split; [done|]. simpl.
    exists (length l). split; [done|]. split; [done|].
    rewrite (heap_insert_eq (heap σ) (heap σ1) b) by done. do 2 f_equal.
    rewrite drop_all, app_nil_r.
    apply cells_of_eq; [congruence|rewrite length_take; lia|..].
    + intros k x Hk. apply lookup_take_Some in Hk as [Hk Hkl].
      rewrite Hsame by lia. apply (Hin1 k). rewrite lookup_take_lt by lia. done.
    + intros k Hk Hk'. rewrite length_take in Hk.
      destruct (decide (k < length l + i)).
      * apply Hnone; lia.
      * rewrite Hsame by lia. rewrite Hout1 by lia.
        apply cells_of_lookup_ge; lia.
Qed.


End lawful_assign.


(** *** The invariant on return *)

Section lawful_invariant.
Context {L : Lawful T W}.

(** X29.  Every operation that changes a vector keeps its invariant when it
    returns: from a vector that holds some elements, after a [PushBack],
    an [EmplaceBack], an [Emplace] or an [Erase] at a valid position, a
    [PopBack], or a [Reserve(n)] or a [Resize(n)] for an [n] that is within
    the capacity or whose byte count [n * sizeof(T)] does not wrap in
    [size_t], that has returned, the object is there, its size is at most
    its capacity, and exactly the slots below the size hold live objects;
    after a copy assignment, a move assignment or a [Swap] with another
    vector that has returned, this holds of both. *)
Theorem invariant_kept_on_return σ this v l :
  objs σ !! this = Some v →
  owns σ v l →
  (∀ ctor σ', PushBack this ctor σ = (Ok tt, σ') → Vector_invariant σ' this) ∧
  (∀ ctor it σ', EmplaceBack this ctor σ = (Ok it, σ') →
     Vector_invariant σ' this) ∧
  (∀ k ctor it σ', k ≤ length l →
     Emplace this (ptr_add (begin_ v) k) ctor σ = (Ok it, σ') →
     Vector_invariant σ' this) ∧
  (∀ k it σ', k < length l →
     Erase this (ptr_add (begin_ v) k) σ = (Ok it, σ') →
     Vector_invariant σ' this) ∧
  (∀ σ', PopBack this σ = (Ok tt, σ') → Vector_invariant σ' this) ∧
  (∀ n σ', (capacity_ (data_ v) < n → fits n) →
     Reserve this n σ = (Ok tt, σ') → Vector_invariant σ' this) ∧
  (∀ n σ', (capacity_ (data_ v) < n → fits n) →
     Resize this n σ = (Ok tt, σ') → Vector_invariant σ' this) ∧
  (∀ other o lo σ', this ≠ other →
     objs σ !! other = Some o → owns σ o lo → separate v o →
     copy_assignment this other σ = (Ok tt, σ') ∨
     move_assignment this other σ = (Ok tt, σ') ∨
     Swap this other σ = (Ok tt, σ') →
     Vector_invariant σ' this ∧ Vector_invariant σ' other).
Proof.
  intros Hv Hown. pose proof Hown as (Hs & Hl & _).
  assert (∀ k ctor it σ', k ≤ length l →
     Emplace this (ptr_add (begin_ v) k) ctor σ = (Ok it, σ') →
     Vector_invariant σ' this) as HE.
  { intros k ctor it σ' Hk Hrun.
    destruct (Emplace_spec _ _ _ _ _ _ _ _ Hv Hown Hk Hrun)
      as (x & v' & _ & Hv' & Hown' & _). by exists v', (inserted k x l). }
  split_and!.
  - intros ctor σ' Hrun.
    destruct (PushBack_spec _ _ _ _ _ _ Hv Hown Hrun)
      as (x & v' & _ & Hv' & Hown' & _). by exists v', (l ++ [x]).
  - intros ctor it σ' Hrun. unfold EmplaceBack in Hrun.
    rewrite (bind_run _ _ _ _ _ (get_obj_run _ _ _ Hv)) in Hrun.
    unfold end_ in Hrun. fold (begin_ v) in Hrun. rewrite Hs in Hrun.
    by eapply HE.
  - done.
  - intros k it σ' Hk Hrun.
    destruct (Erase_spec _ _ _ _ _ _ _ Hv Hown Hk Hrun)
      as (v' & Hv' & Hown' & _). by exists v', (delete k l).
  - intros σ' Hrun. destruct (decide (l = [])) as [->|Hne].
    + unfold PopBack in Hrun.
      rewrite (bind_run _ _ _ _ _ (get_obj_run _ _ _ Hv)) in Hrun.
      rewrite decide_False in Hrun by (simpl in Hs; lia).
      injection Hrun as <-. by exists v, [].
    + destruct (exists_last Hne) as (l' & x & ->).
      destruct (PopBack_run _ _ _ _ _ Hv Hown) as (σ2 & Hpop & Ho2 & Hown2 & _).
      rewrite Hpop in Hrun. injection Hrun as <-.
      exists (mkVector (data_ v) (length l')), l'.
      split; [by rewrite Ho2, lookup_insert_eq|done].
  - intros n σ' Hfits Hrun.
    destruct (Reserve_spec _ _ _ _ _ _ Hv Hown Hfits Hrun)
      as (v' & Hv' & Hown' & _).
    by exists v', l.
  - intros n σ' Hfits Hrun. destruct (decide (n ≤ length l)) as [Hn|Hn].
    + destruct (Resize_shrink_run σ this v l n Hv Hown Hn)
        as (σ2 & Hres & Ho2 & Hown2 & _).
      rewrite Hres in Hrun. injection Hrun as <-.
      exists (mkVector (data_ v) n), (take n l).
      split; [by rewrite Ho2, lookup_insert_eq|done].
    + assert (length l < n) as Hn' by lia.
      destruct (Resize_grow_spec _ _ _ _ _ _ Hv Hown Hn' Hfits Hrun)
        as (v' & xs & Hv' & Hown' & _). by exists v', (l ++ xs).
  - intros other o lo σ' Hne Ho Howno Hsep Hrun.
    assert (Swap this other σ = (Ok tt, σ') ∨
            copy_assignment this other σ = (Ok tt, σ')) as [Hswap|Hcopy].
    { destruct Hrun as [H|[H|H]]; [by right| |by left].
      left. unfold move_assignment in H. by rewrite decide_True in H. }
    + rewrite (Swap_run _ _ _ _ _ Hne Hv Ho) in Hswap. injection Hswap as <-.
      split.
      * exists o, lo. simpl.
        split; [by rewrite lookup_insert_ne, lookup_insert_eq|done].
      * exists v, l. simpl. split; [by rewrite lookup_insert_eq|done].
    + destruct (copy_assignment_cases _ _ _ _ _ _ _ Hne Hv Ho Hown Howno Hsep)
        as [Hok _].
      destruct (Hok _ Hcopy) as (v' & Ho' & Hown' & Howno' & _). split.
      * exists v', lo. split; [by rewrite Ho', lookup_insert_eq|done].
      * exists o, lo. split; [by rewrite Ho', lookup_insert_ne|done].
Qed.

End lawful_invariant.

End further.

(** * The statements at work

    The element type [Obj], and runs of the model on it. *)

Lemma Obj_lawful nothrow : Lawful nat nat (E := Obj nothrow).
Proof.
  split; simpl.
  - intros x [|w] w' y; simpl; congruence.
  - intros x w w' y r. destruct nothrow; [|destruct w]; simpl; congruence.
  - intros d s [|w] w' d'; simpl; congruence.
  - intros d s [|w] w' d' s'; simpl; congruence.
Qed.

Lemma Plain_lawful : Lawful nat nat (E := Plain).
Proof. split; simpl; congruence. Qed.

Lemma Plain_nothrow : Nothrow nat nat (E := Plain).
Proof. split; simpl; intros; by eauto. Qed.

(** C1.  The vector [1; 2] of capacity 3, [Emplace(begin(), 9)], and an
    element type whose fourth operation throws: the temporary, the copy of
    the last element in the free slot and the one shift succeed, and the
    move assignment of the temporary into slot 0 throws.  The handler then
    passes [end()], a pointer into the middle of the block, to
    [operator delete]: undefined behaviour, where a destruction of the
    object in the free slot was due.  At that point the size is still 2 but
    the slots hold [0; 1; 2]: the free slot has a live object that no
    destructor was called for (the log has the temporary only), and the
    elements are no longer [1; 2]. *)
Theorem Emplace_middle_throw_state :
  let σ := one_vector [Some 1; Some 2; None] 2 3 in
  let v := mkVector (mkRawMemory (Ptr 0 0) 3) 2 in
  let σ' := mkState [Some [Some 0; Some 1; Some 2]] {[7 := v]} 0 [9] in
  objs σ !! 7 = Some v ∧
  owns σ v [1; 2] ∧
  Emplace (E := Obj false) 7 (ptr_add (begin_ v) 0) (tick 9) σ
    = (Undefined, σ') ∧
  ¬ owns σ' v [1; 2].
Proof.
  intros σ v σ'. split_and!.
  - reflexivity.
  - solve_owns.
  - vm_compute. reflexivity.
  - intros (_ & _ & _ & Hb). vm_compute in Hb. discriminate Hb.
Qed.

(** C9.  A vector of size 0 and capacity 1 satisfies the invariant.
    [EmplaceBack] with an element constructor that throws ends in the
    handler of [Emplace], where [end()] is the start of the block:
    [operator delete] releases the storage of the vector.  The call throws,
    and the vector object still has the capacity 1 and the pointer to the
    block, which is gone: the invariant no longer holds. *)
Theorem EmplaceBack_throw_frees_storage :
  let σ := one_vector [None] 0 0 in
  let v := mkVector (mkRawMemory (Ptr 0 0) 1) 0 in
  let σ' := mkState [None] {[7 := v]} 0 [] in
  Vector_invariant σ 7 ∧
  EmplaceBack (E := Obj false) 7 (tick 9) σ = (Throw element_error, σ') ∧
  ¬ Vector_invariant σ' 7.
Proof.
  intros σ v σ'. split_and!.
  - exists v, []. split; [reflexivity|solve_owns].
  - vm_compute. reflexivity.
  - intros (v' & l & Hv' & _ & _ & Hb).
    vm_compute in Hv'. injection Hv' as <-.
    vm_compute in Hb. destruct Hb as [_ Hb]. discriminate Hb.
Qed.

(** C8, the claim as it stands.  Objects of 4 bytes and a [size_t] of 64
    bits: the byte count of [2 ^ 62] elements wraps to 0.  [operator
    new(0)] gives a block without room for any object, [Vector(2 ^ 62)]
    constructs its first element outside of it, which is undefined
    behaviour, and no vector of size [2 ^ 62] comes into being, although
    [operator new] has served the request and [T()] has not thrown. *)
Lemma Vector_ctor_size_wraps :
  let n := N.to_nat (2 ^ 62) in
  bytes_of (Element := Obj false) n = 0%N ∧
  can_allocate (Element := Obj false) n (world (init 5)) = true ∧
  Vector_ctor_size (E := Obj false) 7 n (init 5)
    = (Undefined, mkState [Some []] ∅ 4 []) ∧
  ¬ returns (Vector_ctor_size (E := Obj false) 7 n) (init 5).
Proof.
  intros n.
  assert (bytes_of (Element := Obj false) n = 0%N) as Hb.
  { unfold bytes_of, n. rewrite N2Nat.id. reflexivity. }
  assert (can_allocate (Element := Obj false) n (world (init 5)) = true)
    as Hc.
  { unfold can_allocate. rewrite Hb. reflexivity. }
  assert (n ≠ 0) as Hn.
  { intros H. apply (f_equal N.of_nat) in H. unfold n in H.
    rewrite N2Nat.id in H. discriminate H. }
  assert (room (Element := Obj false) n = 0) as Hroom.
  { unfold room. rewrite Hb. reflexivity. }
  pose proof (Vector_ctor_size_no_room (E := Obj false) (init 5) 7 n 4 0
                Hn Hroom Hc eq_refl) as Hrun.
  split_and!; [done|done|exact Hrun|].
  intros (a & σ' & H). rewrite Hrun in H. discriminate H.
Qed.

(** [Reserve(n)] beyond the capacity of the vector [1; 2], for an [n] whose
    byte count is 8, the room of 2 objects: the two elements fit into the
    new block, the call returns, and the vector has the capacity [n] over
    a block of 2 slots. *)
Lemma Reserve_past_size_t n :
  3 < n →
  bytes_of (Element := Obj false) n = 8%N →
  let σ' := mkState [None; Some [Some 1; Some 2]]
                    {[7 := mkVector (mkRawMemory (Ptr 1 0) n) 2]} 3 [1; 2] in
  Reserve (E := Obj false) 7 n (one_vector [Some 1; Some 2; None] 2 5)
    = (Ok tt, σ') ∧
  ¬ Vector_invariant σ' 7.
Proof.
  intros Hn Hb σ'. split.
  - unfold Reserve, bind at 1, get_obj.
    assert (objs (one_vector [Some 1; Some 2; None] 2 5) !! 7
            = Some (mkVector (mkRawMemory (Ptr 0 0) 3) 2)) as -> by reflexivity.
    unfold RawMemory_Capacity. simpl capacity_.
    rewrite decide_False by (simpl; lia).
    unfold with_new_data, RawMemory_ctor, Allocate.
    rewrite decide_True by lia. unfold operator_new, bind at 1 2. rewrite Hb.
    vm_compute. reflexivity.
  - intros (v' & l & Hv' & Hs & Hl & Hbuf).
    vm_compute in Hv'. injection Hv' as <-. simpl in *.
    destruct Hbuf as [_ Hbuf]. injection Hbuf as Hcells.
    apply (f_equal length) in Hcells.
    rewrite cells_of_length in Hcells by done. simpl in Hcells. lia.
Qed.

(** A byte count that wraps without undefined behaviour.  Objects of 4
    bytes and a [size_t] of 64 bits: the byte count of [2 ^ 62 + 2]
    elements wraps to 8.  [Reserve(2 ^ 62 + 2)] on the vector [1; 2] of
    capacity 3 returns, and the invariant is lost: the capacity is
    [2 ^ 62 + 2] and the block has 2 slots.  This is why the statements on
    [Reserve(n)] and [Resize(n)] beyond the capacity are for an [n] whose
    byte count does not wrap. *)
Lemma Reserve_wraps :
  let n := N.to_nat (2 ^ 62 + 2) in
  let σ := one_vector [Some 1; Some 2; None] 2 5 in
  let σ' := mkState [None; Some [Some 1; Some 2]]
                    {[7 := mkVector (mkRawMemory (Ptr 1 0) n) 2]} 3 [1; 2] in
  bytes_of (Element := Obj false) n = 8%N ∧
  Vector_invariant σ 7 ∧
  Reserve (E := Obj false) 7 n σ = (Ok tt, σ') ∧
  ¬ Vector_invariant σ' 7.
Proof.
  intros n σ σ'.
  assert (bytes_of (Element := Obj false) n = 8%N) as Hb.
  { unfold bytes_of, n. rewrite N2Nat.id. reflexivity. }
  assert (3 < n) as Hn by (unfold n; lia).
  split; [done|]. split.
  - exists (mkVector (mkRawMemory (Ptr 0 0) 3) 2), [1; 2].
    split; [reflexivity|solve_owns].
  - exact (Reserve_past_size_t n Hn Hb).
Qed.

(** ** Runs that meet each statement's conditions *)

Lemma Reserve_noop_witness :
  let σ := one_vector [Some 1; Some 2; None] 2 5 in
  let v := mkVector (mkRawMemory (Ptr 0 0) 3) 2 in
  objs σ !! 7 = Some v ∧
  3 ≤ capacity_ (data_ v) ∧
  Reserve (E := Obj false) 7 3 σ = (Ok tt, σ).
Proof.
  intros σ v.
  assert (objs σ !! 7 = Some v) as Hv by reflexivity.
  assert (3 ≤ capacity_ (data_ v)) as Hk by (simpl; lia).
  exact (conj Hv (conj Hk (Reserve_noop (E := Obj false) σ 7 v 3 Hv Hk))).
Defined.

Lemma PopBack_empty_witness :
  let σ := one_vector [None; None] 0 5 in
  let v := mkVector (mkRawMemory (Ptr 0 0) 2) 0 in
  objs σ !! 7 = Some v ∧
  size_ v = 0 ∧
  PopBack 7 σ = (Ok tt, σ).
Proof.
  intros σ v.
  assert (objs σ !! 7 = Some v) as Hv by reflexivity.
  assert (size_ v = 0) as Hs by reflexivity.
  exact (conj Hv (conj Hs (PopBack_empty σ 7 v Hv Hs))).
Defined.

Lemma Vector_ctor_size_Ok_witness :
  let σ' := mkState [Some [Some 0; Some 0; Some 0]]
                    {[7 := mkVector (mkRawMemory (Ptr 0 0) 3) 3]} 2 [] in
  fits (Element := Obj false) 3 ∧
  Vector_ctor_size (E := Obj false) 7 3 (init 5) = (Ok tt, σ') ∧
  (∃ v xs, objs σ' !! 7 = Some v ∧
    size_ v = 3 ∧ capacity_ (data_ v) = 3 ∧
    length xs = 3 ∧ Forall (value_initialized (E := Obj false)) xs ∧
    owns σ' v xs) ∧
  returns (Vector_ctor_size (E := Plain) 7 3) (init 5).
Proof.
  intros σ'.
  assert (fits (Element := Obj false) 3) as Hfits by reflexivity.
  assert (fits (Element := Plain) 3) as Hfits' by reflexivity.
  assert (Vector_ctor_size (E := Obj false) 7 3 (init 5) = (Ok tt, σ'))
    as Hrun by (vm_compute; reflexivity).
  assert (never_throws (value_construct (Element := Plain))) as Hctor
    by (intros w; by eexists).
  exact (conj Hfits (conj Hrun
    (conj (proj1 (Vector_ctor_size_Ok (E := Obj false) (init 5) 7 3 Hfits)
             σ' Hrun)
          (proj2 (Vector_ctor_size_Ok (E := Plain) (init 5) 7 3 Hfits')
             eq_refl Hctor)))).
Defined.

Lemma growing_append_ctor_throws_witness :
  let σ := one_vector [Some 1; Some 2] 2 0 in
  let v := mkVector (mkRawMemory (Ptr 0 0) 2) 2 in
  let σ' := mkState [Some [Some 1; Some 2]; None] {[7 := v]} 0 [] in
  objs σ !! 7 = Some v ∧
  owns σ v [1; 2] ∧
  size_ v = capacity_ (data_ v) ∧
  can_allocate (Element := Obj false) (grown (size_ v)) (world σ) = true ∧
  tick 9 (world σ) = (0, None) ∧
  PushBack (E := Obj false) 7 (tick 9) σ = (Throw element_error, σ') ∧
  EmplaceBack (E := Obj false) 7 (tick 9) σ = (Throw element_error, σ') ∧
  (∀ k, k ≤ size_ v →
     Emplace (E := Obj false) 7 (ptr_add (begin_ v) k) (tick 9) σ
       = (Throw element_error, σ')) ∧
  objs σ' !! 7 = Some v ∧
  owns σ' v [1; 2].
Proof.
  intros σ v σ'.
  assert (objs σ !! 7 = Some v) as Hv by reflexivity.
  assert (owns σ v [1; 2]) as Hown by solve_owns.
  assert (size_ v = capacity_ (data_ v)) as Hfull by reflexivity.
  assert (can_allocate (Element := Obj false) (grown (size_ v)) (world σ)
          = true) as Hc by reflexivity.
  assert (tick 9 (world σ) = (0, None)) as Hctor by reflexivity.
  exact (conj Hv (conj Hown (conj Hfull (conj Hc (conj Hctor
    (growing_append_ctor_throws (E := Obj false) σ 7 v [1; 2] (tick 9) 0
       Hv Hown Hfull Hc Hctor)))))).
Defined.





(** ** Runs that meet the conditions of the further properties *)

Lemma PopBack_removes_last_witness :
  let σ := one_vector [Some 1; Some 2; None] 2 5 in
  let v := mkVector (mkRawMemory (Ptr 0 0) 3) 2 in
  objs σ !! 7 = Some v ∧
  owns σ v ([1] ++ [2]) ∧
  ∃ σ', PopBack 7 σ = (Ok tt, σ') ∧
    objs σ' = <[7 := mkVector (data_ v) 1]> (objs σ) ∧
    owns σ' (mkVector (data_ v) 1) [1] ∧
    destroyed σ' = destroyed σ ++ [2] ∧
    world σ' = world σ ∧
    length (heap σ') = length (heap σ).
Proof.
  intros σ v.
  assert (objs σ !! 7 = Some v) as Hv by reflexivity.
  assert (owns σ v ([1] ++ [2])) as Hown by solve_owns.
  exact (conj Hv (conj Hown (PopBack_removes_last σ 7 v [1] 2 Hv Hown))).
Defined.

Lemma Vector_dtor_releases_witness :
  let σ := one_vector [Some 1; Some 2; None] 2 5 in
  let v := mkVector (mkRawMemory (Ptr 0 0) 3) 2 in
  objs σ !! 7 = Some v ∧
  owns σ v [1; 2] ∧
  ∃ σ', Vector_dtor 7 σ = (Ok tt, σ') ∧
    objs σ' = delete 7 (objs σ) ∧
    destroyed σ' = destroyed σ ++ [1; 2] ∧
    world σ' = world σ ∧
    heap σ' = <[0 := None]> (heap σ).
Proof.
  intros σ v.
  assert (objs σ !! 7 = Some v) as Hv by reflexivity.
  assert (owns σ v [1; 2]) as Hown by solve_owns.
  exact (conj Hv (conj Hown (Vector_dtor_releases σ 7 v [1; 2] Hv Hown))).
Defined.

Lemma Resize_shrinks_witness :
  let σ := one_vector [Some 1; Some 2; None] 2 5 in
  let v := mkVector (mkRawMemory (Ptr 0 0) 3) 2 in
  objs σ !! 7 = Some v ∧
  owns σ v [1; 2] ∧
  1 ≤ length [1; 2] ∧
  ∃ σ', Resize (E := Obj false) 7 1 σ = (Ok tt, σ') ∧
    objs σ' = <[7 := mkVector (data_ v) 1]> (objs σ) ∧
    owns σ' (mkVector (data_ v) 1) (take 1 [1; 2]) ∧
    destroyed σ' = destroyed σ ++ drop 1 [1; 2] ∧
    world σ' = world σ ∧
    length (heap σ') = length (heap σ).
Proof.
  intros σ v.
  assert (objs σ !! 7 = Some v) as Hv by reflexivity.
  assert (owns σ v [1; 2]) as Hown by solve_owns.
  assert (1 ≤ length [1; 2]) as Hn by (simpl; lia).
  exact (conj Hv (conj Hown (conj Hn
    (Resize_shrinks (E := Obj false) σ 7 v [1; 2] 1 Hv Hown Hn)))).
Defined.

Lemma Swap_exchanges_witness :
  let v := mkVector (mkRawMemory (Ptr 0 0) 2) 1 in
  let o := mkVector (mkRawMemory (Ptr 1 0) 3) 3 in
  let σ := two_vectors [Some 1; None] 1 [Some 4; Some 5; Some 6] 3 10 in
  7 ≠ 8 ∧
  objs σ !! 7 = Some v ∧ objs σ !! 8 = Some o ∧
  owns σ v [1] ∧ owns σ o [4; 5; 6] ∧
  ∃ σ', Swap 7 8 σ = (Ok tt, σ') ∧
    objs σ' = <[8 := v]> (<[7 := o]> (objs σ)) ∧
    objs σ' !! 7 = Some o ∧ owns σ' o [4; 5; 6] ∧
    objs σ' !! 8 = Some v ∧ owns σ' v [1] ∧
    heap σ' = heap σ ∧ world σ' = world σ ∧ destroyed σ' = destroyed σ ∧
    Swap 7 8 σ' = (Ok tt, σ).
Proof.
  intros v o σ.
  assert (7 ≠ 8) as Hne by lia.
  assert (objs σ !! 7 = Some v) as Hv by reflexivity.
  assert (objs σ !! 8 = Some o) as Ho by reflexivity.
  assert (owns σ v [1]) as Hown by solve_owns.
  assert (owns σ o [4; 5; 6]) as Howno by solve_owns.
  exact (conj Hne (conj Hv (conj Ho (conj Hown (conj Howno
    (Swap_exchanges σ 7 8 v o [1] [4; 5; 6] Hne Hv Ho Hown Howno)))))).
Defined.

Lemma move_assignment_exchanges_witness :
  let v := mkVector (mkRawMemory (Ptr 0 0) 2) 1 in
  let o := mkVector (mkRawMemory (Ptr 1 0) 3) 3 in
  let σ := two_vectors [Some 1; None] 1 [Some 4; Some 5; Some 6] 3 10 in
  7 ≠ 8 ∧
  objs σ !! 7 = Some v ∧ objs σ !! 8 = Some o ∧
  owns σ v [1] ∧ owns σ o [4; 5; 6] ∧
  ∃ σ', move_assignment 7 8 σ = (Ok tt, σ') ∧
    objs σ' = <[8 := v]> (<[7 := o]> (objs σ)) ∧
    objs σ' !! 7 = Some o ∧ owns σ' o [4; 5; 6] ∧
    objs σ' !! 8 = Some v ∧ owns σ' v [1] ∧
    heap σ' = heap σ ∧ world σ' = world σ ∧ destroyed σ' = destroyed σ.
Proof.
  intros v o σ.
  assert (7 ≠ 8) as Hne by lia.
  assert (objs σ !! 7 = Some v) as Hv by reflexivity.
  assert (objs σ !! 8 = Some o) as Ho by reflexivity.
  assert (owns σ v [1]) as Hown by solve_owns.
  assert (owns σ o [4; 5; 6]) as Howno by solve_owns.
  exact (conj Hne (conj Hv (conj Ho (conj Hown (conj Howno
    (move_assignment_exchanges σ 7 8 v o [1] [4; 5; 6]
       Hne Hv Ho Hown Howno)))))).
Defined.

Lemma Vector_move_ctor_takes_witness :
  let σ := one_vector [Some 1; Some 2; None] 2 5 in
  let o := mkVector (mkRawMemory (Ptr 0 0) 3) 2 in
  objs σ !! 9 = None ∧
  objs σ !! 7 = Some o ∧
  owns σ o [1; 2] ∧
  ∃ σ', Vector_move_ctor 9 7 σ = (Ok tt, σ') ∧
    objs σ' = <[9 := o]> (<[7 := mkVector (mkRawMemory nullptr 0) 0]>
                            (objs σ)) ∧
    owns σ' o [1; 2] ∧
    owns σ' (mkVector (mkRawMemory nullptr 0) 0) [] ∧
    heap σ' = heap σ ∧ world σ' = world σ ∧ destroyed σ' = destroyed σ ∧
    Vector_dtor 7 σ'
      = (Ok tt, set_objs (<[9 := o]> (delete 7 (objs σ))) σ).
Proof.
  intros σ o.
  assert (objs σ !! 9 = None) as Hnew by reflexivity.
  assert (objs σ !! 7 = Some o) as Ho by reflexivity.
  assert (owns σ o [1; 2]) as Hown by solve_owns.
  exact (conj Hnew (conj Ho (conj Hown
    (Vector_move_ctor_takes σ 9 7 o [1; 2] Hnew Ho Hown)))).
Defined.

Lemma element_access_witness :
  let σ := one_vector [Some 1; Some 2; None] 2 5 in
  let v := mkVector (mkRawMemory (Ptr 0 0) 3) 2 in
  objs σ !! 7 = Some v ∧
  owns σ v [1; 2] ∧
  Size 7 σ = (Ok 2, σ) ∧
  Capacity 7 σ = (Ok 3, σ) ∧
  ptr_diff (end_ v) (begin_ v) σ = (Ok 2, σ) ∧
  (∀ i x, [1; 2] !! i = Some x → (p ← at_ 7 i; load p) σ = (Ok x, σ)) ∧
  (∀ i, 2 ≤ i → (p ← at_ 7 i; load p) σ = (Undefined, σ)).
Proof.
  intros σ v.
  assert (objs σ !! 7 = Some v) as Hv by reflexivity.
  assert (owns σ v [1; 2]) as Hown by solve_owns.
  exact (conj Hv (conj Hown (element_access σ 7 v [1; 2] Hv Hown))).
Defined.

Lemma Insert_then_read_witness :
  let σ := one_vector [Some 1; Some 2; None] 2 10 in
  let v := mkVector (mkRawMemory (Ptr 0 0) 3) 2 in
  let σ' := mkState [Some [Some 1; Some 9; Some 2]]
                    {[7 := mkVector (mkRawMemory (Ptr 0 0) 3) 3]} 7 [0] in
  objs σ !! 7 = Some v ∧
  owns σ v [1; 2] ∧
  1 ≤ length [1; 2] ∧
  Insert (E := Obj false) 7 (ptr_add (begin_ v) 1) 9 σ = (Ok (Ptr 0 1), σ') ∧
  load (Ptr 0 1) σ' = (Ok 9, σ') ∧
  (p ← at_ 7 1; load p) σ' = (Ok 9, σ') ∧
  Size 7 σ' = (Ok 3, σ') ∧
  (∀ j y, [1; 2] !! j = Some y →
     (p ← at_ 7 (if decide (j < 1) then j else S j); load p) σ'
       = (Ok y, σ')).
Proof.
  intros σ v σ'.
  assert (objs σ !! 7 = Some v) as Hv by reflexivity.
  assert (owns σ v [1; 2]) as Hown by solve_owns.
  assert (1 ≤ length [1; 2]) as Hk by (simpl; lia).
  assert (Insert (E := Obj false) 7 (ptr_add (begin_ v) 1) 9 σ
          = (Ok (Ptr 0 1), σ')) as Hrun by (vm_compute; reflexivity).
  exact (conj Hv (conj Hown (conj Hk (conj Hrun
    (Insert_then_read (E := Obj false) (L := Obj_lawful false)
       σ 7 v [1; 2] 1 9 σ' (Ptr 0 1) Hv Hown Hk Hrun))))).
Defined.

Lemma Erase_undoes_Emplace_witness :
  let σ := one_vector [Some 1; Some 2; None] 2 10 in
  let v := mkVector (mkRawMemory (Ptr 0 0) 3) 2 in
  let σ1 := mkState [Some [Some 1; Some 9; Some 2]]
                    {[7 := mkVector (mkRawMemory (Ptr 0 0) 3) 3]} 7 [0] in
  let σ2 := mkState [Some [Some 1; Some 2; None]]
                    {[7 := mkVector (mkRawMemory (Ptr 0 0) 3) 2]} 6 [0; 0] in
  objs σ !! 7 = Some v ∧
  owns σ v [1; 2] ∧
  1 ≤ length [1; 2] ∧
  Emplace (E := Obj false) 7 (ptr_add (begin_ v) 1) (tick 9) σ
    = (Ok (Ptr 0 1), σ1) ∧
  Erase (E := Obj false) 7 (Ptr 0 1) σ1 = (Ok (Ptr 0 1), σ2) ∧
  ∃ v2, objs σ2 !! 7 = Some v2 ∧ owns σ2 v2 [1; 2] ∧
    Ptr 0 1 = ptr_add (begin_ v2) 1.
Proof.
  intros σ v σ1 σ2.
  assert (objs σ !! 7 = Some v) as Hv by reflexivity.
  assert (owns σ v [1; 2]) as Hown by solve_owns.
  assert (1 ≤ length [1; 2]) as Hk by (simpl; lia).
  assert (Emplace (E := Obj false) 7 (ptr_add (begin_ v) 1) (tick 9) σ
          = (Ok (Ptr 0 1), σ1)) as Hins by (vm_compute; reflexivity).
  assert (Erase (E := Obj false) 7 (Ptr 0 1) σ1 = (Ok (Ptr 0 1), σ2))
    as Hdel by (vm_compute; reflexivity).
  exact (conj Hv (conj Hown (conj Hk (conj Hins (conj Hdel
    (Erase_undoes_Emplace (E := Obj false) (L := Obj_lawful false)
       σ 7 v [1; 2] 1 (tick 9) σ1 (Ptr 0 1) σ2 (Ptr 0 1)
       Hv Hown Hk Hins Hdel)))))).
Defined.

Lemma PopBack_undoes_PushBack_witness :
  let σ := one_vector [Some 1; Some 2; None] 2 5 in
  let v := mkVector (mkRawMemory (Ptr 0 0) 3) 2 in
  let σ1 := mkState [Some [Some 1; Some 2; Some 9]]
                    {[7 := mkVector (mkRawMemory (Ptr 0 0) 3) 3]} 4 [] in
  objs σ !! 7 = Some v ∧
  owns σ v [1; 2] ∧
  PushBack (E := Obj false) 7 (tick 9) σ = (Ok tt, σ1) ∧
  ∃ x σ2 v2, constructed_by (tick 9) x ∧
    PopBack 7 σ1 = (Ok tt, σ2) ∧
    objs σ2 !! 7 = Some v2 ∧ owns σ2 v2 [1; 2] ∧
    destroyed σ2 = destroyed σ1 ++ [x].
Proof.
  intros σ v σ1.
  assert (objs σ !! 7 = Some v) as Hv by reflexivity.
  assert (owns σ v [1; 2]) as Hown by solve_owns.
  assert (PushBack (E := Obj false) 7 (tick 9) σ = (Ok tt, σ1))
    as Hrun by (vm_compute; reflexivity).
  exact (conj Hv (conj Hown (conj Hrun
    (PopBack_undoes_PushBack (E := Obj false) (L := Obj_lawful false)
       σ 7 v [1; 2] (tick 9) σ1 Hv Hown Hrun)))).
Defined.

Lemma Erase_last_is_PopBack_witness :
  let σ := one_vector [Some 1; Some 2; None] 2 5 in
  let v := mkVector (mkRawMemory (Ptr 0 0) 3) 2 in
  objs σ !! 7 = Some v ∧
  owns σ v ([1] ++ [2]) ∧
  ∃ σ' v', PopBack 7 σ = (Ok tt, σ') ∧
    objs σ' !! 7 = Some v' ∧
    Erase (E := Obj false) 7 (ptr_sub (end_ v) 1) σ = (Ok (end_ v'), σ').
Proof.
  intros σ v.
  assert (objs σ !! 7 = Some v) as Hv by reflexivity.
  assert (owns σ v ([1] ++ [2])) as Hown by solve_owns.
  exact (conj Hv (conj Hown
    (Erase_last_is_PopBack (E := Obj false) σ 7 v [1] 2 Hv Hown))).
Defined.

Lemma EmplaceBack_as_PushBack_witness :
  let σ := one_vector [Some 1; Some 2; None] 2 5 in
  let v := mkVector (mkRawMemory (Ptr 0 0) 3) 2 in
  let σ' := mkState [Some [Some 1; Some 2; Some 9]]
                    {[7 := mkVector (mkRawMemory (Ptr 0 0) 3) 3]} 4 [] in
  objs σ !! 7 = Some v ∧
  owns σ v [1; 2] ∧
  PushBack (E := Obj false) 7 (tick 9) σ = (Ok tt, σ') ∧
  ∃ v', objs σ' !! 7 = Some v' ∧
    EmplaceBack (E := Obj false) 7 (tick 9) σ
      = (Ok (ptr_add (begin_ v') (length [1; 2])), σ').
Proof.
  intros σ v σ'.
  assert (objs σ !! 7 = Some v) as Hv by reflexivity.
  assert (owns σ v [1; 2]) as Hown by solve_owns.
  assert (PushBack (E := Obj false) 7 (tick 9) σ = (Ok tt, σ'))
    as Hrun by (vm_compute; reflexivity).
  exact (conj Hv (conj Hown (conj Hrun
    (proj1 (EmplaceBack_as_PushBack (E := Obj false) σ 7 v [1; 2] (tick 9)
              Hv Hown) σ' Hrun)))).
Defined.



Lemma Reserve_then_PushBack_witness :
  let σ := one_vector [Some 1; Some 2; None] 2 5 in
  let v := mkVector (mkRawMemory (Ptr 0 0) 3) 2 in
  let σ1 := mkState [None; Some [Some 1; Some 2; None; None]]
                    {[7 := mkVector (mkRawMemory (Ptr 1 0) 4) 2]} 3 [1; 2] in
  let σ2 := mkState [None; Some [Some 1; Some 2; Some 9; None]]
                    {[7 := mkVector (mkRawMemory (Ptr 1 0) 4) 3]} 2 [1; 2] in
  objs σ !! 7 = Some v ∧
  owns σ v [1; 2] ∧
  length [1; 2] < 4 ∧
  fits (Element := Obj false) 4 ∧
  Reserve (E := Obj false) 7 4 σ = (Ok tt, σ1) ∧
  PushBack (E := Obj false) 7 (tick 9) σ1 = (Ok tt, σ2) ∧
  ∃ v1 v2 x, objs σ1 !! 7 = Some v1 ∧ objs σ2 !! 7 = Some v2 ∧
    constructed_by (tick 9) x ∧
    owns σ2 v2 ([1; 2] ++ [x]) ∧
    data_ v2 = data_ v1.
Proof.
  intros σ v σ1 σ2.
  assert (objs σ !! 7 = Some v) as Hv by reflexivity.
  assert (owns σ v [1; 2]) as Hown by solve_owns.
  assert (length [1; 2] < 4) as Hn by (simpl; lia).
  assert (fits (Element := Obj false) 4) as Hfits by reflexivity.
  assert (Reserve (E := Obj false) 7 4 σ = (Ok tt, σ1))
    as Hres by (vm_compute; reflexivity).
  assert (PushBack (E := Obj false) 7 (tick 9) σ1 = (Ok tt, σ2))
    as Hpush by (vm_compute; reflexivity).
  exact (conj Hv (conj Hown (conj Hn (conj Hfits (conj Hres (conj Hpush
    (Reserve_then_PushBack (E := Obj false) (L := Obj_lawful false)
       σ 7 v [1; 2] 4 (tick 9) σ1 σ2 Hv Hown Hn (λ _, Hfits)
       Hres Hpush))))))).
Defined.

Lemma Reserve_strong_guarantee_witness :
  let σ := one_vector [Some 1; Some 2; None] 2 1 in
  let v := mkVector (mkRawMemory (Ptr 0 0) 3) 2 in
  let σ' := mkState [Some [Some 1; Some 2; None]; None] {[7 := v]} 0 [1] in
  relocation_safe (E := Obj false) ∧
  objs σ !! 7 = Some v ∧
  owns σ v [1; 2] ∧
  Reserve (E := Obj false) 7 4 σ = (Throw element_error, σ') ∧
  objs σ' = objs σ ∧ owns σ' v [1; 2] ∧
  (heap σ' = heap σ ∨ heap σ' = heap σ ++ [None]).
Proof.
  intros σ v σ'.
  assert (relocation_safe (E := Obj false)) as Hsafe
    by (intros Hpath; discriminate Hpath).
  assert (objs σ !! 7 = Some v) as Hv by reflexivity.
  assert (owns σ v [1; 2]) as Hown by solve_owns.
  assert (Reserve (E := Obj false) 7 4 σ = (Throw element_error, σ'))
    as Hrun by (vm_compute; reflexivity).
  exact (conj Hsafe (conj Hv (conj Hown (conj Hrun
    (Reserve_strong_guarantee (E := Obj false) σ 7 v [1; 2] 4
       element_error σ' Hsafe Hv Hown Hrun))))).
Defined.

Lemma PushBack_strong_guarantee_witness :
  let σ := one_vector [Some 1; Some 2] 2 2 in
  let v := mkVector (mkRawMemory (Ptr 0 0) 2) 2 in
  let σ' := mkState [Some [Some 1; Some 2]; None] {[7 := v]} 0 [1] in
  relocation_safe (E := Obj false) ∧
  objs σ !! 7 = Some v ∧
  owns σ v [1; 2] ∧
  PushBack (E := Obj false) 7 (tick 9) σ = (Throw element_error, σ') ∧
  objs σ' = objs σ ∧ owns σ' v [1; 2] ∧
  (heap σ' = heap σ ∨ heap σ' = heap σ ++ [None]).
Proof.
  intros σ v σ'.
  assert (relocation_safe (E := Obj false)) as Hsafe
    by (intros Hpath; discriminate Hpath).
  assert (objs σ !! 7 = Some v) as Hv by reflexivity.
  assert (owns σ v [1; 2]) as Hown by solve_owns.
  assert (PushBack (E := Obj false) 7 (tick 9) σ = (Throw element_error, σ'))
    as Hrun by (vm_compute; reflexivity).
  exact (conj Hsafe (conj Hv (conj Hown (conj Hrun
    (PushBack_strong_guarantee (E := Obj false) σ 7 v [1; 2] (tick 9)
       element_error σ' Hsafe Hv Hown Hrun))))).
Defined.

Lemma Emplace_growth_strong_guarantee_witness :
  let σ := one_vector [Some 1; Some 2] 2 2 in
  let v := mkVector (mkRawMemory (Ptr 0 0) 2) 2 in
  let σ' := mkState [Some [Some 1; Some 2]; None] {[7 := v]} 0 [] in
  relocation_safe (E := Obj false) ∧
  objs σ !! 7 = Some v ∧
  owns σ v [1; 2] ∧
  capacity_ (data_ v) ≤ size_ v ∧
  1 ≤ length [1; 2] ∧
  Emplace (E := Obj false) 7 (ptr_add (begin_ v) 1) (tick 9) σ
    = (Throw element_error, σ') ∧
  objs σ' = objs σ ∧ owns σ' v [1; 2] ∧
  (heap σ' = heap σ ∨ heap σ' = heap σ ++ [None]).
Proof.
  intros σ v σ'.
  assert (relocation_safe (E := Obj false)) as Hsafe
    by (intros Hpath; discriminate Hpath).
  assert (objs σ !! 7 = Some v) as Hv by reflexivity.
  assert (owns σ v [1; 2]) as Hown by solve_owns.
  assert (capacity_ (data_ v) ≤ size_ v) as Hfull by (simpl; lia).
  assert (1 ≤ length [1; 2]) as Hk by (simpl; lia).
  assert (Emplace (E := Obj false) 7 (ptr_add (begin_ v) 1) (tick 9) σ
          = (Throw element_error, σ')) as Hrun by (vm_compute; reflexivity).
  exact (conj Hsafe (conj Hv (conj Hown (conj Hfull (conj Hk (conj Hrun
    (Emplace_growth_strong_guarantee (E := Obj false) σ 7 v [1; 2] 1 (tick 9)
       element_error σ' Hsafe Hv Hown Hfull Hk (or_introl Hrun)))))))).
Defined.

Lemma growth_allocation_failure_witness :
  let σ := one_vector [Some 1; Some 2; None] 2 5 in
  let v := mkVector (mkRawMemory (Ptr 0 0) 3) 2 in
  objs σ !! 7 = Some v ∧
  owns σ v [1; 2] ∧
  capacity_ (data_ v) < 65 ∧
  can_allocate (Element := Obj false) 65 (world σ) = false ∧
  Reserve (E := Obj false) 7 65 σ = (Throw bad_alloc, σ) ∧
  Resize (E := Obj false) 7 65 σ = (Throw bad_alloc, σ).
Proof.
  intros σ v.
  assert (objs σ !! 7 = Some v) as Hv by reflexivity.
  assert (owns σ v [1; 2]) as Hown by solve_owns.
  assert (capacity_ (data_ v) < 65) as Hcap by (simpl; lia).
  assert (can_allocate (Element := Obj false) 65 (world σ) = false)
    as Hc by reflexivity.
  exact (conj Hv (conj Hown (conj Hcap (conj Hc
    (proj1 (growth_allocation_failure (E := Obj false) σ 7 v [1; 2] Hv Hown)
       65 Hcap Hc))))).
Defined.

Lemma construction_allocation_failure_witness :
  65 ≠ 0 ∧
  can_allocate (Element := Obj false) 65 (world (init 5)) = false ∧
  Vector_ctor_size (E := Obj false) 7 65 (init 5) = (Throw bad_alloc, init 5).
Proof.
  assert (65 ≠ 0) as Hn by lia.
  assert (can_allocate (Element := Obj false) 65 (world (init 5)) = false)
    as Hc by reflexivity.
  exact (conj Hn (conj Hc
    (proj1 (construction_allocation_failure (E := Obj false) (init 5))
       7 65 Hn Hc))).
Defined.

Lemma Vector_ctor_size_throws_witness :
  let σ' := mkState [None] ∅ 0 [0; 0] in
  Vector_ctor_size (E := Obj false) 7 3 (init 2) = (Throw element_error, σ') ∧
  ((element_error = bad_alloc ∧ 3 ≠ 0 ∧
    can_allocate (Element := Obj false) 3 (world (init 2)) = false ∧
    σ' = init 2) ∨
   (element_error = element_error ∧
    ∃ xs w', length xs < 3 ∧ Forall (value_initialized (E := Obj false)) xs ∧
      σ' = mkState (heap (init 2) ++ [None]) (objs (init 2)) w'
                   (destroyed (init 2) ++ xs))).
Proof.
  intros σ'.
  assert (Vector_ctor_size (E := Obj false) 7 3 (init 2)
          = (Throw element_error, σ')) as Hrun by (vm_compute; reflexivity).
  exact (conj Hrun
    (Vector_ctor_size_throws (E := Obj false) (init 2) 7 3 element_error σ'
       Hrun)).
Defined.

Lemma Resize_throws_witness :
  let σ := one_vector [Some 1; Some 2; None; None] 2 1 in
  let v := mkVector (mkRawMemory (Ptr 0 0) 4) 2 in
  let σ' := mkState [Some [Some 1; Some 2; None; None]] {[7 := v]} 0 [0] in
  relocation_safe (E := Obj false) ∧
  objs σ !! 7 = Some v ∧
  owns σ v [1; 2] ∧
  fits (Element := Obj false) 4 ∧
  Resize (E := Obj false) 7 4 σ = (Throw element_error, σ') ∧
  ∃ v', objs σ' !! 7 = Some v' ∧ owns σ' v' [1; 2] ∧
    (4 ≤ capacity_ (data_ v) →
       v' = v ∧ objs σ' = objs σ ∧ heap σ' = heap σ).
Proof.
  intros σ v σ'.
  assert (relocation_safe (E := Obj false)) as Hsafe
    by (intros Hpath; discriminate Hpath).
  assert (objs σ !! 7 = Some v) as Hv by reflexivity.
  assert (owns σ v [1; 2]) as Hown by solve_owns.
  assert (fits (Element := Obj false) 4) as Hfits by reflexivity.
  assert (Resize (E := Obj false) 7 4 σ = (Throw element_error, σ'))
    as Hrun by (vm_compute; reflexivity).
  exact (conj Hsafe (conj Hv (conj Hown (conj Hfits (conj Hrun
    (Resize_throws (E := Obj false) (L := Obj_lawful false)
       σ 7 v [1; 2] 4 element_error σ' Hsafe Hv Hown (λ _, Hfits)
       Hrun)))))).
Defined.

Lemma Vector_copy_ctor_throws_witness :
  let σ := one_vector [Some 1; Some 2; None] 2 1 in
  let o := mkVector (mkRawMemory (Ptr 0 0) 3) 2 in
  let σ' := mkState [Some [Some 1; Some 2; None]; None] {[7 := o]} 0 [1] in
  objs σ !! 7 = Some o ∧
  owns σ o [1; 2] ∧
  Vector_copy_ctor (E := Obj false) 9 7 σ = (Throw element_error, σ') ∧
  ((element_error = bad_alloc ∧
    can_allocate (Element := Obj false) (length [1; 2]) (world σ) = false ∧
    σ' = σ) ∨
   (element_error = element_error ∧
    ∃ i ds w', i < length [1; 2] ∧ ds ≡ₚ take i [1; 2] ∧
      σ' = mkState (heap σ ++ [None]) (objs σ) w' (destroyed σ ++ ds))).
Proof.
  intros σ o σ'.
  assert (objs σ !! 7 = Some o) as Ho by reflexivity.
  assert (owns σ o [1; 2]) as Hown by solve_owns.
  assert (Vector_copy_ctor (E := Obj false) 9 7 σ = (Throw element_error, σ'))
    as Hrun by (vm_compute; reflexivity).
  exact (conj Ho (conj Hown (conj Hrun
    (Vector_copy_ctor_throws (E := Obj false) (L := Obj_lawful false)
       σ 9 7 o [1; 2] element_error σ' Ho Hown Hrun)))).
Defined.

Lemma PushBack_copy_throws_witness :
  let σ := one_vector [Some 1; Some 2] 2 2 in
  let v := mkVector (mkRawMemory (Ptr 0 0) 2) 2 in
  let σ' := mkState [Some [Some 1; Some 2]; None] {[7 := v]} 0 [1] in
  objs σ !! 7 = Some v ∧
  owns σ v [1; 2] ∧
  size_ v = capacity_ (data_ v) ∧
  is_nothrow_move_constructible (Element := Obj false)
    || negb (is_copy_constructible (Element := Obj false)) = false ∧
  can_allocate (Element := Obj false) (grown (size_ v)) (world σ) = true ∧
  tick 9 (world σ) = (1, Some 9) ∧
  PushBack (E := Obj false) 7 (tick 9) σ = (Throw element_error, σ') ∧
  element_error = element_error ∧
  ∃ i ds w', i < length [1; 2] ∧ ds ≡ₚ take i [1; 2] ∧
    σ' = mkState (heap σ ++ [None]) (objs σ) w' (destroyed σ ++ ds).
Proof.
  intros σ v σ'.
  assert (objs σ !! 7 = Some v) as Hv by reflexivity.
  assert (owns σ v [1; 2]) as Hown by solve_owns.
  assert (size_ v = capacity_ (data_ v)) as Hfull by reflexivity.
  assert (is_nothrow_move_constructible (Element := Obj false)
          || negb (is_copy_constructible (Element := Obj false)) = false)
    as Hpath by reflexivity.
  assert (can_allocate (Element := Obj false) (grown (size_ v)) (world σ)
          = true) as Hc by reflexivity.
  assert (tick 9 (world σ) = (1, Some 9)) as Hx by reflexivity.
  assert (PushBack (E := Obj false) 7 (tick 9) σ = (Throw element_error, σ'))
    as Hrun by (vm_compute; reflexivity).
  exact (conj Hv (conj Hown (conj Hfull (conj Hpath (conj Hc (conj Hx
    (conj Hrun
      (PushBack_copy_throws (E := Obj false) (L := Obj_lawful false)
         σ 7 v [1; 2] (tick 9) 1 9 element_error σ'
         Hv Hown Hfull Hpath Hc Hx Hrun)))))))).
Defined.

Lemma RawMemory_round_trip_witness :
  let r := mkRawMemory (Ptr 0 0) 3 in
  let σ1 := mkState [Some [None; None; None]] ∅ 5 [] in
  RawMemory_ctor (E := Obj false) 3 (init 5) = (Ok r, σ1) ∧
  capacity_ r = 3 ∧
  (buffer_ r = nullptr ↔ 3 = 0) ∧
  objs σ1 = objs (init 5) ∧
  RawMemory_dtor (RawMemory_move r).2 σ1 = (Ok tt, σ1) ∧
  ∃ σ2, RawMemory_dtor (RawMemory_move r).1 σ1 = (Ok tt, σ2) ∧
    objs σ2 = objs (init 5) ∧ world σ2 = world (init 5) ∧
    destroyed σ2 = destroyed (init 5) ∧
    heap σ2 = if decide (3 = 0) then heap (init 5) else heap (init 5) ++ [None].
Proof.
  intros r σ1.
  assert (RawMemory_ctor (E := Obj false) 3 (init 5) = (Ok r, σ1))
    as Hrun by (vm_compute; reflexivity).
  exact (conj Hrun
    (RawMemory_round_trip (E := Obj false) (init 5) 3 r σ1 Hrun)).
Defined.


Lemma Vector_ctor_dtor_round_trip_witness :
  let σ1 := mkState [Some [Some 0; Some 0; Some 0]]
                    {[7 := mkVector (mkRawMemory (Ptr 0 0) 3) 3]} 2 [] in
  objs (init 5) !! 7 = None ∧
  Vector_ctor_size (E := Obj false) 7 3 (init 5) = (Ok tt, σ1) ∧
  ∃ σ2 xs, Vector_dtor 7 σ1 = (Ok tt, σ2) ∧
    length xs = 3 ∧ Forall (value_initialized (E := Obj false)) xs ∧
    objs σ2 = objs (init 5) ∧
    destroyed σ2 = destroyed (init 5) ++ xs ∧
    heap σ2 = if decide (3 = 0) then heap (init 5) else heap (init 5) ++ [None].
Proof.
  intros σ1.
  assert (objs (init 5) !! 7 = None) as Hnew by reflexivity.
  assert (Vector_ctor_size (E := Obj false) 7 3 (init 5) = (Ok tt, σ1))
    as Hrun by (vm_compute; reflexivity).
  exact (conj Hnew (conj Hrun
    (Vector_ctor_dtor_round_trip (E := Obj false) (init 5) 7 3 σ1 Hnew Hrun))).
Defined.


Lemma invariant_kept_on_return_witness :
  let σ := one_vector [Some 1; Some 2; None] 2 5 in
  let v := mkVector (mkRawMemory (Ptr 0 0) 3) 2 in
  let σ' := mkState [Some [Some 1; Some 2; Some 9]]
                    {[7 := mkVector (mkRawMemory (Ptr 0 0) 3) 3]} 4 [] in
  let σ1 := mkState [None; Some [Some 1; Some 2; None; None]]
                    {[7 := mkVector (mkRawMemory (Ptr 1 0) 4) 2]} 3 [1; 2] in
  objs σ !! 7 = Some v ∧
  owns σ v [1; 2] ∧
  PushBack (E := Obj false) 7 (tick 9) σ = (Ok tt, σ') ∧
  Vector_invariant σ' 7 ∧
  fits (Element := Obj false) 4 ∧
  Reserve (E := Obj false) 7 4 σ = (Ok tt, σ1) ∧
  Vector_invariant σ1 7.
Proof.
  intros σ v σ' σ1.
  assert (objs σ !! 7 = Some v) as Hv by reflexivity.
  assert (owns σ v [1; 2]) as Hown by solve_owns.
  assert (PushBack (E := Obj false) 7 (tick 9) σ = (Ok tt, σ'))
    as Hrun by (vm_compute; reflexivity).
  assert (fits (Element := Obj false) 4) as Hfits by reflexivity.
  assert (Reserve (E := Obj false) 7 4 σ = (Ok tt, σ1))
    as Hres by (vm_compute; reflexivity).
  pose (invariant_kept_on_return (E := Obj false) (L := Obj_lawful false)
          σ 7 v [1; 2] Hv Hown) as Hinv.
  exact (conj Hv (conj Hown (conj Hrun (conj
    (proj1 Hinv (tick 9) σ' Hrun)
    (conj Hfits (conj Hres
      (proj1 (proj2 (proj2 (proj2 (proj2 (proj2 Hinv)))))
         4 σ1 (λ _, Hfits) Hres))))))).
Defined.

Lemma Vector_default_empty_witness :
  objs (init 5) !! 7 = None ∧
  ∃ σ', Vector_default 7 (init 5) = (Ok tt, σ') ∧
    objs σ' = <[7 := mkVector (mkRawMemory nullptr 0) 0]> (objs (init 5)) ∧
    owns σ' (mkVector (mkRawMemory nullptr 0) 0) [] ∧
    heap σ' = heap (init 5) ∧ world σ' = world (init 5) ∧
    destroyed σ' = destroyed (init 5) ∧
    Size 7 σ' = (Ok 0, σ') ∧
    Capacity 7 σ' = (Ok 0, σ') ∧
    Vector_dtor 7 σ' = (Ok tt, init 5) ∧
    ∀ ctor σ2, PushBack (E := Obj false) 7 ctor σ' = (Ok tt, σ2) →
      ∃ x v2, constructed_by ctor x ∧ objs σ2 !! 7 = Some v2 ∧
        owns σ2 v2 [x] ∧ capacity_ (data_ v2) = 1.
Proof.
  assert (objs (init 5) !! 7 = None) as Hnew by reflexivity.
  exact (conj Hnew
    (Vector_default_empty (E := Obj false) (L := Obj_lawful false)
       (init 5) 7 Hnew)).
Defined.
